(** * Minesweeper knowledge engine: a shallow embedding of [minesweeper.py]

    The development models the [Sentence] and [MinesweeperAI] classes of
    [src/minesweeper.py].  Python sets of cells are [gset (Z * Z)], Python
    integers are [Z].  Sentences are mutable objects that the knowledge list
    and its shallow copies share, so the engine carries an explicit store of
    sentence objects ([heap]) and the knowledge list holds references into
    it.  The two [while] loops take fuel; running out of fuel and the
    [ValueError] of [list.remove] are distinct outcomes of the [result]
    monad. *)

From stdpp Require Import gmap list.

Local Open Scope Z_scope.

#[local] Set Warnings "-clear-no-such-hyp".

(** ** Data model *)

(** A cell is a Python tuple [(i, j)] of unbounded integers. *)
Abbreviation Cell := (Z * Z)%type.

(** References to sentence objects: indices into the store. *)
Abbreviation loc := nat.

(** Python's [range(a, b)]. *)
Definition range (a b : Z) : list Z := seqZ a (b - a).

(** ** Outcomes of running engine code *)

Inductive exn : Type :=
  | ValueError.   (* [list.remove(x)]: x not in list *)

Inductive result (A : Type) : Type :=
  | Ok (a : A)
  | Raise (e : exn)
  | OutOfFuel.

Arguments Ok {A} a.
Arguments Raise {A} e.
Arguments OutOfFuel {A}.

Global Instance result_ret : MRet result := λ A a, Ok a.

Global Instance result_bind : MBind result := λ A B f m,
  match m with
  | Ok a => f a
  | Raise e => Raise e
  | OutOfFuel => OutOfFuel
  end.

(** A [for] loop whose body may fail: the accumulator is the mutable state. *)
Fixpoint foldM {A B : Type} (f : A → B → result A) (acc : A) (l : list B)
  : result A :=
  match l with
  | [] => Ok acc
  | x :: l' => acc' ← f acc x; foldM f acc' l'
  end.

(** ** class Sentence *)

Module Sentence.

Record t : Type := mk { cells : gset Cell; count : Z }.

Global Instance eq_dec : EqDecision t.
Proof. solve_decision. Defined.

(** [len(self.cells)] as a Python integer. *)
Definition len (s : t) : Z := Z.of_nat (size (cells s)).

Definition known_mines (s : t) : gset Cell :=
  if decide (len s = count s) then cells s else ∅.

Definition known_safes (s : t) : gset Cell :=
  if decide (count s = 0) then cells s else ∅.

Definition mark_mine (cell : Cell) (s : t) : t :=
  if decide (cell ∈ cells s)
  then mk (cells s ∖ {[cell]}) (count s - 1)
  else s.

Definition mark_safe (cell : Cell) (s : t) : t :=
  if decide (cell ∈ cells s)
  then mk (cells s ∖ {[cell]}) (count s)
  else s.

End Sentence.

(** ** class MinesweeperAI *)

Module MinesweeperAI.

Record t : Type := mk {
  height : Z;
  width : Z;
  moves_made : gset Cell;
  mines : gset Cell;
  safes : gset Cell;
  heap : list Sentence.t;      (* every sentence object ever stored *)
  knowledge : list loc         (* [self.knowledge]: references, in order *)
}.

Definition init (height width : Z) : t :=
  mk height width ∅ ∅ ∅ [] [].

(** The sentence object behind a reference.  A reference outside the
    store does not arise from [init]; it reads as an empty sentence. *)
Definition deref (ai : t) (r : loc) : Sentence.t :=
  default (Sentence.mk ∅ 0) (heap ai !! r).

(** The knowledge base as a list of sentence values. *)
Definition kb (ai : t) : list Sentence.t := deref ai <$> knowledge ai.

Definition set_knowledge (k : list loc) (ai : t) : t :=
  mk (height ai) (width ai) (moves_made ai) (mines ai) (safes ai)
     (heap ai) k.

(** [for sentence in self.knowledge: sentence.f(cell)] *)
Definition update_sentences (f : Sentence.t → Sentence.t)
    (k : list loc) (h : list Sentence.t) : list Sentence.t :=
  foldl (λ h r, alter f r h) h k.

Definition mark_mine (cell : Cell) (ai : t) : t :=
  mk (height ai) (width ai) (moves_made ai)
     ({[cell]} ∪ mines ai) (safes ai)
     (update_sentences (Sentence.mark_mine cell) (knowledge ai) (heap ai))
     (knowledge ai).

Definition mark_safe (cell : Cell) (ai : t) : t :=
  mk (height ai) (width ai) (moves_made ai)
     (mines ai) ({[cell]} ∪ safes ai)
     (update_sentences (Sentence.mark_safe cell) (knowledge ai) (heap ai))
     (knowledge ai).

(** [for cell in cs: self.mark_mine(cell)], in the order the set is
    enumerated. *)
Definition mark_mines (cs : gset Cell) (ai : t) : t :=
  foldl (λ a c, mark_mine c a) ai (elements cs).

Definition mark_safes (cs : gset Cell) (ai : t) : t :=
  foldl (λ a c, mark_safe c a) ai (elements cs).

(** [self.knowledge.append(Sentence(cells, count))]: a fresh object. *)
Definition append (s : Sentence.t) (ai : t) : t :=
  mk (height ai) (width ai) (moves_made ai) (mines ai) (safes ai)
     (heap ai ++ [s]) (knowledge ai ++ [length (heap ai)]).

(** [self.knowledge.remove(sentence)]: drops the first entry that is the
    same object as, or [==] to, [sentence]; the same object is always
    [==] to itself, so the test is [Sentence.__eq__] on the values.
    [None] is Python's [ValueError]. *)
Fixpoint list_remove (h : list Sentence.t) (x : Sentence.t)
    (k : list loc) : option (list loc) :=
  match k with
  | [] => None
  | r :: k' =>
      if decide (default (Sentence.mk ∅ 0) (h !! r) = x) then Some k'
      else (r ::.) <$> list_remove h x k'
  end.

(** The four-way branch of the body of [trivial_update]'s [for] loop. *)
Inductive trivial_case : Type := Discard | AllMines | AllSafe | Keep.

Definition trivial_branch (s : Sentence.t) : trivial_case :=
  if decide (Sentence.len s = 0) then Discard
  else if decide (Sentence.count s = Sentence.len s) then AllMines
  else if decide (Sentence.count s = 0) then AllSafe
  else Keep.

(** One iteration of [for sentence in copy_kb]. *)
Definition trivial_step (acc : t * bool) (r : loc) : result (t * bool) :=
  let '(ai, change) := acc in
  let sentence := deref ai r in
  match trivial_branch sentence with
  | Discard =>
      match list_remove (heap ai) sentence (knowledge ai) with
      | Some k => Ok (set_knowledge k ai, change)
      | None => Raise ValueError
      end
  | AllMines => Ok (mark_mines (Sentence.cells sentence) ai, true)
  | AllSafe => Ok (mark_safes (Sentence.cells sentence) ai, true)
  | Keep => Ok (ai, change)
  end.

(** One pass of the [while] body: snapshot, then scan. *)
Definition trivial_pass (ai : t) : result (t * bool) :=
  let copy_kb := knowledge ai in
  foldM trivial_step (ai, false) copy_kb.

Fixpoint trivial_update (fuel : nat) (ai : t) : result t :=
  match fuel with
  | O => OutOfFuel
  | S fuel' =>
      '(ai', change) ← trivial_pass ai;
      if change : bool then trivial_update fuel' ai' else Ok ai'
  end.

(** Lines 211-218 and 263-270: the same three-way classification of a
    freshly built sentence. *)
Definition classify (new_sentence : Sentence.t) (ai : t) : t :=
  if decide (Sentence.count new_sentence = 0)
  then mark_safes (Sentence.cells new_sentence) ai
  else if decide (Sentence.count new_sentence = Sentence.len new_sentence)
  then mark_mines (Sentence.cells new_sentence) ai
  else append new_sentence ai.

Definition derive (s1 s2 : Sentence.t) : Sentence.t :=
  Sentence.mk (Sentence.cells s2 ∖ Sentence.cells s1)
              (Sentence.count s2 - Sentence.count s1).

(** Body of the inner [for sentence_2 in kb_copy]. *)
Definition inference_step (fuel : nat) (r1 : loc) (acc : t * bool)
    (r2 : loc) : result (t * bool) :=
  let '(ai, change) := acc in
  let sentence_1 := deref ai r1 in
  let sentence_2 := deref ai r2 in
  if decide (sentence_1 = sentence_2) then Ok (ai, change)
  else if decide (Sentence.cells sentence_1 ⊆ Sentence.cells sentence_2)
  then ai' ← trivial_update fuel (classify (derive sentence_1 sentence_2) ai);
       Ok (ai', true)
  else Ok (ai, change).

Definition inference_pass (fuel : nat) (ai : t) : result (t * bool) :=
  let kb_copy := knowledge ai in
  foldM (λ acc r1, foldM (inference_step fuel r1) acc kb_copy)
        (ai, false) kb_copy.

Fixpoint inference_update (fuel : nat) (ai : t) : result t :=
  match fuel with
  | O => OutOfFuel
  | S fuel' =>
      '(ai', change) ← inference_pass fuel' ai;
      if change : bool then inference_update fuel' ai' else Ok ai'
  end.

(** The nine candidates of the double [range] loop, row by row. *)
Definition neighbourhood (cell : Cell) : list Cell :=
  i ← range (cell.1 - 1) (cell.1 + 2);
  j ← range (cell.2 - 1) (cell.2 + 2);
  [(i, j)].

(** Body of the double loop; the accumulator is
    [(cells_to_store, count)]. *)
Definition scan_neighbour (ai : t) (acc : gset Cell * Z) (c : Cell)
    : gset Cell * Z :=
  let '(cells_to_store, count) := acc in
  if decide (c.1 < 0 ∨ c.2 < 0) then acc
  else if decide (c.1 >= height ai ∨ c.2 >= width ai) then acc
  else if decide (c ∈ moves_made ai) then acc
  else if decide (c ∈ mines ai) then (cells_to_store, count - 1)
  else if decide (c ∈ safes ai) then acc
  else ({[c]} ∪ cells_to_store, count).

Definition add_move (cell : Cell) (ai : t) : t :=
  mk (height ai) (width ai) ({[cell]} ∪ moves_made ai) (mines ai)
     (safes ai) (heap ai) (knowledge ai).

Definition add_knowledge (fuel : nat) (cell : Cell) (count : Z) (ai : t)
    : result t :=
  let ai := add_move cell ai in
  let ai := mark_safe cell ai in
  let '(cells_to_store, count) :=
    foldl (scan_neighbour ai) (∅, count) (neighbourhood cell) in
  let new_sentence := Sentence.mk cells_to_store count in
  let ai := classify new_sentence ai in
  ai ← trivial_update fuel ai;
  inference_update fuel ai.

(** [safe_moves.pop()] yields some member of a non-empty set; which one
    is up to the hash order, so the choice is a parameter. *)
Definition make_safe_move (pop : gset Cell → Cell) (ai : t)
    : option Cell * t :=
  let safe_moves := safes ai ∖ moves_made ai in
  if decide (size safe_moves = 0%nat) then (None, ai)
  else (Some (pop safe_moves), ai).

Definition all_cells (ai : t) : gset Cell :=
  list_to_set (i ← range 0 (height ai); j ← range 0 (width ai); [(i, j)]).

(** [random.sample(list(cells_to_choose), 1)[0]]: the draw is a
    parameter. *)
Definition make_random_move (sample : list Cell → Cell) (ai : t)
    : option Cell * t :=
  let cells_to_choose := (all_cells ai ∖ moves_made ai) ∖ mines ai in
  if decide (size cells_to_choose ≠ 0%nat)
  then (Some (sample (elements cells_to_choose)), ai)
  else (None, ai).

End MinesweeperAI.

(** ** class Minesweeper *)

Module Minesweeper.

Inductive error : Type :=
  | ValueError    (* [random.randrange(n)] with [n <= 0] *)
  | IndexError    (* list index out of range *)
  | OutOfDraws.   (* the supply of random numbers is used up *)

Inductive outcome (A : Type) : Type :=
  | Done (a : A)
  | Fail (e : error).

Arguments Done {A} a.
Arguments Fail {A} e.

Definition bind {A B : Type} (m : outcome A) (f : A → outcome B) : outcome B :=
  match m with
  | Done a => f a
  | Fail e => Fail e
  end.

Record t : Type := mk {
  height : Z;
  width : Z;
  mines : gset Cell;
  board : list (list bool);
  mines_found : gset Cell
}.

(** [l[i]] on a Python list: a negative index counts from the end;
    [None] is IndexError. *)
Definition py_index {A : Type} (l : list A) (i : Z) : option A :=
  if decide (0 ≤ i) then l !! Z.to_nat i
  else if decide (- Z.of_nat (length l) ≤ i)
       then l !! Z.to_nat (Z.of_nat (length l) + i)
       else None.

(** [l[i] = x] on a Python list. *)
Definition py_set_index {A : Type} (l : list A) (i : Z) (x : A)
  : option (list A) :=
  if decide (0 ≤ i)
  then if decide (i < Z.of_nat (length l))
       then Some (<[Z.to_nat i := x]> l) else None
  else if decide (- Z.of_nat (length l) ≤ i)
       then Some (<[Z.to_nat (Z.of_nat (length l) + i) := x]> l)
       else None.

(** [self.board[i][j]] *)
Definition board_get (b : list (list bool)) (c : Cell) : outcome bool :=
  match py_index b c.1 with
  | Some row =>
      match py_index row c.2 with
      | Some x => Done x
      | None => Fail IndexError
      end
  | None => Fail IndexError
  end.

(** [self.board[i][j] = True] *)
Definition board_set (b : list (list bool)) (c : Cell)
  : outcome (list (list bool)) :=
  match py_index b c.1 with
  | Some row =>
      match py_set_index row c.2 true with
      | Some row' =>
          match py_set_index b c.1 row' with
          | Some b' => Done b'
          | None => Fail IndexError
          end
      | None => Fail IndexError
      end
  | None => Fail IndexError
  end.

(** The field of [__init__]: [height] rows of [width] times False. *)
Definition empty_board (height width : Z) : list (list bool) :=
  (λ _, (λ _, false) <$> range 0 width) <$> range 0 height.

(** [random.randrange(n)]: some integer of [0, n), here the residue of
    the next number [d] of the supply; ValueError when the range is
    empty. *)
Definition randrange (n d : Z) : outcome Z :=
  if decide (0 < n) then Done (d `mod` n) else Fail ValueError.

(** The loop [while len(self.mines) != mines], one pair of random numbers
    per iteration; [height] and [width] are the arguments of [__init__]. *)
Fixpoint place_mines (draws : list (Z * Z)) (height width target : Z)
    (g : t) : outcome t :=
  if decide (Z.of_nat (size (mines g)) ≠ target) then
    match draws with
    | [] => Fail OutOfDraws
    | d :: draws' =>
        bind (randrange height d.1) (λ i,
        bind (randrange width d.2) (λ j,
        bind (board_get (board g) (i, j)) (λ x,
        if x : bool then place_mines draws' height width target g
        else
          bind (board_set (board g) (i, j)) (λ b',
          place_mines draws' height width target
            (mk (Minesweeper.height g) (Minesweeper.width g)
                ({[(i, j)]} ∪ mines g) b' (mines_found g))))))
    end
  else Done g.

(** [Minesweeper(height, width, mines)] *)
Definition init (draws : list (Z * Z)) (height width mines : Z) : outcome t :=
  place_mines draws height width mines
    (mk height width ∅ (empty_board height width) ∅).

Definition is_mine (g : t) (cell : Cell) : outcome bool :=
  board_get (board g) cell.

(** Body of the double loop of [nearby_mines]; the accumulator is
    [count]. *)
Definition nearby_step (g : t) (cell : Cell) (count : Z) (c : Cell)
  : outcome Z :=
  if decide (c = cell) then Done count
  else if decide ((0 ≤ c.1 < height g) ∧ (0 ≤ c.2 < width g))
  then bind (board_get (board g) c)
            (λ x, Done (if x : bool then count + 1 else count))
  else Done count.

Fixpoint nearby_loop (g : t) (cell : Cell) (count : Z) (l : list Cell)
  : outcome Z :=
  match l with
  | [] => Done count
  | c :: l' => bind (nearby_step g cell count c)
                    (λ count', nearby_loop g cell count' l')
  end.

Definition nearby_mines (g : t) (cell : Cell) : outcome Z :=
  nearby_loop g cell 0 (MinesweeperAI.neighbourhood cell).

Definition won (g : t) : bool := bool_decide (mines_found g = mines g).

End Minesweeper.

(** ** Specification vocabulary *)

(** What a sentence looks like once every cell of [cs] has been marked as
    a mine, resp. as safe, in whatever order. *)
Definition resolve_mines (cs : gset Cell) (s : Sentence.t) : Sentence.t :=
  Sentence.mk (Sentence.cells s ∖ cs)
              (Sentence.count s - Z.of_nat (size (Sentence.cells s ∩ cs))).

Definition resolve_safes (cs : gset Cell) (s : Sentence.t) : Sentence.t :=
  Sentence.mk (Sentence.cells s ∖ cs) (Sentence.count s).

(** The marking loops over an explicit enumeration of the cells. *)
Definition mark_mine_list (l : list Cell) (ai : MinesweeperAI.t)
  : MinesweeperAI.t :=
  foldl (λ a c, MinesweeperAI.mark_mine c a) ai l.

Definition mark_safe_list (l : list Cell) (ai : MinesweeperAI.t)
  : MinesweeperAI.t :=
  foldl (λ a c, MinesweeperAI.mark_safe c a) ai l.

(** The classification sets only grow, the board size stays. *)
Definition grows (ai ai' : MinesweeperAI.t) : Prop :=
  MinesweeperAI.height ai' = MinesweeperAI.height ai
  ∧ MinesweeperAI.width ai' = MinesweeperAI.width ai
  ∧ MinesweeperAI.moves_made ai ⊆ MinesweeperAI.moves_made ai'
  ∧ MinesweeperAI.mines ai ⊆ MinesweeperAI.mines ai'
  ∧ MinesweeperAI.safes ai ⊆ MinesweeperAI.safes ai'.

(** What the caller can observe of an engine: the three sets and the
    sentences of the knowledge base, in order. *)
Definition view (ai : MinesweeperAI.t)
  : gset Cell * gset Cell * gset Cell * list Sentence.t :=
  (MinesweeperAI.moves_made ai, MinesweeperAI.safes ai,
   MinesweeperAI.mines ai, MinesweeperAI.kb ai).

(** Contract of [set.pop] on a non-empty set. *)
Definition pop_ok (pop : gset Cell → Cell) : Prop :=
  ∀ s : gset Cell, s ≠ ∅ → pop s ∈ s.

(** A [pop] that takes the first cell of the enumeration. *)
Definition pop_first (s : gset Cell) : Cell :=
  default (0, 0) (head (elements s)).

(** One call of a public operation of the engine, as a transition. *)
Inductive call (pop : gset Cell → Cell) (sample : list Cell → Cell)
  : MinesweeperAI.t → MinesweeperAI.t → Prop :=
  | call_mark_mine c ai :
      call pop sample ai (MinesweeperAI.mark_mine c ai)
  | call_mark_safe c ai :
      call pop sample ai (MinesweeperAI.mark_safe c ai)
  | call_add_knowledge fuel c n ai ai' :
      MinesweeperAI.add_knowledge fuel c n ai = Ok ai' →
      call pop sample ai ai'
  | call_make_safe_move ai :
      call pop sample ai (MinesweeperAI.make_safe_move pop ai).2
  | call_make_random_move ai :
      call pop sample ai (MinesweeperAI.make_random_move sample ai).2.

(** Engines that a driver can get by calling public operations on a new
    engine. *)
Inductive reachable (pop : gset Cell → Cell) (sample : list Cell → Cell)
  : MinesweeperAI.t → Prop :=
  | reachable_init h w : reachable pop sample (MinesweeperAI.init h w)
  | reachable_call ai ai' :
      reachable pop sample ai → call pop sample ai ai' →
      reachable pop sample ai'.

(** The engine after [add_knowledge((0, 0), 1)] on a new 8 x 8 engine. *)
Definition ai_corner : MinesweeperAI.t :=
  MinesweeperAI.mk 8 8 {[(0, 0)]} ∅ {[(0, 0)]}
    [Sentence.mk {[(0, 1); (1, 0); (1, 1)]} 1] [0%nat].

(** The store invariant: no stored sentence mentions a classified cell,
    and a sentence that the knowledge list no longer references has no
    cells left. *)
Definition store_ok (ai : MinesweeperAI.t) : Prop :=
  ∀ (r : loc) s, MinesweeperAI.heap ai !! r = Some s →
    Sentence.cells s ## MinesweeperAI.mines ai ∪ MinesweeperAI.safes ai
    ∧ (r ∈ MinesweeperAI.knowledge ai ∨ Sentence.cells s = ∅).

Definition consistent (ai : MinesweeperAI.t) : Prop :=
  store_ok ai ∧ MinesweeperAI.mines ai ## MinesweeperAI.safes ai.

(** Calls that never classify one cell both ways: [mark_mine] on a cell
    that is not in safes, [mark_safe] and [add_knowledge] on a cell that is
    not in mines; the two loops and the two queries, which take no cell,
    whenever they return. *)
Inductive guarded_call (pop : gset Cell → Cell) (sample : list Cell → Cell)
  : MinesweeperAI.t → MinesweeperAI.t → Prop :=
  | guarded_mark_mine c ai :
      c ∉ MinesweeperAI.safes ai →
      guarded_call pop sample ai (MinesweeperAI.mark_mine c ai)
  | guarded_mark_safe c ai :
      c ∉ MinesweeperAI.mines ai →
      guarded_call pop sample ai (MinesweeperAI.mark_safe c ai)
  | guarded_add_knowledge fuel c n ai ai' :
      c ∉ MinesweeperAI.mines ai →
      MinesweeperAI.add_knowledge fuel c n ai = Ok ai' →
      guarded_call pop sample ai ai'
  | guarded_trivial_update fuel ai ai' :
      MinesweeperAI.trivial_update fuel ai = Ok ai' →
      guarded_call pop sample ai ai'
  | guarded_inference_update fuel ai ai' :
      MinesweeperAI.inference_update fuel ai = Ok ai' →
      guarded_call pop sample ai ai'
  | guarded_make_safe_move ai :
      guarded_call pop sample ai (MinesweeperAI.make_safe_move pop ai).2
  | guarded_make_random_move ai :
      guarded_call pop sample ai (MinesweeperAI.make_random_move sample ai).2.

Inductive guarded_reachable (pop : gset Cell → Cell)
    (sample : list Cell → Cell) : MinesweeperAI.t → Prop :=
  | guarded_init h w : guarded_reachable pop sample (MinesweeperAI.init h w)
  | guarded_step ai ai' :
      guarded_reachable pop sample ai → guarded_call pop sample ai ai' →
      guarded_reachable pop sample ai'.

(** The number of cells that stored sentences still mention: the measure
    that every changing pass of [trivial_update] lowers. *)
Definition weight (ai : MinesweeperAI.t) : nat :=
  sum_list_with (λ s, size (Sentence.cells s)) (MinesweeperAI.heap ai).

(** A sentence read as a statement about a mine placement [board]:
    exactly [count] of its cells are mines. *)
Definition true_of (board : gset Cell) (s : Sentence.t) : Prop :=
  Sentence.count s = Z.of_nat (size (Sentence.cells s ∩ board)).

(** Every sentence of the knowledge base is true of [board]. *)
Definition kb_true (board : gset Cell) (ai : MinesweeperAI.t) : Prop :=
  ∀ s, s ∈ MinesweeperAI.kb ai → true_of board s.

(** Two small engines for trivial resolution: one that lists ({A,C}, 1)
    and ({A,B}, 2), one that lists ({A,B,D}, 0). *)
Definition ai_two_mines : MinesweeperAI.t :=
  MinesweeperAI.mk 8 8 ∅ ∅ ∅
    [Sentence.mk {[(0, 0); (1, 1)]} 1; Sentence.mk {[(0, 0); (0, 1)]} 2]
    [0%nat; 1%nat].

Definition ai_three_safe : MinesweeperAI.t :=
  MinesweeperAI.mk 8 8 ∅ ∅ ∅
    [Sentence.mk {[(0, 0); (0, 1); (0, 2)]} 0] [0%nat].

(** The knowledge base [({A,B}, 1); ({A,B,C}, 2)] on the first row. *)
Definition ai_subset : MinesweeperAI.t :=
  MinesweeperAI.mk 8 8 ∅ ∅ ∅
    [Sentence.mk {[(0, 0); (0, 1)]} 1; Sentence.mk {[(0, 0); (0, 1); (0, 2)]} 2]
    [0%nat; 1%nat].

(** Statements 1) to 3) of [add_knowledge] and the classification of the
    new sentence: what is done before the two loops run. *)
Definition ingest (cell : Cell) (count : Z) (ai : MinesweeperAI.t)
  : MinesweeperAI.t :=
  let ai := MinesweeperAI.mark_safe cell (MinesweeperAI.add_move cell ai) in
  let acc := foldl (MinesweeperAI.scan_neighbour ai) (∅, count)
                   (MinesweeperAI.neighbourhood cell) in
  MinesweeperAI.classify (Sentence.mk acc.1 acc.2) ai.

(** The three sentences of the run that never ends: after
    [add_knowledge((0, 0), 1)] and [add_knowledge((1, 1), 2)] on an 8 x 8
    board the knowledge base holds [small] and [big]; subset inference
    derives [rest] from them, and [small] again from [rest] and [big]. *)
Definition small : Sentence.t := Sentence.mk {[(0, 1); (1, 0)]} 1.

Definition big : Sentence.t :=
  Sentence.mk {[(0, 1); (0, 2); (1, 0); (1, 2); (2, 0); (2, 1); (2, 2)]} 2.

Definition rest : Sentence.t :=
  Sentence.mk {[(0, 2); (1, 2); (2, 0); (2, 1); (2, 2)]} 1.

(** The engine when the loops of the second [add_knowledge] start. *)
Definition ai_stuck : MinesweeperAI.t :=
  MinesweeperAI.mk 8 8 {[(0, 0); (1, 1)]} ∅ {[(0, 0); (1, 1)]}
    [small; big] [0%nat; 1%nat].

(** Every listed sentence is a stored copy of one of the three. *)
Definition stuck (ai : MinesweeperAI.t) : Prop :=
  ∀ r, r ∈ MinesweeperAI.knowledge ai →
    ∃ s, MinesweeperAI.heap ai !! r = Some s
         ∧ (s = small ∨ s = big ∨ s = rest).

(** The sentence object [r] is on its way to being resolved into
    [target]: what it has lost is in [target], what is left comes from the
    cells [X] it started with. *)
Definition resolving (board X : gset Cell) (r : loc)
    (target : MinesweeperAI.t → gset Cell) (ai : MinesweeperAI.t) : Prop :=
  (∀ r', r' ∈ MinesweeperAI.knowledge ai →
         true_of board (MinesweeperAI.deref ai r'))
  ∧ Sentence.cells (MinesweeperAI.deref ai r) ⊆ X
  ∧ X ⊆ target ai ∪ Sentence.cells (MinesweeperAI.deref ai r)
  ∧ (r ∈ MinesweeperAI.knowledge ai
     ∨ Sentence.cells (MinesweeperAI.deref ai r) = ∅).


(** Contract of [random.sample(l, 1)[0]] on a non-empty list. *)
Definition sample_ok (sample : list Cell → Cell) : Prop :=
  ∀ l : list Cell, l ≠ [] → sample l ∈ l.

(** A draw that takes the first cell of the list. *)
Definition sample_first (l : list Cell) : Cell := default (0, 0) (head l).

(** The cell lies on the board of the engine. *)
Definition on_board (ai : MinesweeperAI.t) (c : Cell) : Prop :=
  0 ≤ c.1 < MinesweeperAI.height ai ∧ 0 ≤ c.2 < MinesweeperAI.width ai.

(** The cell lies on the field of the game. *)
Definition on_field (g : Minesweeper.t) (c : Cell) : Prop :=
  0 ≤ c.1 < Minesweeper.height g ∧ 0 ≤ c.2 < Minesweeper.width g.

(** The field and the mine set of a game say the same: the field is
    [height] by [width], it holds True exactly at the cells of [mines], and
    every mine is on the field. *)
Definition agrees (g : Minesweeper.t) : Prop :=
  (∀ c, on_field g c →
        Minesweeper.board_get (Minesweeper.board g) c
        = Minesweeper.Done (bool_decide (c ∈ Minesweeper.mines g)))
  ∧ (∀ c, c ∈ Minesweeper.mines g → on_field g c).


(** The loop invariant of [Minesweeper.__init__]: the field is [h] by [w],
    it holds True exactly at the cells of [ms], which are all on it. *)
Definition field_ok (h w : Z) (ms : gset Cell) (b : list (list bool)) : Prop :=
  length b = Z.to_nat h
  ∧ (∀ (i : nat) row, b !! i = Some row →
       length row = Z.to_nat w
       ∧ ∀ (j : nat) x, row !! j = Some x →
           x = bool_decide ((Z.of_nat i, Z.of_nat j) ∈ ms))
  ∧ (∀ c, c ∈ ms → (0 ≤ c.1 < h) ∧ (0 ≤ c.2 < w)).

(** What the engine holds is true of the mine placement [board]: every
    stored sentence, its mines are mines, its safes and the moves made are
    not. *)
Definition sound (board : gset Cell) (ai : MinesweeperAI.t) : Prop :=
  (∀ r, true_of board (MinesweeperAI.deref ai r))
  ∧ MinesweeperAI.mines ai ⊆ board
  ∧ MinesweeperAI.safes ai ## board
  ∧ MinesweeperAI.moves_made ai ## board.

(** Engines that a driver gets from a new engine of the size of the game
    [g] by honest play: every [add_knowledge(cell, count)] is for a cell
    that [is_mine] reports as no mine, with the count that [nearby_mines]
    returns. *)
Inductive honest (g : Minesweeper.t) : MinesweeperAI.t → Prop :=
  | honest_init :
      honest g (MinesweeperAI.init (Minesweeper.height g) (Minesweeper.width g))
  | honest_add_knowledge fuel cell count ai ai' :
      honest g ai →
      Minesweeper.is_mine g cell = Minesweeper.Done false →
      Minesweeper.nearby_mines g cell = Minesweeper.Done count →
      MinesweeperAI.add_knowledge fuel cell count ai = Ok ai' →
      honest g ai'.

(** A 3 x 3 game with its one mine in the corner. *)
Definition game_corner : Minesweeper.t :=
  Minesweeper.mk 3 3 {[(0, 0)]}
    [[true; false; false]; [false; false; false]; [false; false; false]] ∅.

(** The engine after [add_knowledge((1, 1), 1)] on a new 3 x 3 engine. *)
Definition ai_centre : MinesweeperAI.t :=
  MinesweeperAI.mk 3 3 {[(1, 1)]} ∅ {[(1, 1)]}
    [Sentence.mk
       {[(0, 0); (0, 1); (0, 2); (1, 0); (1, 2); (2, 0); (2, 1); (2, 2)]} 1]
    [0%nat].

(** The neighbours that [add_knowledge] stores in its new sentence, and
    those for which it lowers the count. *)
Definition to_store (ai : MinesweeperAI.t) (c : Cell) : Prop :=
  on_board ai c ∧ (c ∉ MinesweeperAI.moves_made ai)
  ∧ (c ∉ MinesweeperAI.mines ai) ∧ (c ∉ MinesweeperAI.safes ai).

Definition known_mine (ai : MinesweeperAI.t) (c : Cell) : Prop :=
  on_board ai c ∧ (c ∉ MinesweeperAI.moves_made ai)
  ∧ c ∈ MinesweeperAI.mines ai.

(** No two sentences of the knowledge base that differ have their cells
    in subset relation: the exit condition of [inference_update]. *)
Definition no_subset_pair (ai : MinesweeperAI.t) : Prop :=
  ∀ r1 r2, r1 ∈ MinesweeperAI.knowledge ai → r2 ∈ MinesweeperAI.knowledge ai →
    Sentence.cells (MinesweeperAI.deref ai r1)
      ⊆ Sentence.cells (MinesweeperAI.deref ai r2) →
    MinesweeperAI.deref ai r1 = MinesweeperAI.deref ai r2.

(** The knowledge list refers to stored sentences, each at most once. *)
Definition store_wf (ai : MinesweeperAI.t) : Prop :=
  NoDup (MinesweeperAI.knowledge ai)
  ∧ ∀ r, r ∈ MinesweeperAI.knowledge ai →
         is_Some (MinesweeperAI.heap ai !! r).

(** Everything the engine has concluded is about cells of [B]: the cells
    of its sentences, its mines, and its safes other than moves made. *)
Definition within (B : gset Cell) (ai : MinesweeperAI.t) : Prop :=
  (∀ r, Sentence.cells (MinesweeperAI.deref ai r) ⊆ B)
  ∧ MinesweeperAI.mines ai ⊆ B
  ∧ MinesweeperAI.safes ai ⊆ B ∪ MinesweeperAI.moves_made ai.

(** Engines driven by [add_knowledge] alone, from a new engine. *)
Inductive played : MinesweeperAI.t → Prop :=
  | played_init h w : played (MinesweeperAI.init h w)
  | played_add_knowledge fuel cell count ai ai' :
      played ai →
      MinesweeperAI.add_knowledge fuel cell count ai = Ok ai' →
      played ai'.


(** The engine after [add_knowledge((0, 0), 0)] on a new 1 x 2 engine: the
    cell (0, 1) is known to be safe and has not been played. *)
Definition ai_row : MinesweeperAI.t :=
  MinesweeperAI.mk 1 2 {[(0, 0)]} ∅ {[(0, 0); (0, 1)]} [] [].

(** The engine after [mark_mine((0, 1))] on [ai_corner] and a run of
    the two loops: the sentence ({(1,0),(1,1)}, 0) has been resolved. *)
Definition ai_resolved : MinesweeperAI.t :=
  MinesweeperAI.mk 8 8 {[(0, 0)]} {[(0, 1)]} {[(0, 0); (1, 0); (1, 1)]}
    [Sentence.mk ∅ 0] [].

(** A knowledge base that is true of no mine placement: ({A}, 0) and
    ({A,B}, 2). *)
Definition ai_contra : MinesweeperAI.t :=
  MinesweeperAI.mk 8 8 ∅ ∅ ∅
    [Sentence.mk {[(0, 0)]} 0; Sentence.mk {[(0, 0); (0, 1)]} 2]
    [0%nat; 1%nat].

(** * Properties *)

(** ** The result monad *)

Lemma bind_Ok_inv {A B : Type} (m : result A) (f : A → result B) (b : B) :
  m ≫= f = Ok b → ∃ a, m = Ok a ∧ f a = Ok b.
Proof. destruct m as [a| |]; simpl; [eauto | done | done]. Qed.


(** A loop invariant carried through a fallible [for] loop. *)
Lemma foldM_invariant {A B : Type} (P : A → Prop) (f : A → B → result A)
    (l : list B) acc acc' :
  (∀ a x a', x ∈ l → P a → f a x = Ok a' → P a') →
  P acc → foldM f acc l = Ok acc' → P acc'.
Proof.
  revert acc. induction l as [|x l IH]; intros acc Hstep HP Hrun; simpl in *.
  - by injection Hrun as <-.
  - apply bind_Ok_inv in Hrun as (a & Hfx & Hrest).
    eapply (IH a); [| |done].
    + intros ????. apply Hstep. by right.
    + eapply Hstep; [by left|done..].
Qed.

(** ** Sentences *)

Lemma Sentence_mark_mine_idemp c s :
  Sentence.mark_mine c (Sentence.mark_mine c s) = Sentence.mark_mine c s.
Proof.
  unfold Sentence.mark_mine. destruct (decide (c ∈ Sentence.cells s)); simpl.
  - rewrite decide_False; [done | set_solver].
  - by rewrite decide_False.
Qed.

Lemma Sentence_mark_safe_idemp c s :
  Sentence.mark_safe c (Sentence.mark_safe c s) = Sentence.mark_safe c s.
Proof.
  unfold Sentence.mark_safe. destruct (decide (c ∈ Sentence.cells s)); simpl.
  - rewrite decide_False; [done | set_solver].
  - by rewrite decide_False.
Qed.

Lemma Sentence_mark_mine_cells c s :
  Sentence.cells (Sentence.mark_mine c s) = Sentence.cells s ∖ {[c]}.
Proof.
  unfold Sentence.mark_mine. case_decide; simpl; [done | set_solver].
Qed.

Lemma Sentence_mark_safe_cells c s :
  Sentence.cells (Sentence.mark_safe c s) = Sentence.cells s ∖ {[c]}.
Proof.
  unfold Sentence.mark_safe. case_decide; simpl; [done | set_solver].
Qed.

Lemma Sentence_mark_safe_count c s :
  Sentence.count (Sentence.mark_safe c s) = Sentence.count s.
Proof. unfold Sentence.mark_safe. by case_decide. Qed.

(** ** The store under [mark_mine] and [mark_safe] *)

Lemma update_sentences_length f k h :
  length (MinesweeperAI.update_sentences f k h) = length h.
Proof.
  unfold MinesweeperAI.update_sentences. revert h.
  induction k as [|r k IH]; intros h; simpl; [done|].
  by rewrite IH, length_alter.
Qed.

(** An object that the knowledge list does not reference is untouched. *)
Lemma update_sentences_lookup_notin f k h (i : nat) :
  i ∉ k → MinesweeperAI.update_sentences f k h !! i = h !! i.
Proof.
  unfold MinesweeperAI.update_sentences. revert h.
  induction k as [|r k IH]; intros h Hi; simpl; [done|].
  rewrite IH by set_solver. apply list_lookup_alter_ne. set_solver.
Qed.

(** A referenced object is updated; were it referenced twice it would be
    updated twice, which an idempotent update does not show. *)
Lemma update_sentences_lookup_in f k h (i : nat) :
  (∀ s, f (f s) = f s) → i ∈ k →
  MinesweeperAI.update_sentences f k h !! i = f <$> h !! i.
Proof.
  intros Hf. unfold MinesweeperAI.update_sentences. revert h.
  induction k as [|r k IH]; intros h Hi; [by apply elem_of_nil in Hi|].
  simpl. destruct (decide (i ∈ k)) as [Hin|Hnin].
  - rewrite IH by done. destruct (decide (r = i)) as [->|Hne].
    + rewrite list_lookup_alter_eq. destruct (h !! i); simpl; [|done].
      by rewrite Hf.
    + by rewrite list_lookup_alter_ne.
  - assert (r = i) as -> by set_solver.
    fold (MinesweeperAI.update_sentences f k (alter f i h)).
    rewrite update_sentences_lookup_notin by done.
    apply list_lookup_alter_eq.
Qed.

Lemma update_sentences_lookup f k h (i : nat) :
  (∀ s, f (f s) = f s) →
  MinesweeperAI.update_sentences f k h !! i
  = if decide (i ∈ k) then f <$> h !! i else h !! i.
Proof.
  intros Hf. case_decide.
  - by apply update_sentences_lookup_in.
  - by apply update_sentences_lookup_notin.
Qed.

(** ** Marking a whole set of cells *)

Lemma foldl_Sentence_mark_mine (l : list Cell) s :
  foldl (λ s c, Sentence.mark_mine c s) s l = resolve_mines (list_to_set l) s.
Proof.
  revert s. induction l as [|c l IH]; intros s; simpl.
  - unfold resolve_mines. destruct s as [cs n]; simpl. f_equal.
    + set_solver.
    + replace (cs ∩ ∅) with (∅ : gset Cell) by set_solver.
      rewrite size_empty. lia.
  - rewrite IH. unfold resolve_mines, Sentence.mark_mine.
    destruct (decide (c ∈ Sentence.cells s)) as [Hc|Hc]; simpl; f_equal.
    + set_solver.
    + replace (Sentence.cells s ∩ ({[c]} ∪ list_to_set l))
        with ({[c]} ∪ (Sentence.cells s ∖ {[c]}) ∩ list_to_set l : gset Cell).
      * rewrite (size_union (C:=gset Cell) {[c]}) by set_solver.
        rewrite size_singleton. lia.
      * apply set_eq. intros x. destruct (decide (x = c)); set_solver.
    + set_solver.
    + do 2 f_equal. f_equal. set_solver.
Qed.

Lemma foldl_Sentence_mark_safe (l : list Cell) s :
  foldl (λ s c, Sentence.mark_safe c s) s l = resolve_safes (list_to_set l) s.
Proof.
  revert s. induction l as [|c l IH]; intros s; simpl.
  - unfold resolve_safes. destruct s as [cs n]; simpl. f_equal. set_solver.
  - rewrite IH. unfold resolve_safes.
    rewrite Sentence_mark_safe_cells, Sentence_mark_safe_count.
    f_equal. set_solver.
Qed.

Lemma resolve_mines_idemp cs s :
  resolve_mines cs (resolve_mines cs s) = resolve_mines cs s.
Proof.
  unfold resolve_mines; simpl. f_equal; [set_solver|].
  replace (Sentence.cells s ∖ cs ∩ cs) with (∅ : gset Cell) by set_solver.
  rewrite size_empty. lia.
Qed.

Lemma resolve_safes_idemp cs s :
  resolve_safes cs (resolve_safes cs s) = resolve_safes cs s.
Proof. unfold resolve_safes; simpl. f_equal. set_solver. Qed.

Section mark_list.
Import MinesweeperAI.

Lemma mark_mine_list_frame l ai :
  height (mark_mine_list l ai) = height ai
  ∧ width (mark_mine_list l ai) = width ai
  ∧ moves_made (mark_mine_list l ai) = moves_made ai
  ∧ mines (mark_mine_list l ai) = list_to_set l ∪ mines ai
  ∧ safes (mark_mine_list l ai) = safes ai
  ∧ knowledge (mark_mine_list l ai) = knowledge ai.
Proof.
  unfold mark_mine_list. revert ai.
  induction l as [|c l IH]; intros ai; simpl.
  - repeat split; set_solver.
  - destruct (IH (mark_mine c ai)) as (-> & -> & -> & -> & -> & ->).
    simpl. repeat split; set_solver.
Qed.

Lemma mark_safe_list_frame l ai :
  height (mark_safe_list l ai) = height ai
  ∧ width (mark_safe_list l ai) = width ai
  ∧ moves_made (mark_safe_list l ai) = moves_made ai
  ∧ mines (mark_safe_list l ai) = mines ai
  ∧ safes (mark_safe_list l ai) = list_to_set l ∪ safes ai
  ∧ knowledge (mark_safe_list l ai) = knowledge ai.
Proof.
  unfold mark_safe_list. revert ai.
  induction l as [|c l IH]; intros ai; simpl.
  - repeat split; set_solver.
  - destruct (IH (mark_safe c ai)) as (-> & -> & -> & -> & -> & ->).
    simpl. repeat split; set_solver.
Qed.

Lemma mark_mine_list_heap l ai (i : nat) :
  heap (mark_mine_list l ai) !! i
  = if decide (i ∈ knowledge ai)
    then resolve_mines (list_to_set l) <$> heap ai !! i
    else heap ai !! i.
Proof.
  unfold mark_mine_list. revert ai.
  induction l as [|c l IH]; intros ai; simpl.
  - case_decide; [|done]. destruct (heap ai !! i) as [s|]; simpl; [|done].
    f_equal. apply (foldl_Sentence_mark_mine [] s).
  - rewrite IH. simpl.
    rewrite update_sentences_lookup by apply Sentence_mark_mine_idemp.
    case_decide; [|done]. destruct (heap ai !! i) as [s|]; simpl; [|done].
    f_equal. rewrite <- foldl_Sentence_mark_mine.
    apply (foldl_Sentence_mark_mine (c :: l) s).
Qed.

Lemma mark_safe_list_heap l ai (i : nat) :
  heap (mark_safe_list l ai) !! i
  = if decide (i ∈ knowledge ai)
    then resolve_safes (list_to_set l) <$> heap ai !! i
    else heap ai !! i.
Proof.
  unfold mark_safe_list. revert ai.
  induction l as [|c l IH]; intros ai; simpl.
  - case_decide; [|done]. destruct (heap ai !! i) as [s|]; simpl; [|done].
    f_equal. apply (foldl_Sentence_mark_safe [] s).
  - rewrite IH. simpl.
    rewrite update_sentences_lookup by apply Sentence_mark_safe_idemp.
    case_decide; [|done]. destruct (heap ai !! i) as [s|]; simpl; [|done].
    f_equal. rewrite <- foldl_Sentence_mark_safe.
    apply (foldl_Sentence_mark_safe (c :: l) s).
Qed.

End mark_list.

Lemma mark_mines_frame cs ai :
  MinesweeperAI.height (MinesweeperAI.mark_mines cs ai) = MinesweeperAI.height ai
  ∧ MinesweeperAI.width (MinesweeperAI.mark_mines cs ai) = MinesweeperAI.width ai
  ∧ MinesweeperAI.moves_made (MinesweeperAI.mark_mines cs ai)
    = MinesweeperAI.moves_made ai
  ∧ MinesweeperAI.mines (MinesweeperAI.mark_mines cs ai)
    = cs ∪ MinesweeperAI.mines ai
  ∧ MinesweeperAI.safes (MinesweeperAI.mark_mines cs ai) = MinesweeperAI.safes ai
  ∧ MinesweeperAI.knowledge (MinesweeperAI.mark_mines cs ai)
    = MinesweeperAI.knowledge ai.
Proof.
  pose proof (mark_mine_list_frame (elements cs) ai) as H.
  by rewrite list_to_set_elements_L in H.
Qed.

Lemma mark_safes_frame cs ai :
  MinesweeperAI.height (MinesweeperAI.mark_safes cs ai) = MinesweeperAI.height ai
  ∧ MinesweeperAI.width (MinesweeperAI.mark_safes cs ai) = MinesweeperAI.width ai
  ∧ MinesweeperAI.moves_made (MinesweeperAI.mark_safes cs ai)
    = MinesweeperAI.moves_made ai
  ∧ MinesweeperAI.mines (MinesweeperAI.mark_safes cs ai) = MinesweeperAI.mines ai
  ∧ MinesweeperAI.safes (MinesweeperAI.mark_safes cs ai)
    = cs ∪ MinesweeperAI.safes ai
  ∧ MinesweeperAI.knowledge (MinesweeperAI.mark_safes cs ai)
    = MinesweeperAI.knowledge ai.
Proof.
  pose proof (mark_safe_list_frame (elements cs) ai) as H.
  by rewrite list_to_set_elements_L in H.
Qed.

Lemma mark_mines_heap cs ai (i : nat) :
  MinesweeperAI.heap (MinesweeperAI.mark_mines cs ai) !! i
  = if decide (i ∈ MinesweeperAI.knowledge ai)
    then resolve_mines cs <$> MinesweeperAI.heap ai !! i
    else MinesweeperAI.heap ai !! i.
Proof.
  pose proof (mark_mine_list_heap (elements cs) ai i) as H.
  by rewrite list_to_set_elements_L in H.
Qed.

Lemma mark_safes_heap cs ai (i : nat) :
  MinesweeperAI.heap (MinesweeperAI.mark_safes cs ai) !! i
  = if decide (i ∈ MinesweeperAI.knowledge ai)
    then resolve_safes cs <$> MinesweeperAI.heap ai !! i
    else MinesweeperAI.heap ai !! i.
Proof.
  pose proof (mark_safe_list_heap (elements cs) ai i) as H.
  by rewrite list_to_set_elements_L in H.
Qed.

(** ** Properties that every primitive step keeps *)

Section preserved.
Import MinesweeperAI.

Variable P : t → Prop.
Hypothesis P_mark_mine : ∀ c ai, P ai → P (mark_mine c ai).
Hypothesis P_mark_safe : ∀ c ai, P ai → P (mark_safe c ai).
Hypothesis P_append : ∀ s ai, P ai → P (append s ai).
Hypothesis P_remove : ∀ k ai, P ai → P (set_knowledge k ai).

Lemma P_mark_mines cs ai : P ai → P (mark_mines cs ai).
Proof.
  unfold mark_mines. generalize (elements cs) as l. intros l. revert ai.
  induction l as [|c l IH]; intros ai HP; simpl; auto.
Qed.

Lemma P_mark_safes cs ai : P ai → P (mark_safes cs ai).
Proof.
  unfold mark_safes. generalize (elements cs) as l. intros l. revert ai.
  induction l as [|c l IH]; intros ai HP; simpl; auto.
Qed.

Lemma P_classify s ai : P ai → P (classify s ai).
Proof.
  intros HP. unfold classify. repeat case_decide;
    auto using P_mark_mines, P_mark_safes.
Qed.

Lemma P_trivial_step acc r acc' :
  P acc.1 → trivial_step acc r = Ok acc' → P acc'.1.
Proof.
  destruct acc as [ai ch]. simpl. intros HP Hstep.
  destruct (trivial_branch (deref ai r)).
  - destruct (list_remove _ _ _); [|done]. injection Hstep as <-.
    simpl. auto.
  - injection Hstep as <-. by apply P_mark_mines.
  - injection Hstep as <-. by apply P_mark_safes.
  - by injection Hstep as <-.
Qed.

Lemma P_trivial_pass ai acc' :
  P ai → trivial_pass ai = Ok acc' → P acc'.1.
Proof.
  intros HP. unfold trivial_pass.
  apply (foldM_invariant (λ acc, P acc.1)); [|done].
  intros ????. apply P_trivial_step.
Qed.

Lemma P_trivial_update fuel ai ai' :
  P ai → trivial_update fuel ai = Ok ai' → P ai'.
Proof.
  revert ai. induction fuel as [|fuel IH]; intros ai HP Hrun; [done|].
  simpl in Hrun. apply bind_Ok_inv in Hrun as ([ai1 ch] & Hpass & Hrest).
  apply P_trivial_pass in Hpass; [|done]. simpl in Hpass.
  destruct ch; [by eapply IH | by injection Hrest as <-].
Qed.

Lemma P_inference_step fuel r1 acc r2 acc' :
  P acc.1 → inference_step fuel r1 acc r2 = Ok acc' → P acc'.1.
Proof.
  destruct acc as [ai ch]. simpl. intros HP Hstep.
  repeat case_decide; try by injection Hstep as <-.
  apply bind_Ok_inv in Hstep as (ai1 & Htriv & Hret).
  injection Hret as <-. simpl.
  eapply P_trivial_update; [|done]. by apply P_classify.
Qed.

Lemma P_inference_pass fuel ai acc' :
  P ai → inference_pass fuel ai = Ok acc' → P acc'.1.
Proof.
  intros HP. unfold inference_pass.
  apply (foldM_invariant (λ acc, P acc.1)); [|done].
  intros acc r1 acc1 _.
  apply (foldM_invariant (λ acc, P acc.1)).
  intros ????. apply P_inference_step.
Qed.

Lemma P_inference_update fuel ai ai' :
  P ai → inference_update fuel ai = Ok ai' → P ai'.
Proof.
  revert ai. induction fuel as [|fuel IH]; intros ai HP Hrun; [done|].
  simpl in Hrun. apply bind_Ok_inv in Hrun as ([ai1 ch] & Hpass & Hrest).
  apply P_inference_pass in Hpass; [|done]. simpl in Hpass.
  destruct ch; [by eapply IH | by injection Hrest as <-].
Qed.

(** [add_knowledge] after its first statement [self.moves_made.add]. *)
Lemma P_add_knowledge fuel cell count ai ai' :
  P (add_move cell ai) → add_knowledge fuel cell count ai = Ok ai' → P ai'.
Proof.
  intros HP. unfold add_knowledge.
  destruct (foldl _ _ _) as [cells_to_store n].
  intros Hrun. apply bind_Ok_inv in Hrun as (ai1 & Htriv & Hinf).
  eapply P_inference_update; [|done].
  eapply P_trivial_update; [|done].
  apply P_classify. by apply P_mark_safe.
Qed.

End preserved.

(** ** Concrete runs *)

Lemma ai_corner_run :
  MinesweeperAI.add_knowledge 2 (0, 0) 1 (MinesweeperAI.init 8 8)
  = Ok ai_corner.
Proof. vm_compute. reflexivity. Qed.

Lemma ai_row_run :
  MinesweeperAI.add_knowledge 2 (0, 0) 0 (MinesweeperAI.init 1 2) = Ok ai_row.
Proof. vm_compute. reflexivity. Qed.

Lemma pop_first_ok : pop_ok pop_first.
Proof.
  intros s Hs. unfold pop_first.
  destruct (elements s) as [|c l] eqn:He.
  - apply elements_empty_inv in He. by apply leibniz_equiv in He.
  - simpl. apply elem_of_elements. rewrite He. by left.
Qed.

(** ** Monotonicity of the classification sets *)

Lemma grows_refl ai : grows ai ai.
Proof. by repeat split. Qed.

Lemma grows_trans ai1 ai2 ai3 : grows ai1 ai2 → grows ai2 ai3 → grows ai1 ai3.
Proof.
  intros (?&?&?&?&?) (?&?&?&?&?). repeat split; [congruence..| | |]; set_solver.
Qed.

Lemma grows_add_knowledge fuel c n ai ai' :
  MinesweeperAI.add_knowledge fuel c n ai = Ok ai' → grows ai ai'.
Proof.
  apply (P_add_knowledge (grows ai)).
  - intros c' a Ha. eapply grows_trans; [done|]. repeat split; simpl; set_solver.
  - intros c' a Ha. eapply grows_trans; [done|]. repeat split; simpl; set_solver.
  - intros s a Ha. eapply grows_trans; [done|]. by repeat split.
  - intros k a Ha. eapply grows_trans; [done|]. by repeat split.
  - repeat split; simpl; set_solver.
Qed.

(** C10: every call of a public operation (markMine, markSafe,
    addKnowledge, safeMove, randomMove) leaves movesMade, safes and mines
    supersets of what they were; no cell is ever taken out of them. *)
Theorem public_call_monotone pop sample ai ai' :
  call pop sample ai ai' →
  MinesweeperAI.moves_made ai ⊆ MinesweeperAI.moves_made ai'
  ∧ MinesweeperAI.safes ai ⊆ MinesweeperAI.safes ai'
  ∧ MinesweeperAI.mines ai ⊆ MinesweeperAI.mines ai'.
Proof.
  intros Hcall.
  assert (grows ai ai') as (_ & _ & ? & ? & ?); [|done].
  destruct Hcall as [c ai|c ai|fuel c n ai ai' Hrun|ai|ai].
  - repeat split; simpl; set_solver.
  - repeat split; simpl; set_solver.
  - by eapply grows_add_knowledge.
  - unfold MinesweeperAI.make_safe_move. case_decide; apply grows_refl.
  - unfold MinesweeperAI.make_random_move. case_decide; apply grows_refl.
Qed.

Lemma public_call_monotone_witness :
  ∃ ai',
    MinesweeperAI.add_knowledge 5 (1, 1) 0
      (MinesweeperAI.mark_mine (5, 5) ai_corner) = Ok ai'
    ∧ MinesweeperAI.moves_made (MinesweeperAI.mark_mine (5, 5) ai_corner)
        ⊆ MinesweeperAI.moves_made ai'
    ∧ MinesweeperAI.safes (MinesweeperAI.mark_mine (5, 5) ai_corner)
        ⊆ MinesweeperAI.safes ai'
    ∧ MinesweeperAI.mines (MinesweeperAI.mark_mine (5, 5) ai_corner)
        ⊆ MinesweeperAI.mines ai'.
Proof.
  eexists. split; [vm_compute; reflexivity|].
  apply (public_call_monotone pop_first (λ _, (0, 0))).
  apply (call_add_knowledge _ _ 5%nat (1, 1) 0). vm_compute. reflexivity.
Defined.

(** ** Idempotence of the two setters *)

(** C7: calling markSafe(c) twice in a row gives the same engine as calling
    it once, and so does markMine(c): the same sets and, object by object,
    the same sentences. *)
Theorem mark_twice_same c ai :
  MinesweeperAI.mark_safe c (MinesweeperAI.mark_safe c ai)
  = MinesweeperAI.mark_safe c ai
  ∧ MinesweeperAI.mark_mine c (MinesweeperAI.mark_mine c ai)
    = MinesweeperAI.mark_mine c ai.
Proof.
  split; unfold MinesweeperAI.mark_safe, MinesweeperAI.mark_mine; simpl;
    f_equal; try set_solver; apply list_eq; intros i.
  - rewrite !update_sentences_lookup by apply Sentence_mark_safe_idemp.
    case_decide; [|done]. destruct (MinesweeperAI.heap ai !! i); simpl; [|done].
    by rewrite Sentence_mark_safe_idemp.
  - rewrite !update_sentences_lookup by apply Sentence_mark_mine_idemp.
    case_decide; [|done]. destruct (MinesweeperAI.heap ai !! i); simpl; [|done].
    by rewrite Sentence_mark_mine_idemp.
Qed.

(** ** The safe-move query *)

(** C8: make_safe_move returns a member of safes - moves_made when that set
    is not empty and None when it is, and the engine it leaves is the engine
    it was given. *)
Theorem make_safe_move_spec pop ai :
  pop_ok pop →
  (MinesweeperAI.make_safe_move pop ai).2 = ai
  ∧ (MinesweeperAI.safes ai ∖ MinesweeperAI.moves_made ai ≠ ∅ →
     ∃ c, (MinesweeperAI.make_safe_move pop ai).1 = Some c
          ∧ c ∈ MinesweeperAI.safes ai ∖ MinesweeperAI.moves_made ai)
  ∧ (MinesweeperAI.safes ai ∖ MinesweeperAI.moves_made ai = ∅ →
     (MinesweeperAI.make_safe_move pop ai).1 = None).
Proof.
  intros Hpop. unfold MinesweeperAI.make_safe_move.
  destruct (decide (size _ = 0%nat)) as [Hsz|Hsz]; simpl.
  - apply size_empty_inv in Hsz. apply leibniz_equiv in Hsz.
    split; [done|]. split; [by intros []|done].
  - split; [done|]. split.
    + intros Hne. eexists. split; [done|]. by apply Hpop.
    + intros He. rewrite He, size_empty in Hsz. done.
Qed.

Lemma make_safe_move_spec_witness :
  (MinesweeperAI.make_safe_move pop_first ai_row).2 = ai_row
  ∧ ∃ c, (MinesweeperAI.make_safe_move pop_first ai_row).1 = Some c
         ∧ c ∈ MinesweeperAI.safes ai_row ∖ MinesweeperAI.moves_made ai_row.
Proof.
  pose proof (make_safe_move_spec pop_first ai_row pop_first_ok)
    as (Hframe & Hsome & _).
  split; [exact Hframe|]. apply Hsome.
  intros He. assert ((0, 1) ∈ (∅ : gset Cell)) as Hin; [|set_solver].
  rewrite <- He. simpl. set_solver.
Defined.

(** ** Negative counts *)

(** C9: a sentence with a negative count is never taken for all mines:
    known_mines returns the empty set, the scan of trivial_update does not
    take the all-mine branch on it and leaves the mines set as it was. *)
Theorem negative_count_not_all_mines s :
  Sentence.count s < 0 →
  Sentence.known_mines s = ∅
  ∧ MinesweeperAI.trivial_branch s ≠ MinesweeperAI.AllMines
  ∧ ∀ ai change r acc',
      MinesweeperAI.deref ai r = s →
      MinesweeperAI.trivial_step (ai, change) r = Ok acc' →
      MinesweeperAI.mines acc'.1 = MinesweeperAI.mines ai.
Proof.
  intros Hneg.
  assert (MinesweeperAI.trivial_branch s = MinesweeperAI.Discard
          ∨ MinesweeperAI.trivial_branch s = MinesweeperAI.Keep) as Hbr.
  { unfold MinesweeperAI.trivial_branch, Sentence.len.
    repeat case_decide; auto; lia. }
  split; [|split].
  - unfold Sentence.known_mines, Sentence.len. case_decide; [lia|done].
  - destruct Hbr as [-> | ->]; done.
  - intros ai change r acc' Hr Hstep. simpl in Hstep. rewrite Hr in Hstep.
    destruct Hbr as [Hb|Hb]; rewrite Hb in Hstep.
    + destruct (MinesweeperAI.list_remove _ _ _); [|done].
      by injection Hstep as <-.
    + by injection Hstep as <-.
Qed.

Lemma negative_count_not_all_mines_witness :
  Sentence.known_mines (Sentence.mk {[(0, 1)]} (-1)) = ∅
  ∧ MinesweeperAI.trivial_branch (Sentence.mk {[(0, 1)]} (-1))
    ≠ MinesweeperAI.AllMines
  ∧ ∀ ai change r acc',
      MinesweeperAI.deref ai r = Sentence.mk {[(0, 1)]} (-1) →
      MinesweeperAI.trivial_step (ai, change) r = Ok acc' →
      MinesweeperAI.mines acc'.1 = MinesweeperAI.mines ai.
Proof. apply (negative_count_not_all_mines (Sentence.mk {[(0, 1)]} (-1))). simpl. lia. Defined.

(** ** Removing from the knowledge list *)

Lemma list_remove_Some h x k k' :
  MinesweeperAI.list_remove h x k = Some k' →
  ∃ pre r post,
    k = pre ++ r :: post ∧ k' = pre ++ post
    ∧ default (Sentence.mk ∅ 0) (h !! r) = x
    ∧ ∀ r', r' ∈ pre → default (Sentence.mk ∅ 0) (h !! r') ≠ x.
Proof.
  revert k'. induction k as [|r0 k IH]; intros k' Hrm; simpl in Hrm; [done|].
  case_decide as Hx.
  - injection Hrm as <-. exists [], r0, k. split_and!; try done.
    intros r' Hr'. by apply elem_of_nil in Hr'.
  - destruct (MinesweeperAI.list_remove h x k) as [k1|]; [|done].
    injection Hrm as <-. destruct (IH k1 eq_refl) as (pre & r & post & -> & -> & Hr & Hpre).
    exists (r0 :: pre), r, post. split_and!; try done.
    intros r' [->|Hr']%elem_of_cons; auto.
Qed.

(** [list.remove] finds its argument when an equal sentence is listed. *)
Lemma list_remove_found h x k r :
  r ∈ k → default (Sentence.mk ∅ 0) (h !! r) = x →
  is_Some (MinesweeperAI.list_remove h x k).
Proof.
  intros Hr Hx. induction k as [|r0 k IH]; [by apply elem_of_nil in Hr|].
  simpl. case_decide; [done|].
  apply elem_of_cons in Hr as [->|Hr]; [done|].
  destruct (IH Hr) as [k' ->]. done.
Qed.

(** ** The store invariant *)

Lemma store_ok_deref ai r :
  store_ok ai →
  Sentence.cells (MinesweeperAI.deref ai r)
    ## MinesweeperAI.mines ai ∪ MinesweeperAI.safes ai.
Proof.
  intros Hok. unfold MinesweeperAI.deref.
  destruct (MinesweeperAI.heap ai !! r) as [s|] eqn:E; simpl.
  - by apply (Hok r s).
  - set_solver.
Qed.

Lemma store_ok_init h w : store_ok (MinesweeperAI.init h w).
Proof. intros r s Hs. done. Qed.

Lemma store_ok_mark_mines cs ai :
  store_ok ai → store_ok (MinesweeperAI.mark_mines cs ai).
Proof.
  intros Hok r s'. rewrite mark_mines_heap.
  destruct (mark_mines_frame cs ai) as (_ & _ & _ & -> & -> & ->).
  case_decide as Hr.
  - destruct (MinesweeperAI.heap ai !! r) as [s|] eqn:E; [|done].
    simpl. intros [= <-]. destruct (Hok r s E) as [Hd _].
    split; [simpl; set_solver | by left].
  - intros E. destruct (Hok r s' E) as [Hd [?|He]]; [done|].
    split; [rewrite He; set_solver | by right].
Qed.

Lemma store_ok_mark_safes cs ai :
  store_ok ai → store_ok (MinesweeperAI.mark_safes cs ai).
Proof.
  intros Hok r s'. rewrite mark_safes_heap.
  destruct (mark_safes_frame cs ai) as (_ & _ & _ & -> & -> & ->).
  case_decide as Hr.
  - destruct (MinesweeperAI.heap ai !! r) as [s|] eqn:E; [|done].
    simpl. intros [= <-]. destruct (Hok r s E) as [Hd _].
    split; [simpl; set_solver | by left].
  - intros E. destruct (Hok r s' E) as [Hd [?|He]]; [done|].
    split; [rewrite He; set_solver | by right].
Qed.

Lemma mark_mine_as_list c ai :
  MinesweeperAI.mark_mine c ai = mark_mine_list [c] ai.
Proof. done. Qed.

Lemma mark_safe_as_list c ai :
  MinesweeperAI.mark_safe c ai = mark_safe_list [c] ai.
Proof. done. Qed.

Lemma mark_mine_as_set c ai :
  MinesweeperAI.mark_mine c ai = MinesweeperAI.mark_mines {[c]} ai.
Proof. unfold MinesweeperAI.mark_mines. by rewrite elements_singleton. Qed.

Lemma mark_safe_as_set c ai :
  MinesweeperAI.mark_safe c ai = MinesweeperAI.mark_safes {[c]} ai.
Proof. unfold MinesweeperAI.mark_safes. by rewrite elements_singleton. Qed.

Lemma store_ok_mark_mine c ai :
  store_ok ai → store_ok (MinesweeperAI.mark_mine c ai).
Proof.
  intros Hok r s'. rewrite mark_mine_as_list, mark_mine_list_heap.
  destruct (mark_mine_list_frame [c] ai) as (_ & _ & _ & -> & -> & ->).
  case_decide as Hr.
  - destruct (MinesweeperAI.heap ai !! r) as [s|] eqn:E; [|done].
    simpl. intros [= <-]. destruct (Hok r s E) as [Hd _].
    split; [simpl; set_solver | by left].
  - intros E. destruct (Hok r s' E) as [Hd [?|He]]; [done|].
    split; [rewrite He; set_solver | by right].
Qed.

Lemma store_ok_mark_safe c ai :
  store_ok ai → store_ok (MinesweeperAI.mark_safe c ai).
Proof.
  intros Hok r s'. rewrite mark_safe_as_list, mark_safe_list_heap.
  destruct (mark_safe_list_frame [c] ai) as (_ & _ & _ & -> & -> & ->).
  case_decide as Hr.
  - destruct (MinesweeperAI.heap ai !! r) as [s|] eqn:E; [|done].
    simpl. intros [= <-]. destruct (Hok r s E) as [Hd _].
    split; [simpl; set_solver | by left].
  - intros E. destruct (Hok r s' E) as [Hd [?|He]]; [done|].
    split; [rewrite He; set_solver | by right].
Qed.

Lemma store_ok_append s ai :
  store_ok ai →
  Sentence.cells s ## MinesweeperAI.mines ai ∪ MinesweeperAI.safes ai →
  store_ok (MinesweeperAI.append s ai).
Proof.
  intros Hok Hs r s'. simpl. intros Hr.
  apply lookup_app_Some in Hr as [Hr|[Hlen Hr]].
  - destruct (Hok r s' Hr) as [Hd Hk]. split; [done|].
    destruct Hk as [Hk|He]; [left|by right]. set_solver.
  - apply list_lookup_singleton_Some in Hr as [Hr <-].
    split; [done|]. left. assert (r = length (MinesweeperAI.heap ai)) as -> by lia.
    set_solver.
Qed.

Lemma store_ok_remove ai x k :
  store_ok ai → Sentence.cells x = ∅ →
  MinesweeperAI.list_remove (MinesweeperAI.heap ai) x (MinesweeperAI.knowledge ai)
  = Some k →
  store_ok (MinesweeperAI.set_knowledge k ai).
Proof.
  intros Hok Hx Hrm r s Hs. simpl in *.
  destruct (Hok r s Hs) as [Hd Hk]. split; [done|].
  destruct Hk as [Hk|He]; [|by right].
  apply list_remove_Some in Hrm as (pre & r0 & post & Hkn & -> & Hr0 & _).
  rewrite Hkn in Hk. destruct (decide (r = r0)) as [->|Hne].
  - right. rewrite Hs in Hr0. simpl in Hr0. by subst.
  - left. set_solver.
Qed.

(** The sentence that [add_knowledge] builds has no classified cell and no
    cell already played. *)
Lemma scan_neighbours_clean ai l cs n :
  cs ## MinesweeperAI.moves_made ai ∪
        (MinesweeperAI.mines ai ∪ MinesweeperAI.safes ai) →
  (foldl (MinesweeperAI.scan_neighbour ai) (cs, n) l).1
    ## MinesweeperAI.moves_made ai ∪
         (MinesweeperAI.mines ai ∪ MinesweeperAI.safes ai).
Proof.
  revert cs n. induction l as [|c l IH]; intros cs n Hcs; [done|].
  cbn [foldl].
  assert ((MinesweeperAI.scan_neighbour ai (cs, n) c).1
            ## MinesweeperAI.moves_made ai ∪
                 (MinesweeperAI.mines ai ∪ MinesweeperAI.safes ai)) as Hc.
  { unfold MinesweeperAI.scan_neighbour. repeat case_decide; simpl; set_solver. }
  destruct (MinesweeperAI.scan_neighbour ai (cs, n) c) as [cs' n'].
  by apply IH.
Qed.

Lemma trivial_branch_Discard s :
  MinesweeperAI.trivial_branch s = MinesweeperAI.Discard ↔ Sentence.cells s = ∅.
Proof.
  unfold MinesweeperAI.trivial_branch, Sentence.len. split.
  - repeat case_decide; try done. intros _.
    apply leibniz_equiv. apply size_empty_inv. lia.
  - intros ->. rewrite size_empty. by rewrite decide_True.
Qed.

(** ** Invariants that rest on the store invariant *)

Section clean_invariant.
Import MinesweeperAI.

Variable I : t → Prop.
Hypothesis I_store : ∀ ai, I ai → store_ok ai.
Hypothesis I_mark_mines : ∀ cs ai,
  I ai → cs ## mines ai ∪ safes ai → I (mark_mines cs ai).
Hypothesis I_mark_safes : ∀ cs ai,
  I ai → cs ## mines ai ∪ safes ai → I (mark_safes cs ai).
Hypothesis I_append : ∀ s ai,
  I ai → Sentence.cells s ## mines ai ∪ safes ai → I (append s ai).
Hypothesis I_remove : ∀ ai x k,
  I ai → Sentence.cells x = ∅ →
  list_remove (heap ai) x (knowledge ai) = Some k → I (set_knowledge k ai).

Lemma I_classify s ai :
  I ai → Sentence.cells s ## mines ai ∪ safes ai → I (classify s ai).
Proof. intros HI Hs. unfold classify. repeat case_decide; auto. Qed.

Lemma I_trivial_step acc r acc' :
  I acc.1 → trivial_step acc r = Ok acc' → I acc'.1.
Proof.
  destruct acc as [ai ch]. simpl. intros HI Hstep.
  pose proof (store_ok_deref ai r (I_store _ HI)) as Hclean.
  destruct (trivial_branch (deref ai r)) eqn:Hbr.
  - destruct (list_remove _ _ _) as [k|] eqn:Hrm; [|done].
    injection Hstep as <-. simpl.
    eapply I_remove; [done| |done]. by apply trivial_branch_Discard.
  - injection Hstep as <-. by apply I_mark_mines.
  - injection Hstep as <-. by apply I_mark_safes.
  - by injection Hstep as <-.
Qed.

Lemma I_trivial_pass ai acc' : I ai → trivial_pass ai = Ok acc' → I acc'.1.
Proof.
  intros HI. unfold trivial_pass.
  apply (foldM_invariant (λ acc, I acc.1)); [|done].
  intros ????. apply I_trivial_step.
Qed.

Lemma I_trivial_update fuel ai ai' :
  I ai → trivial_update fuel ai = Ok ai' → I ai'.
Proof.
  revert ai. induction fuel as [|fuel IH]; intros ai HI Hrun; [done|].
  simpl in Hrun. apply bind_Ok_inv in Hrun as ([ai1 ch] & Hpass & Hrest).
  apply I_trivial_pass in Hpass; [|done]. simpl in Hpass.
  destruct ch; [by eapply IH | by injection Hrest as <-].
Qed.

Lemma I_inference_step fuel r1 acc r2 acc' :
  I acc.1 → inference_step fuel r1 acc r2 = Ok acc' → I acc'.1.
Proof.
  destruct acc as [ai ch]. simpl. intros HI Hstep.
  pose proof (store_ok_deref ai r2 (I_store _ HI)) as Hclean.
  repeat case_decide; try by injection Hstep as <-.
  apply bind_Ok_inv in Hstep as (ai1 & Htriv & Hret).
  injection Hret as <-. simpl.
  eapply I_trivial_update; [|done]. apply I_classify; [done|].
  simpl. set_solver.
Qed.

Lemma I_inference_pass fuel ai acc' :
  I ai → inference_pass fuel ai = Ok acc' → I acc'.1.
Proof.
  intros HI. unfold inference_pass.
  apply (foldM_invariant (λ acc, I acc.1)); [|done].
  intros acc r1 acc1 _.
  apply (foldM_invariant (λ acc, I acc.1)).
  intros ????. apply I_inference_step.
Qed.

Lemma I_inference_update fuel ai ai' :
  I ai → inference_update fuel ai = Ok ai' → I ai'.
Proof.
  revert ai. induction fuel as [|fuel IH]; intros ai HI Hrun; [done|].
  simpl in Hrun. apply bind_Ok_inv in Hrun as ([ai1 ch] & Hpass & Hrest).
  apply I_inference_pass in Hpass; [|done]. simpl in Hpass.
  destruct ch; [by eapply IH | by injection Hrest as <-].
Qed.

(** [add_knowledge] after its statements 1) and 2). *)
Lemma I_add_knowledge fuel cell count ai ai' :
  I (mark_safe cell (add_move cell ai)) →
  add_knowledge fuel cell count ai = Ok ai' → I ai'.
Proof.
  intros HI. unfold add_knowledge.
  pose proof (scan_neighbours_clean (mark_safe cell (add_move cell ai))
                (neighbourhood cell) ∅ count) as Hscan.
  destruct (foldl _ _ _) as [cells_to_store n].
  intros Hrun. apply bind_Ok_inv in Hrun as (ai1 & Htriv & Hinf).
  eapply I_inference_update; [|done].
  eapply I_trivial_update; [|done].
  apply I_classify; [done|]. simpl in *. set_solver.
Qed.

End clean_invariant.

Lemma store_ok_add_knowledge fuel cell count ai ai' :
  store_ok ai →
  MinesweeperAI.add_knowledge fuel cell count ai = Ok ai' → store_ok ai'.
Proof.
  intros Hok. apply (I_add_knowledge store_ok); auto using
    store_ok_mark_mines, store_ok_mark_safes, store_ok_append.
  - intros. by eapply store_ok_remove.
  - apply store_ok_mark_safe. exact Hok.
Qed.

Lemma reachable_store_ok pop sample ai : reachable pop sample ai → store_ok ai.
Proof.
  induction 1 as [h w|ai ai' _ IH Hcall]; [apply store_ok_init|].
  destruct Hcall as [c ai|c ai|fuel c n ai ai' Hrun|ai|ai].
  - by apply store_ok_mark_mine.
  - by apply store_ok_mark_safe.
  - by eapply store_ok_add_knowledge.
  - unfold MinesweeperAI.make_safe_move. by case_decide.
  - unfold MinesweeperAI.make_random_move. by case_decide.
Qed.

(** C2: in every engine obtained from a new one by calls of the public
    operations (markMine, markSafe, addKnowledge when it returns, the move
    queries), no sentence of the knowledge base contains a cell that is in
    mines or in safes. *)
Theorem knowledge_base_clean pop sample ai :
  reachable pop sample ai →
  ∀ s c, s ∈ MinesweeperAI.kb ai → c ∈ Sentence.cells s →
         (c ∉ MinesweeperAI.mines ai) ∧ (c ∉ MinesweeperAI.safes ai).
Proof.
  intros Hreach s c Hs Hc. apply reachable_store_ok in Hreach.
  unfold MinesweeperAI.kb in Hs. apply list_elem_of_fmap in Hs as (r & -> & _).
  pose proof (store_ok_deref ai r Hreach). set_solver.
Qed.

Lemma knowledge_base_clean_witness :
  ((1, 0) ∉ MinesweeperAI.mines (MinesweeperAI.mark_mine (0, 1) ai_corner))
  ∧ ((1, 0) ∉ MinesweeperAI.safes (MinesweeperAI.mark_mine (0, 1) ai_corner)).
Proof.
  apply (knowledge_base_clean pop_first (λ _, (0, 0))
           (MinesweeperAI.mark_mine (0, 1) ai_corner)
           (reachable_call _ _ _ _
              (reachable_call _ _ _ _ (reachable_init _ _ 8 8)
                 (call_add_knowledge _ _ 2%nat (0, 0) 1 _ _ ai_corner_run))
              (call_mark_mine _ _ (0, 1) ai_corner))
           (Sentence.mk {[(1, 0); (1, 1)]} 0) (1, 0)).
  - vm_compute. left.
  - vm_compute. reflexivity.
Defined.

(** ** Disjointness of mines and safes *)

Lemma consistent_mark_mines cs ai :
  consistent ai →
  cs ## MinesweeperAI.mines ai ∪ MinesweeperAI.safes ai →
  consistent (MinesweeperAI.mark_mines cs ai).
Proof.
  intros [Hok Hd] Hcs. split; [by apply store_ok_mark_mines|].
  destruct (mark_mines_frame cs ai) as (_ & _ & _ & -> & -> & _). set_solver.
Qed.

Lemma consistent_mark_safes cs ai :
  consistent ai →
  cs ## MinesweeperAI.mines ai ∪ MinesweeperAI.safes ai →
  consistent (MinesweeperAI.mark_safes cs ai).
Proof.
  intros [Hok Hd] Hcs. split; [by apply store_ok_mark_safes|].
  destruct (mark_safes_frame cs ai) as (_ & _ & _ & -> & -> & _). set_solver.
Qed.

Lemma consistent_add_knowledge fuel cell count ai ai' :
  consistent ai → cell ∉ MinesweeperAI.mines ai →
  MinesweeperAI.add_knowledge fuel cell count ai = Ok ai' → consistent ai'.
Proof.
  intros [Hok Hd] Hcell. apply (I_add_knowledge consistent).
  - by intros a [? _].
  - apply consistent_mark_mines.
  - apply consistent_mark_safes.
  - intros s a [? ?] Hs. split; [by apply store_ok_append|done].
  - intros a x k [? ?] Hx Hrm. split; [by eapply store_ok_remove|done].
  - split; [by apply store_ok_mark_safe|]. simpl. set_solver.
Qed.

Lemma consistent_remove ai x k :
  consistent ai → Sentence.cells x = ∅ →
  MinesweeperAI.list_remove (MinesweeperAI.heap ai) x (MinesweeperAI.knowledge ai)
  = Some k →
  consistent (MinesweeperAI.set_knowledge k ai).
Proof. intros [? ?] Hx Hrm. split; [by eapply store_ok_remove|done]. Qed.

Lemma consistent_append s ai :
  consistent ai →
  Sentence.cells s ## MinesweeperAI.mines ai ∪ MinesweeperAI.safes ai →
  consistent (MinesweeperAI.append s ai).
Proof. intros [? ?] Hs. split; [by apply store_ok_append|done]. Qed.

Lemma consistent_trivial_update fuel ai ai' :
  consistent ai → MinesweeperAI.trivial_update fuel ai = Ok ai' →
  consistent ai'.
Proof.
  apply (I_trivial_update consistent).
  - by intros a [? _].
  - apply consistent_mark_mines.
  - apply consistent_mark_safes.
  - apply consistent_remove.
Qed.

Lemma consistent_inference_update fuel ai ai' :
  consistent ai → MinesweeperAI.inference_update fuel ai = Ok ai' →
  consistent ai'.
Proof.
  apply (I_inference_update consistent).
  - by intros a [? _].
  - apply consistent_mark_mines.
  - apply consistent_mark_safes.
  - apply consistent_append.
  - apply consistent_remove.
Qed.

Lemma guarded_reachable_consistent pop sample ai :
  guarded_reachable pop sample ai → consistent ai.
Proof.
  induction 1 as [h w|ai ai' _ IH Hcall].
  { split; [apply store_ok_init|]. simpl. set_solver. }
  destruct Hcall as [c ai Hc|c ai Hc|fuel c n ai ai' Hc Hrun
                    |fuel ai ai' Hrun|fuel ai ai' Hrun|ai|ai].
  - destruct IH as [Hok Hd]. split; [by apply store_ok_mark_mine|].
    simpl. set_solver.
  - destruct IH as [Hok Hd]. split; [by apply store_ok_mark_safe|].
    simpl. set_solver.
  - by eapply consistent_add_knowledge.
  - by eapply consistent_trivial_update.
  - by eapply consistent_inference_update.
  - unfold MinesweeperAI.make_safe_move. by case_decide.
  - unfold MinesweeperAI.make_random_move. by case_decide.
Qed.

(** C3 (as the code behaves): mines and safes are disjoint after every
    sequence of operations on a new engine (mark_mine, mark_safe,
    add_knowledge, the two loops trivial_update and inference_update, the
    two move queries) in which mark_mine is only called on cells that are
    not in safes, and mark_safe and add_knowledge only on cells that are
    not in mines; the two loops and the two queries keep the sets disjoint
    whenever they return. *)
Theorem mines_safes_disjoint pop sample ai :
  guarded_reachable pop sample ai →
  MinesweeperAI.mines ai ∩ MinesweeperAI.safes ai = ∅.
Proof.
  intros Hreach. apply guarded_reachable_consistent in Hreach as [_ Hd].
  set_solver.
Qed.

Lemma ai_resolved_trivial_update :
  MinesweeperAI.trivial_update 5 (MinesweeperAI.mark_mine (0, 1) ai_corner)
  = Ok ai_resolved.
Proof. vm_compute. reflexivity. Qed.

Lemma ai_resolved_inference_update :
  MinesweeperAI.inference_update 5 ai_resolved = Ok ai_resolved.
Proof. vm_compute. reflexivity. Qed.

Lemma mines_safes_disjoint_witness :
  (0, 1) ∈ MinesweeperAI.mines ai_resolved
  ∧ (1, 0) ∈ MinesweeperAI.safes ai_resolved
  ∧ MinesweeperAI.mines ai_resolved ∩ MinesweeperAI.safes ai_resolved = ∅.
Proof.
  split; [vm_compute; set_solver|]. split; [vm_compute; set_solver|].
  assert ((0, 0) ∉ MinesweeperAI.mines (MinesweeperAI.init 8 8)) as H0
    by (vm_compute; set_solver).
  assert ((0, 1) ∉ MinesweeperAI.safes ai_corner) as H1
    by (vm_compute; set_solver).
  apply (mines_safes_disjoint pop_first (λ _, (0, 0)) ai_resolved
           (guarded_step _ _ _ _
              (guarded_step _ _ _ _
                 (guarded_step _ _ _ _
                    (guarded_step _ _ _ _
                       (guarded_init _ _ 8 8)
                       (guarded_add_knowledge _ _ 2%nat (0, 0) 1
                          (MinesweeperAI.init 8 8) ai_corner H0 ai_corner_run))
                    (guarded_mark_mine _ _ (0, 1) ai_corner H1))
                 (guarded_trivial_update _ _ 5%nat
                    (MinesweeperAI.mark_mine (0, 1) ai_corner) ai_resolved
                    ai_resolved_trivial_update))
              (guarded_inference_update _ _ 5%nat ai_resolved ai_resolved
                 ai_resolved_inference_update))).
Defined.

(** C3 (as stated) fails: mark_mine and then mark_safe on one cell of a new
    engine leave that cell in both sets. *)
Lemma mines_safes_overlap :
  reachable pop_first (λ _, (0, 0))
    (MinesweeperAI.mark_safe (0, 0)
       (MinesweeperAI.mark_mine (0, 0) (MinesweeperAI.init 8 8)))
  ∧ MinesweeperAI.mines
      (MinesweeperAI.mark_safe (0, 0)
         (MinesweeperAI.mark_mine (0, 0) (MinesweeperAI.init 8 8)))
    ∩ MinesweeperAI.safes
        (MinesweeperAI.mark_safe (0, 0)
           (MinesweeperAI.mark_mine (0, 0) (MinesweeperAI.init 8 8)))
    ≠ ∅.
Proof.
  split.
  - eapply reachable_call; [|apply call_mark_safe].
    eapply reachable_call; [apply reachable_init|apply call_mark_mine].
  - simpl. set_solver.
Qed.

(** ** Termination of trivial resolution *)

Lemma sum_cells_le (h h' : list Sentence.t) :
  length h' = length h →
  (∀ i s s', h !! i = Some s → h' !! i = Some s' →
     (size (Sentence.cells s') ≤ size (Sentence.cells s))%nat) →
  (sum_list_with (λ s, size (Sentence.cells s)) h'
   ≤ sum_list_with (λ s, size (Sentence.cells s)) h)%nat.
Proof.
  revert h'. induction h as [|a h IH]; intros [|a' h'] Hlen Hle;
    simpl in *; try done.
  pose proof (Hle 0%nat a a' eq_refl eq_refl).
  assert (sum_list_with (λ s, size (Sentence.cells s)) h'
          ≤ sum_list_with (λ s, size (Sentence.cells s)) h)%nat; [|lia].
  apply IH; [lia|]. intros i s s'. apply (Hle (S i)).
Qed.

Lemma sum_cells_lt (h h' : list Sentence.t) (i : nat) s s' :
  length h' = length h →
  (∀ i s s', h !! i = Some s → h' !! i = Some s' →
     (size (Sentence.cells s') ≤ size (Sentence.cells s))%nat) →
  h !! i = Some s → h' !! i = Some s' →
  (size (Sentence.cells s') < size (Sentence.cells s))%nat →
  (sum_list_with (λ s, size (Sentence.cells s)) h'
   < sum_list_with (λ s, size (Sentence.cells s)) h)%nat.
Proof.
  revert h' i. induction h as [|a h IH]; intros [|a' h'] i Hlen Hle Hi Hi' Hlt;
    simpl in *; try done.
  destruct i as [|i]; simpl in *.
  - injection Hi as ->. injection Hi' as ->.
    assert (sum_list_with (λ s, size (Sentence.cells s)) h'
            ≤ sum_list_with (λ s, size (Sentence.cells s)) h)%nat; [|lia].
    apply sum_cells_le; [lia|]. intros j. apply (Hle (S j)).
  - pose proof (Hle 0%nat a a' eq_refl eq_refl).
    assert (sum_list_with (λ s, size (Sentence.cells s)) h'
            < sum_list_with (λ s, size (Sentence.cells s)) h)%nat; [|lia].
    apply (IH h' i); try done; [lia|]. intros j. apply (Hle (S j)).
Qed.

Lemma mark_mine_list_length l ai :
  length (MinesweeperAI.heap (mark_mine_list l ai))
  = length (MinesweeperAI.heap ai).
Proof.
  unfold mark_mine_list. revert ai. induction l as [|c l IH]; intros ai; [done|].
  simpl. rewrite IH. simpl. apply update_sentences_length.
Qed.

Lemma mark_safe_list_length l ai :
  length (MinesweeperAI.heap (mark_safe_list l ai))
  = length (MinesweeperAI.heap ai).
Proof.
  unfold mark_safe_list. revert ai. induction l as [|c l IH]; intros ai; [done|].
  simpl. rewrite IH. simpl. apply update_sentences_length.
Qed.

(** A non-empty sentence read through a reference is a stored object. *)
Lemma deref_nonempty ai r :
  Sentence.cells (MinesweeperAI.deref ai r) ≠ ∅ →
  MinesweeperAI.heap ai !! r = Some (MinesweeperAI.deref ai r).
Proof.
  unfold MinesweeperAI.deref.
  destruct (MinesweeperAI.heap ai !! r); simpl; [done|]. by intros [].
Qed.

Lemma weight_mark_mines_le cs ai :
  (weight (MinesweeperAI.mark_mines cs ai) ≤ weight ai)%nat.
Proof.
  apply sum_cells_le; [apply mark_mine_list_length|].
  intros i s s' Hs. rewrite mark_mines_heap, Hs.
  case_decide; intros [= <-]; [|done]. apply subseteq_size. simpl. set_solver.
Qed.

Lemma weight_mark_safes_le cs ai :
  (weight (MinesweeperAI.mark_safes cs ai) ≤ weight ai)%nat.
Proof.
  apply sum_cells_le; [apply mark_safe_list_length|].
  intros i s s' Hs. rewrite mark_safes_heap, Hs.
  case_decide; intros [= <-]; [|done]. apply subseteq_size. simpl. set_solver.
Qed.

(** Marking all the cells of a listed, non-empty sentence empties it. *)
Lemma weight_mark_mines_lt ai r :
  r ∈ MinesweeperAI.knowledge ai →
  Sentence.cells (MinesweeperAI.deref ai r) ≠ ∅ →
  (weight (MinesweeperAI.mark_mines
             (Sentence.cells (MinesweeperAI.deref ai r)) ai) < weight ai)%nat.
Proof.
  intros Hr Hne. pose proof (deref_nonempty ai r Hne) as Hs.
  set (s := MinesweeperAI.deref ai r) in *.
  apply (sum_cells_lt _ _ r s (resolve_mines (Sentence.cells s) s));
    [apply mark_mine_list_length| | done | |].
  - intros i s0 s' Hs0. rewrite mark_mines_heap, Hs0.
    case_decide; intros [= <-]; [|done]. apply subseteq_size. simpl. set_solver.
  - rewrite mark_mines_heap, Hs. by rewrite decide_True.
  - simpl. replace (Sentence.cells s ∖ Sentence.cells s) with (∅ : gset Cell)
      by set_solver.
    rewrite size_empty. apply Nat.neq_0_lt_0. intros Hz.
    apply size_empty_inv in Hz. by apply leibniz_equiv in Hz.
Qed.

Lemma weight_mark_safes_lt ai r :
  r ∈ MinesweeperAI.knowledge ai →
  Sentence.cells (MinesweeperAI.deref ai r) ≠ ∅ →
  (weight (MinesweeperAI.mark_safes
             (Sentence.cells (MinesweeperAI.deref ai r)) ai) < weight ai)%nat.
Proof.
  intros Hr Hne. pose proof (deref_nonempty ai r Hne) as Hs.
  set (s := MinesweeperAI.deref ai r) in *.
  apply (sum_cells_lt _ _ r s (resolve_safes (Sentence.cells s) s));
    [apply mark_safe_list_length| | done | |].
  - intros i s0 s' Hs0. rewrite mark_safes_heap, Hs0.
    case_decide; intros [= <-]; [|done]. apply subseteq_size. simpl. set_solver.
  - rewrite mark_safes_heap, Hs. by rewrite decide_True.
  - simpl. replace (Sentence.cells s ∖ Sentence.cells s) with (∅ : gset Cell)
      by set_solver.
    rewrite size_empty. apply Nat.neq_0_lt_0. intros Hz.
    apply size_empty_inv in Hz. by apply leibniz_equiv in Hz.
Qed.

(** The entry that [list.remove] drops sits at or before the sentence
    being scanned, so the part of the snapshot still to scan stays listed. *)
Lemma list_remove_suffix h x pre r todo :
  default (Sentence.mk ∅ 0) (h !! r) = x →
  ∃ pre', MinesweeperAI.list_remove h x (pre ++ r :: todo) = Some (pre' ++ todo).
Proof.
  intros Hr. induction pre as [|a pre [pre' IH]]; simpl.
  - exists []. by rewrite decide_True.
  - case_decide.
    + exists (pre ++ [r]). by rewrite <- app_assoc.
    + exists (a :: pre'). by rewrite IH.
Qed.

Lemma trivial_step_total ai ch r todo :
  (r :: todo) `suffix_of` MinesweeperAI.knowledge ai →
  ∃ ai' ch',
    MinesweeperAI.trivial_step (ai, ch) r = Ok (ai', ch')
    ∧ todo `suffix_of` MinesweeperAI.knowledge ai'
    ∧ (weight ai' ≤ weight ai)%nat
    ∧ (ch' = ch ∨ (ch' = true ∧ (weight ai' < weight ai)%nat)).
Proof.
  intros [pre Hk]. simpl.
  assert (r ∈ MinesweeperAI.knowledge ai) as Hr by (rewrite Hk; set_solver).
  assert (todo `suffix_of` MinesweeperAI.knowledge ai) as Hsuf.
  { exists (pre ++ [r]). by rewrite <- app_assoc. }
  destruct (MinesweeperAI.trivial_branch (MinesweeperAI.deref ai r)) eqn:Hbr.
  - destruct (list_remove_suffix (MinesweeperAI.heap ai)
                (MinesweeperAI.deref ai r) pre r todo eq_refl) as [pre' Hrm].
    rewrite Hk, Hrm. eexists _, _. split; [done|]. simpl.
    split; [by exists pre'|]. split; [done|by left].
  - assert (Sentence.cells (MinesweeperAI.deref ai r) ≠ ∅) as Hne.
    { intros He. apply trivial_branch_Discard in He. congruence. }
    eexists _, _. split; [done|].
    destruct (mark_mines_frame (Sentence.cells (MinesweeperAI.deref ai r)) ai)
      as (_ & _ & _ & _ & _ & ->).
    pose proof (weight_mark_mines_lt ai r Hr Hne).
    split; [done|]. split; [lia|by right].
  - assert (Sentence.cells (MinesweeperAI.deref ai r) ≠ ∅) as Hne.
    { intros He. apply trivial_branch_Discard in He. congruence. }
    eexists _, _. split; [done|].
    destruct (mark_safes_frame (Sentence.cells (MinesweeperAI.deref ai r)) ai)
      as (_ & _ & _ & _ & _ & ->).
    pose proof (weight_mark_safes_lt ai r Hr Hne).
    split; [done|]. split; [lia|by right].
  - eexists _, _. split; [done|]. split; [done|]. split; [done|by left].
Qed.

Lemma trivial_scan_total todo ai ch :
  todo `suffix_of` MinesweeperAI.knowledge ai →
  ∃ ai' ch',
    foldM MinesweeperAI.trivial_step (ai, ch) todo = Ok (ai', ch')
    ∧ (weight ai' ≤ weight ai)%nat
    ∧ (ch' = ch ∨ (ch' = true ∧ (weight ai' < weight ai)%nat)).
Proof.
  revert ai ch. induction todo as [|r todo IH]; intros ai ch Hsuf.
  - exists ai, ch. split; [done|]. split; [done|by left].
  - destruct (trivial_step_total ai ch r todo Hsuf)
      as (ai1 & ch1 & Hstep & Hsuf1 & Hle1 & Hch1).
    destruct (IH ai1 ch1 Hsuf1) as (ai2 & ch2 & Hrun & Hle2 & Hch2).
    exists ai2, ch2. cbn [foldM]. rewrite Hstep. simpl. split; [done|].
    split; [lia|]. destruct Hch1 as [->|[-> ?]], Hch2 as [->|[-> ?]];
      (by left) || (right; split; [done|lia]).
Qed.

Lemma trivial_pass_total ai :
  ∃ ai' ch',
    MinesweeperAI.trivial_pass ai = Ok (ai', ch')
    ∧ (weight ai' ≤ weight ai)%nat
    ∧ (ch' = true → (weight ai' < weight ai)%nat).
Proof.
  destruct (trivial_scan_total (MinesweeperAI.knowledge ai) ai false)
    as (ai' & ch' & Hrun & Hle & Hch); [done|].
  exists ai', ch'. split; [done|]. split; [done|].
  intros ->. by destruct Hch as [|[_ ?]].
Qed.

Lemma trivial_update_total fuel ai :
  (weight ai < fuel)%nat →
  ∃ ai', MinesweeperAI.trivial_update fuel ai = Ok ai'
         ∧ (weight ai' ≤ weight ai)%nat.
Proof.
  revert ai. induction fuel as [|fuel IH]; intros ai Hw; [lia|].
  destruct (trivial_pass_total ai) as (ai1 & ch & Hpass & Hle & Hlt).
  simpl. rewrite Hpass. simpl. destruct ch.
  - destruct (IH ai1) as (ai' & Hrun & Hle'); [specialize (Hlt eq_refl); lia|].
    exists ai'. split; [done|lia].
  - by exists ai1.
Qed.

(** More fuel never changes a result. *)
Lemma trivial_update_fuel_mono fuel fuel' ai ai' :
  MinesweeperAI.trivial_update fuel ai = Ok ai' → (fuel ≤ fuel')%nat →
  MinesweeperAI.trivial_update fuel' ai = Ok ai'.
Proof.
  revert fuel' ai. induction fuel as [|fuel IH]; intros [|fuel'] ai Hrun Hle;
    try done; [lia|].
  simpl in *. destruct (MinesweeperAI.trivial_pass ai) as [[ai1 ch]| |];
    simpl in *; try done.
  destruct ch; [|done]. apply IH; [done|lia].
Qed.

(** ** What is left when trivial resolution exits *)

Lemma trivial_scan_flag todo ai acc' :
  foldM MinesweeperAI.trivial_step (ai, true) todo = Ok acc' → acc'.2 = true.
Proof.
  revert ai. induction todo as [|r todo IH]; intros ai Hrun.
  - by injection Hrun as <-.
  - cbn [foldM] in Hrun. apply bind_Ok_inv in Hrun as ([ai1 ch1] & Hstep & Hrun).
    simpl in Hstep.
    destruct (MinesweeperAI.trivial_branch _);
      [destruct (MinesweeperAI.list_remove _ _ _); [|done]|..];
      injection Hstep as <- <-; by eapply IH.
Qed.

Lemma list_remove_first h x pre r todo :
  (∀ r', r' ∈ pre → default (Sentence.mk ∅ 0) (h !! r') ≠ x) →
  default (Sentence.mk ∅ 0) (h !! r) = x →
  MinesweeperAI.list_remove h x (pre ++ r :: todo) = Some (pre ++ todo).
Proof.
  intros Hpre Hr. induction pre as [|a pre IH]; simpl.
  - by rewrite decide_True.
  - rewrite decide_False by (apply Hpre; set_solver).
    rewrite IH; [done|]. intros r' Hr'. apply Hpre. set_solver.
Qed.

(** A scan that ends with [change = False] has only dropped the empty
    sentences: the store is as it was and what is listed is kept. *)
Lemma trivial_scan_quiet todo pre ai ai' :
  MinesweeperAI.knowledge ai = pre ++ todo →
  (∀ r, r ∈ pre →
     MinesweeperAI.trivial_branch (MinesweeperAI.deref ai r)
     = MinesweeperAI.Keep) →
  foldM MinesweeperAI.trivial_step (ai, false) todo = Ok (ai', false) →
  MinesweeperAI.heap ai' = MinesweeperAI.heap ai
  ∧ ∀ r, r ∈ MinesweeperAI.knowledge ai' →
      MinesweeperAI.trivial_branch (MinesweeperAI.deref ai' r)
      = MinesweeperAI.Keep.
Proof.
  revert pre ai. induction todo as [|r todo IH]; intros pre ai Hk Hpre Hrun.
  - injection Hrun as <-. rewrite Hk, app_nil_r. done.
  - cbn [foldM] in Hrun. apply bind_Ok_inv in Hrun as ([ai1 ch1] & Hstep & Hrun).
    assert (ch1 = false) as ->.
    { destruct ch1; [|done]. by apply trivial_scan_flag in Hrun. }
    simpl in Hstep.
    destruct (MinesweeperAI.trivial_branch (MinesweeperAI.deref ai r)) eqn:Hbr;
      try done.
    + rewrite Hk in Hstep. rewrite list_remove_first in Hstep.
      * injection Hstep as <-. apply (IH pre) in Hrun; [done|done|].
        intros r' Hr'. by apply Hpre.
      * intros r' Hr'. specialize (Hpre r' Hr'). unfold MinesweeperAI.deref in *.
        intros Heq. rewrite Heq in Hpre. congruence.
      * done.
    + injection Hstep as <-. apply (IH (pre ++ [r])) in Hrun; [done| |].
      * by rewrite <- app_assoc.
      * intros r' [Hr'|Hr']%elem_of_app; [by apply Hpre|].
        apply list_elem_of_singleton in Hr' as ->. done.
Qed.

Lemma trivial_update_exit fuel ai ai' :
  MinesweeperAI.trivial_update fuel ai = Ok ai' →
  ∀ r, r ∈ MinesweeperAI.knowledge ai' →
    MinesweeperAI.trivial_branch (MinesweeperAI.deref ai' r)
    = MinesweeperAI.Keep.
Proof.
  revert ai. induction fuel as [|fuel IH]; intros ai Hrun; [done|].
  simpl in Hrun. apply bind_Ok_inv in Hrun as ([ai1 ch] & Hpass & Hrest).
  destruct ch; [by eapply IH|]. injection Hrest as <-.
  destruct (trivial_scan_quiet (MinesweeperAI.knowledge ai) [] ai ai1)
    as [_ Hkeep]; try done.
  intros r Hr. by apply elem_of_nil in Hr.
Qed.

(** ** Sentences as true statements about a board *)

Lemma true_of_all_mines board s :
  true_of board s → Sentence.count s = Sentence.len s →
  Sentence.cells s ⊆ board.
Proof.
  unfold true_of, Sentence.len. intros Ht Hc.
  assert (Sentence.cells s ∩ board = Sentence.cells s) as Heq.
  { apply set_subseteq_size_eq; [set_solver|lia]. }
  set_solver.
Qed.

Lemma true_of_all_safe board s :
  true_of board s → Sentence.count s = 0 → Sentence.cells s ## board.
Proof.
  unfold true_of. intros Ht Hc.
  assert (Sentence.cells s ∩ board ≡ ∅) by (apply size_empty_inv; lia).
  set_solver.
Qed.

Lemma true_of_resolve_mines board cs s :
  cs ⊆ board → true_of board s → true_of board (resolve_mines cs s).
Proof.
  unfold true_of, resolve_mines. simpl. intros Hcs ->.
  replace (Sentence.cells s ∩ board)
    with (Sentence.cells s ∩ cs ∪ (Sentence.cells s ∖ cs) ∩ board).
  - rewrite (size_union (C:=gset Cell) (Sentence.cells s ∩ cs)) by set_solver.
    lia.
  - apply set_eq. intros x. destruct (decide (x ∈ cs)); set_solver.
Qed.

Lemma true_of_resolve_safes board cs s :
  cs ## board → true_of board s → true_of board (resolve_safes cs s).
Proof.
  unfold true_of, resolve_safes. simpl. intros Hcs ->.
  do 2 f_equal. set_solver.
Qed.

Lemma true_of_derive board s1 s2 :
  true_of board s1 → true_of board s2 →
  Sentence.cells s1 ⊆ Sentence.cells s2 →
  true_of board (MinesweeperAI.derive s1 s2).
Proof.
  unfold true_of, MinesweeperAI.derive. simpl. intros -> -> Hsub.
  replace ((Sentence.cells s2 ∖ Sentence.cells s1) ∩ board)
    with ((Sentence.cells s2 ∩ board) ∖ (Sentence.cells s1 ∩ board))
    by set_solver.
  rewrite (size_difference (C:=gset Cell) (Sentence.cells s2 ∩ board))
    by set_solver.
  assert (size (Sentence.cells s1 ∩ board) ≤ size (Sentence.cells s2 ∩ board))%nat
    by (apply subseteq_size; set_solver).
  lia.
Qed.

Lemma deref_mark_mines cs ai r :
  MinesweeperAI.deref (MinesweeperAI.mark_mines cs ai) r
  = if decide (r ∈ MinesweeperAI.knowledge ai)
    then resolve_mines cs (MinesweeperAI.deref ai r)
    else MinesweeperAI.deref ai r.
Proof.
  unfold MinesweeperAI.deref. rewrite mark_mines_heap.
  case_decide; [|done]. destruct (MinesweeperAI.heap ai !! r); simpl; [done|].
  unfold resolve_mines. simpl. f_equal; [set_solver|].
  replace (∅ ∩ cs) with (∅ : gset Cell) by set_solver. by rewrite size_empty.
Qed.

Lemma deref_mark_safes cs ai r :
  MinesweeperAI.deref (MinesweeperAI.mark_safes cs ai) r
  = if decide (r ∈ MinesweeperAI.knowledge ai)
    then resolve_safes cs (MinesweeperAI.deref ai r)
    else MinesweeperAI.deref ai r.
Proof.
  unfold MinesweeperAI.deref. rewrite mark_safes_heap.
  case_decide; [|done]. destruct (MinesweeperAI.heap ai !! r); simpl; [done|].
  unfold resolve_safes. simpl. f_equal. set_solver.
Qed.

Lemma trivial_branch_AllMines s :
  MinesweeperAI.trivial_branch s = MinesweeperAI.AllMines →
  Sentence.count s = Sentence.len s.
Proof. unfold MinesweeperAI.trivial_branch. by repeat case_decide. Qed.

Lemma trivial_branch_AllSafe s :
  MinesweeperAI.trivial_branch s = MinesweeperAI.AllSafe →
  Sentence.count s = 0.
Proof. unfold MinesweeperAI.trivial_branch. by repeat case_decide. Qed.

Lemma trivial_branch_Keep s :
  MinesweeperAI.trivial_branch s = MinesweeperAI.Keep →
  Sentence.cells s ≠ ∅ ∧ Sentence.count s ≠ 0
  ∧ Sentence.count s ≠ Sentence.len s.
Proof.
  unfold MinesweeperAI.trivial_branch. repeat case_decide; try done.
  intros _. split; [|done]. intros He.
  unfold Sentence.len in *. rewrite He, size_empty in *. done.
Qed.

(** ** Trivial resolution on a knowledge base that is true of a board *)

Section true_scan.
Import MinesweeperAI.

Variable board : gset Cell.
Variable J : t → Prop.
Hypothesis J_true : ∀ ai r,
  J ai → r ∈ knowledge ai → true_of board (deref ai r).
Hypothesis J_mark_mines : ∀ cs ai, J ai → cs ⊆ board → J (mark_mines cs ai).
Hypothesis J_mark_safes : ∀ cs ai, J ai → cs ## board → J (mark_safes cs ai).
Hypothesis J_remove : ∀ ai x k,
  J ai → Sentence.cells x = ∅ →
  list_remove (heap ai) x (knowledge ai) = Some k → J (set_knowledge k ai).

Lemma J_trivial_step ai ch r acc' :
  J ai → r ∈ knowledge ai → trivial_step (ai, ch) r = Ok acc' → J acc'.1.
Proof.
  intros HJ Hr Hstep. simpl in Hstep.
  pose proof (J_true ai r HJ Hr) as Htrue.
  destruct (trivial_branch (deref ai r)) eqn:Hbr.
  - destruct (list_remove _ _ _) as [k|] eqn:Hrm; [|done].
    injection Hstep as <-. simpl.
    eapply J_remove; [done| |done]. by apply trivial_branch_Discard.
  - injection Hstep as <-. simpl. apply J_mark_mines; [done|].
    apply true_of_all_mines; [done|]. by apply trivial_branch_AllMines.
  - injection Hstep as <-. simpl. apply J_mark_safes; [done|].
    apply true_of_all_safe; [done|]. by apply trivial_branch_AllSafe.
  - by injection Hstep as <-.
Qed.

Lemma J_trivial_scan todo ai ch acc' :
  J ai → todo `suffix_of` knowledge ai →
  foldM trivial_step (ai, ch) todo = Ok acc' → J acc'.1.
Proof.
  revert ai ch. induction todo as [|r todo IH]; intros ai ch HJ Hsuf Hrun.
  - by injection Hrun as <-.
  - destruct (trivial_step_total ai ch r todo Hsuf)
      as (ai1 & ch1 & Hstep & Hsuf1 & _).
    cbn [foldM] in Hrun. rewrite Hstep in Hrun. simpl in Hrun.
    apply (IH ai1 ch1); [|done|done].
    apply (J_trivial_step ai ch r (ai1, ch1)); [done| |done].
    destruct Hsuf as [pre ->]. set_solver.
Qed.

Lemma J_trivial_update fuel ai ai' :
  J ai → trivial_update fuel ai = Ok ai' → J ai'.
Proof.
  revert ai. induction fuel as [|fuel IH]; intros ai HJ Hrun; [done|].
  simpl in Hrun. apply bind_Ok_inv in Hrun as ([ai1 ch] & Hpass & Hrest).
  apply J_trivial_scan in Hpass; [|done..]. simpl in Hpass.
  destruct ch; [by eapply IH | by injection Hrest as <-].
Qed.

End true_scan.

Lemma kb_true_deref board ai :
  kb_true board ai ↔
  ∀ r, r ∈ MinesweeperAI.knowledge ai → true_of board (MinesweeperAI.deref ai r).
Proof.
  unfold kb_true, MinesweeperAI.kb. split.
  - intros H r Hr. apply H. by apply list_elem_of_fmap_2.
  - intros H s (r & -> & Hr)%list_elem_of_fmap. by apply H.
Qed.

Lemma resolving_remove board X r target ai x k :
  (∀ k', target (MinesweeperAI.set_knowledge k' ai) = target ai) →
  resolving board X r target ai → Sentence.cells x = ∅ →
  MinesweeperAI.list_remove (MinesweeperAI.heap ai) x (MinesweeperAI.knowledge ai)
  = Some k →
  resolving board X r target (MinesweeperAI.set_knowledge k ai).
Proof.
  intros Htgt (Ht & Hsub & Hcov & Hin) Hx Hrm.
  apply list_remove_Some in Hrm as (pre & r0 & post & Hk & -> & Hr0 & _).
  unfold resolving. rewrite Htgt.
  change (MinesweeperAI.deref (MinesweeperAI.set_knowledge (pre ++ post) ai))
    with (MinesweeperAI.deref ai). simpl.
  split_and!; try done.
  - intros r' Hr'. apply Ht. rewrite Hk. set_solver.
  - destruct Hin as [Hin|]; [|by right]. rewrite Hk in Hin.
    destruct (decide (r = r0)) as [->|Hne].
    + right. unfold MinesweeperAI.deref. by rewrite Hr0.
    + left. set_solver.
Qed.

Lemma resolving_mines_mark_mines board X r cs ai :
  X ⊆ board → cs ⊆ board →
  resolving board X r MinesweeperAI.mines ai →
  resolving board X r MinesweeperAI.mines (MinesweeperAI.mark_mines cs ai).
Proof.
  intros HX Hcs (Ht & Hsub & Hcov & Hin). unfold resolving.
  destruct (mark_mines_frame cs ai) as (_ & _ & _ & -> & _ & ->).
  split_and!; try done.
  - intros r' Hr'. rewrite deref_mark_mines, decide_True by done.
    apply true_of_resolve_mines; auto.
  - rewrite deref_mark_mines. case_decide; simpl; set_solver.
  - rewrite deref_mark_mines. case_decide; simpl; [|set_solver].
    intros x Hx. destruct (decide (x ∈ cs)); set_solver.
  - destruct Hin as [Hin|He]; [by left|right].
    rewrite deref_mark_mines. case_decide; simpl; [|done]. set_solver.
Qed.

Lemma resolving_mines_mark_safes board X r cs ai :
  X ⊆ board → cs ## board →
  resolving board X r MinesweeperAI.mines ai →
  resolving board X r MinesweeperAI.mines (MinesweeperAI.mark_safes cs ai).
Proof.
  intros HX Hcs (Ht & Hsub & Hcov & Hin). unfold resolving.
  destruct (mark_safes_frame cs ai) as (_ & _ & _ & -> & _ & ->).
  split_and!; try done.
  - intros r' Hr'. rewrite deref_mark_safes, decide_True by done.
    apply true_of_resolve_safes; auto.
  - rewrite deref_mark_safes. case_decide; simpl; set_solver.
  - rewrite deref_mark_safes. case_decide; simpl; set_solver.
  - destruct Hin as [Hin|He]; [by left|right].
    rewrite deref_mark_safes. case_decide; simpl; [|done]. set_solver.
Qed.

Lemma resolving_safes_mark_mines board X r cs ai :
  X ## board → cs ⊆ board →
  resolving board X r MinesweeperAI.safes ai →
  resolving board X r MinesweeperAI.safes (MinesweeperAI.mark_mines cs ai).
Proof.
  intros HX Hcs (Ht & Hsub & Hcov & Hin). unfold resolving.
  destruct (mark_mines_frame cs ai) as (_ & _ & _ & _ & -> & ->).
  split_and!; try done.
  - intros r' Hr'. rewrite deref_mark_mines, decide_True by done.
    apply true_of_resolve_mines; auto.
  - rewrite deref_mark_mines. case_decide; simpl; set_solver.
  - rewrite deref_mark_mines. case_decide; simpl; set_solver.
  - destruct Hin as [Hin|He]; [by left|right].
    rewrite deref_mark_mines. case_decide; simpl; [|done]. set_solver.
Qed.

Lemma resolving_safes_mark_safes board X r cs ai :
  X ## board → cs ## board →
  resolving board X r MinesweeperAI.safes ai →
  resolving board X r MinesweeperAI.safes (MinesweeperAI.mark_safes cs ai).
Proof.
  intros HX Hcs (Ht & Hsub & Hcov & Hin). unfold resolving.
  destruct (mark_safes_frame cs ai) as (_ & _ & _ & _ & -> & ->).
  split_and!; try done.
  - intros r' Hr'. rewrite deref_mark_safes, decide_True by done.
    apply true_of_resolve_safes; auto.
  - rewrite deref_mark_safes. case_decide; simpl; set_solver.
  - rewrite deref_mark_safes. case_decide; simpl; [|set_solver].
    intros x Hx. destruct (decide (x ∈ cs)); set_solver.
  - destruct Hin as [Hin|He]; [by left|right].
    rewrite deref_mark_safes. case_decide; simpl; [|done]. set_solver.
Qed.

(** In a knowledge base that is true of a board, a listed sentence whose
    count equals its size has all its cells in mines, and is no longer
    listed, when trivial resolution exits. *)
Lemma trivial_update_resolves_mines board ai r fuel :
  kb_true board ai → r ∈ MinesweeperAI.knowledge ai →
  Sentence.count (MinesweeperAI.deref ai r)
  = Sentence.len (MinesweeperAI.deref ai r) →
  (weight ai < fuel)%nat →
  ∃ ai', MinesweeperAI.trivial_update fuel ai = Ok ai'
         ∧ Sentence.cells (MinesweeperAI.deref ai r) ⊆ MinesweeperAI.mines ai'
         ∧ (r ∉ MinesweeperAI.knowledge ai')
         ∧ ∀ r', r' ∈ MinesweeperAI.knowledge ai' →
             MinesweeperAI.trivial_branch (MinesweeperAI.deref ai' r')
             = MinesweeperAI.Keep.
Proof.
  intros Htrue Hr Hcount Hfuel.
  set (X := Sentence.cells (MinesweeperAI.deref ai r)).
  assert (X ⊆ board) as HX.
  { apply true_of_all_mines; [|done]. by apply kb_true_deref. }
  destruct (trivial_update_total fuel ai Hfuel) as (ai' & Hrun & _).
  exists ai'. split; [done|].
  pose proof (trivial_update_exit _ _ _ Hrun) as Hexit.
  assert (resolving board X r MinesweeperAI.mines ai') as (Ht & Hsub & Hcov & Hin).
  { revert Hrun. apply (J_trivial_update board).
    - intros a r' (Ht & _) Hr'. by apply Ht.
    - intros cs a Ha Hcs. by apply resolving_mines_mark_mines.
    - intros cs a Ha Hcs. by apply resolving_mines_mark_safes.
    - intros a x k. by apply resolving_remove.
    - split_and!; [by apply kb_true_deref|done|set_solver|by left]. }
  assert (r ∉ MinesweeperAI.knowledge ai') as Hout.
  { intros Hr'. pose proof (Ht r Hr') as Htr.
    apply Hexit, trivial_branch_Keep in Hr' as (_ & _ & Hne). apply Hne.
    rewrite Htr. unfold Sentence.len. do 2 f_equal. set_solver. }
  split_and!; [|done|done].
  destruct Hin as [|He]; [done|]. rewrite He in Hcov. set_solver.
Qed.

Lemma trivial_update_resolves_safes board ai r fuel :
  kb_true board ai → r ∈ MinesweeperAI.knowledge ai →
  Sentence.count (MinesweeperAI.deref ai r) = 0 →
  (weight ai < fuel)%nat →
  ∃ ai', MinesweeperAI.trivial_update fuel ai = Ok ai'
         ∧ Sentence.cells (MinesweeperAI.deref ai r) ⊆ MinesweeperAI.safes ai'
         ∧ (r ∉ MinesweeperAI.knowledge ai')
         ∧ ∀ r', r' ∈ MinesweeperAI.knowledge ai' →
             MinesweeperAI.trivial_branch (MinesweeperAI.deref ai' r')
             = MinesweeperAI.Keep.
Proof.
  intros Htrue Hr Hcount Hfuel.
  set (X := Sentence.cells (MinesweeperAI.deref ai r)).
  assert (X ## board) as HX.
  { apply true_of_all_safe; [|done]. by apply kb_true_deref. }
  destruct (trivial_update_total fuel ai Hfuel) as (ai' & Hrun & _).
  exists ai'. split; [done|].
  pose proof (trivial_update_exit _ _ _ Hrun) as Hexit.
  assert (resolving board X r MinesweeperAI.safes ai') as (Ht & Hsub & Hcov & Hin).
  { revert Hrun. apply (J_trivial_update board).
    - intros a r' (Ht & _) Hr'. by apply Ht.
    - intros cs a Ha Hcs. by apply resolving_safes_mark_mines.
    - intros cs a Ha Hcs. by apply resolving_safes_mark_safes.
    - intros a x k. by apply resolving_remove.
    - split_and!; [by apply kb_true_deref|done|set_solver|by left]. }
  assert (r ∉ MinesweeperAI.knowledge ai') as Hout.
  { intros Hr'. pose proof (Ht r Hr') as Htr.
    apply Hexit, trivial_branch_Keep in Hr' as (_ & Hne & _). apply Hne.
    rewrite Htr.
    replace (Sentence.cells (MinesweeperAI.deref ai' r) ∩ board)
      with (∅ : gset Cell) by set_solver.
    by rewrite size_empty. }
  split_and!; [|done|done].
  destruct Hin as [|He]; [done|]. rewrite He in Hcov. set_solver.
Qed.

Lemma size_pair (A B : Cell) : A ≠ B → size ({[A; B]} : gset Cell) = 2%nat.
Proof.
  intros Hne. rewrite (size_union (C:=gset Cell) {[A]}) by set_solver.
  by rewrite !size_singleton.
Qed.

(** C6 (as the code behaves): on a knowledge base all of whose sentences
    are true of one mine placement (a knowledge base that holds just the
    one sentence is an instance) and that lists the sentence ({A,B}, 2),
    trivial_update marks A and B as mines and the sentence is no longer in
    the knowledge base; with ({A,B,C}, 0) it marks A, B and C safe and the
    sentence is no longer in the knowledge base. *)
Theorem trivial_update_resolves board ai r fuel A B C :
  kb_true board ai → r ∈ MinesweeperAI.knowledge ai →
  (weight ai < fuel)%nat →
  (MinesweeperAI.deref ai r = Sentence.mk {[A; B]} 2 → A ≠ B →
   ∃ ai', MinesweeperAI.trivial_update fuel ai = Ok ai'
          ∧ A ∈ MinesweeperAI.mines ai' ∧ B ∈ MinesweeperAI.mines ai'
          ∧ (r ∉ MinesweeperAI.knowledge ai')
          ∧ Sentence.mk {[A; B]} 2 ∉ MinesweeperAI.kb ai')
  ∧ (MinesweeperAI.deref ai r = Sentence.mk {[A; B; C]} 0 →
     ∃ ai', MinesweeperAI.trivial_update fuel ai = Ok ai'
            ∧ A ∈ MinesweeperAI.safes ai' ∧ B ∈ MinesweeperAI.safes ai'
            ∧ C ∈ MinesweeperAI.safes ai'
            ∧ (r ∉ MinesweeperAI.knowledge ai')
            ∧ Sentence.mk {[A; B; C]} 0 ∉ MinesweeperAI.kb ai').
Proof.
  intros Htrue Hr Hfuel. split.
  - intros Hs Hne.
    destruct (trivial_update_resolves_mines board ai r fuel)
      as (ai' & Hrun & Hsub & Hout & Hkeep); try done.
    { rewrite Hs. unfold Sentence.len. cbn [Sentence.cells Sentence.count].
      by rewrite size_pair. }
    exists ai'. rewrite Hs in Hsub. simpl in Hsub.
    split_and!; [done|set_solver|set_solver|done|].
    intros (r' & Heq & Hr')%list_elem_of_fmap.
    apply Hkeep, trivial_branch_Keep in Hr' as (_ & _ & Hc).
    apply Hc. rewrite <- Heq. unfold Sentence.len.
    cbn [Sentence.cells Sentence.count]. by rewrite size_pair.
  - intros Hs.
    destruct (trivial_update_resolves_safes board ai r fuel)
      as (ai' & Hrun & Hsub & Hout & Hkeep); try done.
    { by rewrite Hs. }
    exists ai'. rewrite Hs in Hsub. simpl in Hsub.
    split_and!; [done|set_solver|set_solver|set_solver|done|].
    intros (r' & Heq & Hr')%list_elem_of_fmap.
    apply Hkeep, trivial_branch_Keep in Hr' as (_ & Hc & _).
    apply Hc. by rewrite <- Heq.
Qed.

Lemma ai_two_mines_true : kb_true {[(0, 0); (0, 1)]} ai_two_mines.
Proof.
  unfold kb_true. apply Forall_forall. unfold MinesweeperAI.kb. simpl.
  repeat apply Forall_cons_2; try apply Forall_nil_2; vm_compute; reflexivity.
Qed.

Lemma ai_three_safe_true : kb_true ∅ ai_three_safe.
Proof.
  unfold kb_true. apply Forall_forall. unfold MinesweeperAI.kb. simpl.
  repeat apply Forall_cons_2; try apply Forall_nil_2; vm_compute; reflexivity.
Qed.

Lemma trivial_update_resolves_witness :
  (∃ ai', MinesweeperAI.trivial_update 5 ai_two_mines = Ok ai'
          ∧ (0, 0) ∈ MinesweeperAI.mines ai' ∧ (0, 1) ∈ MinesweeperAI.mines ai'
          ∧ (1%nat ∉ MinesweeperAI.knowledge ai')
          ∧ (Sentence.mk {[(0, 0); (0, 1)]} 2 ∉ MinesweeperAI.kb ai'))
  ∧ (∃ ai', MinesweeperAI.trivial_update 4 ai_three_safe = Ok ai'
            ∧ (0, 0) ∈ MinesweeperAI.safes ai'
            ∧ (0, 1) ∈ MinesweeperAI.safes ai'
            ∧ (0, 2) ∈ MinesweeperAI.safes ai'
            ∧ (0%nat ∉ MinesweeperAI.knowledge ai')
            ∧ (Sentence.mk {[(0, 0); (0, 1); (0, 2)]} 0 ∉ MinesweeperAI.kb ai')).
Proof.
  split.
  - apply (proj1 (trivial_update_resolves {[(0, 0); (0, 1)]} ai_two_mines
                    1%nat 5%nat (0, 0) (0, 1) (0, 0)
                    ai_two_mines_true
                    ltac:(simpl; set_solver)
                    ltac:(vm_compute; lia))); [reflexivity|done].
  - apply (proj2 (trivial_update_resolves ∅ ai_three_safe
                    0%nat 4%nat (0, 0) (0, 1) (0, 2)
                    ai_three_safe_true
                    ltac:(simpl; set_solver)
                    ltac:(vm_compute; lia))); reflexivity.
Defined.

(** C6 (as stated) fails: in the knowledge base [({A}, 0); ({A,B}, 2)]
    the first sentence has A marked safe, which leaves the second as
    ({B}, 2); trivial_update returns with no mine marked and that sentence
    still listed. *)
Lemma trivial_update_unresolved :
  Sentence.mk {[(0, 0); (0, 1)]} 2 ∈ MinesweeperAI.kb ai_contra
  ∧ (∃ ai', MinesweeperAI.trivial_update 3 ai_contra = Ok ai'
            ∧ MinesweeperAI.mines ai' = ∅
            ∧ (0, 0) ∈ MinesweeperAI.safes ai'
            ∧ MinesweeperAI.kb ai' = [Sentence.mk {[(0, 1)]} 2])
  ∧ ∀ fuel ai', MinesweeperAI.trivial_update fuel ai_contra = Ok ai' →
      MinesweeperAI.mines ai' = ∅
      ∧ MinesweeperAI.kb ai' = [Sentence.mk {[(0, 1)]} 2].
Proof.
  assert (MinesweeperAI.trivial_update 3 ai_contra
          = Ok (MinesweeperAI.mk 8 8 ∅ ∅ {[(0, 0)]}
                  [Sentence.mk ∅ 0; Sentence.mk {[(0, 1)]} 2] [1%nat])) as H3.
  { vm_compute. reflexivity. }
  split; [vm_compute; set_solver|]. split.
  - eexists. split; [exact H3|]. split_and!; [done|set_solver|done].
  - intros fuel ai' Hrun.
    apply (trivial_update_fuel_mono _ (fuel `max` 3)%nat) in Hrun; [|lia].
    apply (trivial_update_fuel_mono _ (fuel `max` 3)%nat) in H3; [|lia].
    rewrite Hrun in H3. injection H3 as ->. split; reflexivity.
Qed.

(** ** Subset inference *)

Lemma inference_step_equal fuel r1 r2 ai ch :
  MinesweeperAI.deref ai r1 = MinesweeperAI.deref ai r2 →
  MinesweeperAI.inference_step fuel r1 (ai, ch) r2 = Ok (ai, ch).
Proof. intros Heq. unfold MinesweeperAI.inference_step. by rewrite decide_True. Qed.

Lemma inference_step_derive fuel r1 r2 ai ch :
  MinesweeperAI.deref ai r1 ≠ MinesweeperAI.deref ai r2 →
  Sentence.cells (MinesweeperAI.deref ai r1)
    ⊆ Sentence.cells (MinesweeperAI.deref ai r2) →
  MinesweeperAI.inference_step fuel r1 (ai, ch) r2
  = MinesweeperAI.trivial_update fuel
      (MinesweeperAI.classify
         (MinesweeperAI.derive (MinesweeperAI.deref ai r1)
                               (MinesweeperAI.deref ai r2)) ai)
    ≫= λ ai', Ok (ai', true).
Proof.
  intros Hne Hsub. unfold MinesweeperAI.inference_step.
  rewrite decide_False by done. by rewrite decide_True.
Qed.

Lemma inference_step_unrelated fuel r1 r2 ai ch :
  MinesweeperAI.deref ai r1 ≠ MinesweeperAI.deref ai r2 →
  ¬ Sentence.cells (MinesweeperAI.deref ai r1)
      ⊆ Sentence.cells (MinesweeperAI.deref ai r2) →
  MinesweeperAI.inference_step fuel r1 (ai, ch) r2 = Ok (ai, ch).
Proof.
  intros Hne Hsub. unfold MinesweeperAI.inference_step.
  rewrite decide_False by done. by rewrite decide_False.
Qed.

Lemma classify_safe new ai :
  Sentence.count new = 0 →
  MinesweeperAI.classify new ai
  = MinesweeperAI.mark_safes (Sentence.cells new) ai.
Proof. intros H. unfold MinesweeperAI.classify. by rewrite decide_True. Qed.


Lemma classify_append new ai :
  Sentence.count new ≠ 0 → Sentence.count new ≠ Sentence.len new →
  MinesweeperAI.classify new ai = MinesweeperAI.append new ai.
Proof.
  intros H0 H. unfold MinesweeperAI.classify.
  rewrite decide_False by done. by rewrite decide_False.
Qed.

(** A pass of trivial resolution over sentences that are all kept changes
    nothing. *)
Lemma trivial_scan_keep todo ai ch :
  (∀ r, r ∈ todo →
     MinesweeperAI.trivial_branch (MinesweeperAI.deref ai r)
     = MinesweeperAI.Keep) →
  foldM MinesweeperAI.trivial_step (ai, ch) todo = Ok (ai, ch).
Proof.
  induction todo as [|r todo IH]; intros Hkeep; [done|].
  cbn [foldM].
  assert (MinesweeperAI.trivial_step (ai, ch) r = Ok (ai, ch)) as ->.
  { unfold MinesweeperAI.trivial_step. cbv zeta.
    by rewrite Hkeep by set_solver. }
  simpl. apply IH. intros r' Hr'.
  apply Hkeep. set_solver.
Qed.

Lemma trivial_update_keep fuel ai :
  (∀ r, r ∈ MinesweeperAI.knowledge ai →
     MinesweeperAI.trivial_branch (MinesweeperAI.deref ai r)
     = MinesweeperAI.Keep) →
  MinesweeperAI.trivial_update (S fuel) ai = Ok ai.
Proof.
  intros Hkeep. simpl. unfold MinesweeperAI.trivial_pass.
  by rewrite trivial_scan_keep.
Qed.


Lemma inference_step_flag fuel r1 r2 ai acc' :
  MinesweeperAI.inference_step fuel r1 (ai, true) r2 = Ok acc' → acc'.2 = true.
Proof.
  unfold MinesweeperAI.inference_step. repeat case_decide;
    try (by intros [= <-]).
  intros (ai1 & _ & [= <-])%bind_Ok_inv. done.
Qed.

Lemma inference_inner_flag fuel r1 l ai acc' :
  foldM (MinesweeperAI.inference_step fuel r1) (ai, true) l = Ok acc' →
  acc'.2 = true.
Proof.
  revert ai. induction l as [|r2 l IH]; intros ai Hrun.
  - by injection Hrun as <-.
  - cbn [foldM] in Hrun. apply bind_Ok_inv in Hrun as ([ai1 ch1] & Hstep & Hrun).
    apply inference_step_flag in Hstep. simpl in Hstep. subst ch1.
    by eapply IH.
Qed.

Lemma inference_step_quiet fuel r1 r2 ai ai' :
  MinesweeperAI.inference_step fuel r1 (ai, false) r2 = Ok (ai', false) →
  ai' = ai
  ∧ (Sentence.cells (MinesweeperAI.deref ai r1)
       ⊆ Sentence.cells (MinesweeperAI.deref ai r2) →
     MinesweeperAI.deref ai r1 = MinesweeperAI.deref ai r2).
Proof.
  unfold MinesweeperAI.inference_step. repeat case_decide.
  - by intros [= <-].
  - by intros (ai1 & _ & [=])%bind_Ok_inv.
  - by intros [= <-].
Qed.

Lemma inference_inner_quiet fuel r1 l ai ai' :
  foldM (MinesweeperAI.inference_step fuel r1) (ai, false) l = Ok (ai', false) →
  ai' = ai
  ∧ ∀ r2, r2 ∈ l →
      Sentence.cells (MinesweeperAI.deref ai r1)
        ⊆ Sentence.cells (MinesweeperAI.deref ai r2) →
      MinesweeperAI.deref ai r1 = MinesweeperAI.deref ai r2.
Proof.
  induction l as [|r2 l IH]; intros Hrun.
  - injection Hrun as <-. split; [done|]. intros r2 Hr2.
    by apply elem_of_nil in Hr2.
  - cbn [foldM] in Hrun. apply bind_Ok_inv in Hrun as ([ai1 ch1] & Hstep & Hrun).
    destruct ch1; [by apply inference_inner_flag in Hrun|].
    apply inference_step_quiet in Hstep as [-> Hcond].
    destruct (IH Hrun) as [-> Hrest]. split; [done|].
    intros r [->|Hr]%elem_of_cons; auto.
Qed.

Lemma inference_outer_flag fuel K l ai acc' :
  foldM (λ acc r1, foldM (MinesweeperAI.inference_step fuel r1) acc K)
        (ai, true) l = Ok acc' →
  acc'.2 = true.
Proof.
  revert ai. induction l as [|r1 l IH]; intros ai Hrun.
  - by injection Hrun as <-.
  - cbn [foldM] in Hrun. apply bind_Ok_inv in Hrun as ([ai1 ch1] & Hin & Hrun).
    apply inference_inner_flag in Hin. simpl in Hin. subst ch1.
    by eapply IH.
Qed.

Lemma inference_outer_quiet fuel K l ai ai' :
  foldM (λ acc r1, foldM (MinesweeperAI.inference_step fuel r1) acc K)
        (ai, false) l = Ok (ai', false) →
  ai' = ai
  ∧ ∀ r1 r2, r1 ∈ l → r2 ∈ K →
      Sentence.cells (MinesweeperAI.deref ai r1)
        ⊆ Sentence.cells (MinesweeperAI.deref ai r2) →
      MinesweeperAI.deref ai r1 = MinesweeperAI.deref ai r2.
Proof.
  induction l as [|r1 l IH]; intros Hrun.
  - injection Hrun as <-. split; [done|]. intros r1 r2 Hr1.
    by apply elem_of_nil in Hr1.
  - cbn [foldM] in Hrun. apply bind_Ok_inv in Hrun as ([ai1 ch1] & Hin & Hrun).
    destruct ch1; [by apply inference_outer_flag in Hrun|].
    apply inference_inner_quiet in Hin as [-> Hcond].
    destruct (IH Hrun) as [-> Hrest]. split; [done|].
    intros r r2 [->|Hr]%elem_of_cons Hr2; auto.
Qed.

Lemma inference_inner_skip fuel r1 l ai ch :
  (∀ r2, r2 ∈ l →
     Sentence.cells (MinesweeperAI.deref ai r1)
       ⊆ Sentence.cells (MinesweeperAI.deref ai r2) →
     MinesweeperAI.deref ai r1 = MinesweeperAI.deref ai r2) →
  foldM (MinesweeperAI.inference_step fuel r1) (ai, ch) l = Ok (ai, ch).
Proof.
  induction l as [|r2 l IH]; intros Hcond; [done|].
  cbn [foldM].
  assert (MinesweeperAI.inference_step fuel r1 (ai, ch) r2 = Ok (ai, ch)) as ->.
  { destruct (decide (MinesweeperAI.deref ai r1 = MinesweeperAI.deref ai r2))
      as [Heq|Hne]; [by apply inference_step_equal|].
    apply inference_step_unrelated; [done|]. intros Hsub. apply Hne.
    apply Hcond; [by left|done]. }
  simpl. apply IH. intros r2' Hr2'. apply Hcond. by right.
Qed.

Lemma inference_outer_skip fuel K l ai ch :
  (∀ r1 r2, r1 ∈ l → r2 ∈ K →
     Sentence.cells (MinesweeperAI.deref ai r1)
       ⊆ Sentence.cells (MinesweeperAI.deref ai r2) →
     MinesweeperAI.deref ai r1 = MinesweeperAI.deref ai r2) →
  foldM (λ acc r1, foldM (MinesweeperAI.inference_step fuel r1) acc K)
        (ai, ch) l = Ok (ai, ch).
Proof.
  induction l as [|r1 l IH]; intros Hcond; [done|].
  cbn [foldM]. rewrite inference_inner_skip.
  - simpl. apply IH. intros r1' r2 Hr1'. apply Hcond. by right.
  - intros r2 Hr2. apply Hcond; [by left|done].
Qed.

Lemma inference_update_no_subset fuel ai ai' :
  MinesweeperAI.inference_update fuel ai = Ok ai' → no_subset_pair ai'.
Proof.
  revert ai. induction fuel as [|fuel IH]; intros ai Hrun; [done|].
  cbn [MinesweeperAI.inference_update] in Hrun.
  apply bind_Ok_inv in Hrun as ([ai1 ch] & Hpass & Hrest).
  destruct ch; [by eapply IH|]. injection Hrest as <-.
  unfold MinesweeperAI.inference_pass in Hpass.
  apply inference_outer_quiet in Hpass as [-> Hcond].
  intros r1 r2 Hr1 Hr2. by apply Hcond.
Qed.










(** ** The subset-inference loop that does not end *)

Lemma add_knowledge_ingest fuel cell count ai :
  MinesweeperAI.add_knowledge fuel cell count ai
  = MinesweeperAI.trivial_update fuel (ingest cell count ai)
    ≫= MinesweeperAI.inference_update fuel.
Proof.
  unfold MinesweeperAI.add_knowledge, ingest.
  by destruct (foldl _ _ _) as [cells_to_store n].
Qed.

Lemma ingest_stuck : ingest (1, 1) 2 ai_corner = ai_stuck.
Proof. vm_compute. reflexivity. Qed.

Lemma stuck_facts :
  small ≠ big ∧ small ≠ rest ∧ big ≠ rest
  ∧ Sentence.cells small ⊆ Sentence.cells big
  ∧ Sentence.cells rest ⊆ Sentence.cells big
  ∧ ¬ Sentence.cells small ⊆ Sentence.cells rest
  ∧ ¬ Sentence.cells rest ⊆ Sentence.cells small
  ∧ ¬ Sentence.cells big ⊆ Sentence.cells small
  ∧ ¬ Sentence.cells big ⊆ Sentence.cells rest
  ∧ MinesweeperAI.derive small big = rest
  ∧ MinesweeperAI.derive rest big = small.
Proof.
  split_and!; try (vm_compute; discriminate); try (vm_compute; reflexivity);
    try (apply (bool_decide_unpack _); vm_compute; exact I);
    apply bool_decide_eq_false; vm_compute; reflexivity.
Qed.

Lemma stuck_keep s :
  s = small ∨ s = big ∨ s = rest →
  MinesweeperAI.trivial_branch s = MinesweeperAI.Keep
  ∧ Sentence.count s ≠ 0 ∧ Sentence.count s ≠ Sentence.len s.
Proof. intros [->|[->| ->]]; split_and!; by vm_compute. Qed.

Lemma stuck_deref ai r :
  stuck ai → r ∈ MinesweeperAI.knowledge ai →
  MinesweeperAI.heap ai !! r = Some (MinesweeperAI.deref ai r)
  ∧ (MinesweeperAI.deref ai r = small ∨ MinesweeperAI.deref ai r = big
     ∨ MinesweeperAI.deref ai r = rest).
Proof.
  intros Hst Hr. destruct (Hst r Hr) as (s & Hs & Hcase).
  unfold MinesweeperAI.deref. by rewrite Hs.
Qed.

Lemma stuck_trivial_update fuel ai :
  stuck ai → MinesweeperAI.trivial_update (S fuel) ai = Ok ai.
Proof.
  intros Hst. apply trivial_update_keep. intros r Hr.
  apply stuck_keep. by apply stuck_deref.
Qed.

Lemma stuck_append s ai :
  s = small ∨ s = big ∨ s = rest → stuck ai →
  stuck (MinesweeperAI.append s ai).
Proof.
  intros Hs Hst r. simpl. intros [Hr|Hr]%elem_of_app.
  - destruct (Hst r Hr) as (s' & Hs' & Hcase). exists s'. split; [|done].
    by apply lookup_app_l_Some.
  - apply list_elem_of_singleton in Hr as ->. exists s. split; [|done].
    by rewrite lookup_app_r, Nat.sub_diag.
Qed.

Lemma prefix_deref ai0 ai r :
  stuck ai0 → r ∈ MinesweeperAI.knowledge ai0 →
  MinesweeperAI.heap ai0 `prefix_of` MinesweeperAI.heap ai →
  MinesweeperAI.deref ai r = MinesweeperAI.deref ai0 r.
Proof.
  intros Hst Hr Hpre. destruct (Hst r Hr) as (s & Hs & _).
  unfold MinesweeperAI.deref. rewrite Hs.
  by rewrite (prefix_lookup_Some _ _ _ _ Hs Hpre).
Qed.

Lemma stuck_step fuel r1 r2 ai ch :
  stuck ai → r1 ∈ MinesweeperAI.knowledge ai →
  r2 ∈ MinesweeperAI.knowledge ai →
  MinesweeperAI.inference_step fuel r1 (ai, ch) r2 = OutOfFuel
  ∨ ∃ ai' ch',
      MinesweeperAI.inference_step fuel r1 (ai, ch) r2 = Ok (ai', ch')
      ∧ stuck ai'
      ∧ MinesweeperAI.heap ai `prefix_of` MinesweeperAI.heap ai'
      ∧ (∀ r, r ∈ MinesweeperAI.knowledge ai → r ∈ MinesweeperAI.knowledge ai')
      ∧ (ch = true → ch' = true)
      ∧ (MinesweeperAI.deref ai r1 = small →
         MinesweeperAI.deref ai r2 = big → ch' = true).
Proof.
  intros Hst Hr1 Hr2.
  destruct stuck_facts as (Hsb & Hsr & Hbr & Hsub_sb & Hsub_rb & Hn_sr & Hn_rs
                           & Hn_bs & Hn_br & Hd_sb & Hd_rb).
  destruct (stuck_deref ai r1 Hst Hr1) as [_ H1].
  destruct (stuck_deref ai r2 Hst Hr2) as [_ H2].
  assert (∀ new (Q1 Q2 : Prop), new = small ∨ new = big ∨ new = rest →
            MinesweeperAI.trivial_update fuel (MinesweeperAI.classify new ai)
              ≫= (λ ai', Ok (ai', true)) = OutOfFuel
            ∨ ∃ ai' ch',
                MinesweeperAI.trivial_update fuel (MinesweeperAI.classify new ai)
                  ≫= (λ ai', Ok (ai', true)) = Ok (ai', ch')
                ∧ stuck ai'
                ∧ MinesweeperAI.heap ai `prefix_of` MinesweeperAI.heap ai'
                ∧ (∀ r, r ∈ MinesweeperAI.knowledge ai →
                        r ∈ MinesweeperAI.knowledge ai')
                ∧ (ch = true → ch' = true)
                ∧ (Q1 → Q2 → ch' = true)) as Hderive.
  { intros new Q1 Q2 Hnew. destruct (stuck_keep new Hnew) as (_ & Hc0 & Hclen).
    rewrite classify_append by done. destruct fuel as [|fuel]; [by left|].
    right. rewrite stuck_trivial_update by by apply stuck_append.
    eexists _, _. split; [done|]. split_and!; try done.
    - by apply stuck_append.
    - simpl. by apply prefix_app_r.
    - simpl. intros r Hr. apply elem_of_app. by left. }
  assert (∀ P : Prop, ¬ P →
            MinesweeperAI.inference_step fuel r1 (ai, ch) r2 = Ok (ai, ch) →
            (MinesweeperAI.deref ai r1 = small →
             MinesweeperAI.deref ai r2 = big → P) →
            MinesweeperAI.inference_step fuel r1 (ai, ch) r2 = OutOfFuel
            ∨ ∃ ai' ch',
                MinesweeperAI.inference_step fuel r1 (ai, ch) r2 = Ok (ai', ch')
                ∧ stuck ai'
                ∧ MinesweeperAI.heap ai `prefix_of` MinesweeperAI.heap ai'
                ∧ (∀ r, r ∈ MinesweeperAI.knowledge ai →
                        r ∈ MinesweeperAI.knowledge ai')
                ∧ (ch = true → ch' = true)
                ∧ (MinesweeperAI.deref ai r1 = small →
                   MinesweeperAI.deref ai r2 = big → ch' = true)) as Hskip.
  { intros P HnP Hstep HP. right. exists ai, ch. split_and!; try done.
    intros ??. destruct HnP. auto. }
  destruct H1 as [H1|[H1|H1]], H2 as [H2|[H2|H2]].
  - apply (Hskip (small = big)); [done| |congruence].
    apply inference_step_equal. congruence.
  - rewrite inference_step_derive by (rewrite H1, H2; done).
    rewrite H1, H2, Hd_sb. apply Hderive. auto.
  - apply (Hskip (big = rest)); [done| |congruence].
    apply inference_step_unrelated; rewrite H1, H2; done.
  - apply (Hskip (small = big)); [done| |congruence].
    apply inference_step_unrelated; rewrite H1, H2; [congruence|done].
  - apply (Hskip (small = big)); [done| |congruence].
    apply inference_step_equal. congruence.
  - apply (Hskip (small = big)); [done| |congruence].
    apply inference_step_unrelated; rewrite H1, H2; done.
  - apply (Hskip (small = rest)); [done| |congruence].
    apply inference_step_unrelated; rewrite H1, H2; [congruence|done].
  - rewrite inference_step_derive by (rewrite H1, H2; (congruence || done)).
    rewrite H1, H2, Hd_rb. apply Hderive. auto.
  - apply (Hskip (small = rest)); [done| |congruence].
    apply inference_step_equal. congruence.
Qed.

Lemma stuck_inner fuel ai0 r1 l2 ai ch :
  stuck ai0 → stuck ai →
  MinesweeperAI.heap ai0 `prefix_of` MinesweeperAI.heap ai →
  (∀ r, r ∈ MinesweeperAI.knowledge ai0 → r ∈ MinesweeperAI.knowledge ai) →
  r1 ∈ MinesweeperAI.knowledge ai0 →
  (∀ r, r ∈ l2 → r ∈ MinesweeperAI.knowledge ai0) →
  foldM (MinesweeperAI.inference_step fuel r1) (ai, ch) l2 = OutOfFuel
  ∨ ∃ ai' ch',
      foldM (MinesweeperAI.inference_step fuel r1) (ai, ch) l2 = Ok (ai', ch')
      ∧ stuck ai'
      ∧ MinesweeperAI.heap ai0 `prefix_of` MinesweeperAI.heap ai'
      ∧ (∀ r, r ∈ MinesweeperAI.knowledge ai0 → r ∈ MinesweeperAI.knowledge ai')
      ∧ (ch = true → ch' = true)
      ∧ (MinesweeperAI.deref ai0 r1 = small →
         (∃ r2, r2 ∈ l2 ∧ MinesweeperAI.deref ai0 r2 = big) → ch' = true).
Proof.
  intros Hst0. revert ai ch.
  induction l2 as [|r2 l2 IH]; intros ai ch Hst Hpre Hk Hr1 Hl2.
  - right. exists ai, ch. split_and!; try done.
    intros _ (r2 & Hr2 & _). by apply elem_of_nil in Hr2.
  - cbn [foldM].
    destruct (stuck_step fuel r1 r2 ai ch Hst) as [->|(ai1 & ch1 & -> & Hst1
        & Hpre1 & Hk1 & Hch1 & Hhit1)]; [apply Hk, Hr1|apply Hk, Hl2; by left| |].
    { by left. }
    cbn [mbind result_bind].
    destruct (IH ai1 ch1) as [->|(ai2 & ch2 & -> & Hst2 & Hpre2 & Hk2 & Hch2
        & Hhit2)]; try done.
    + by etrans.
    + auto.
    + intros r Hr. apply Hl2. by right.
    + by left.
    + right. exists ai2, ch2. split_and!; try done; [auto|].
      intros Hs (r & [->|Hr]%elem_of_cons & Hb).
      * apply Hch2, Hhit1.
        -- by rewrite (prefix_deref ai0).
        -- rewrite (prefix_deref ai0) by (done || (apply Hl2; by left)). done.
      * apply Hhit2; [done|]. by exists r.
Qed.

Lemma stuck_outer fuel ai0 l1 ai ch :
  stuck ai0 → stuck ai →
  MinesweeperAI.heap ai0 `prefix_of` MinesweeperAI.heap ai →
  (∀ r, r ∈ MinesweeperAI.knowledge ai0 → r ∈ MinesweeperAI.knowledge ai) →
  (∀ r, r ∈ l1 → r ∈ MinesweeperAI.knowledge ai0) →
  foldM (λ acc r1, foldM (MinesweeperAI.inference_step fuel r1) acc
                         (MinesweeperAI.knowledge ai0)) (ai, ch) l1
  = OutOfFuel
  ∨ ∃ ai' ch',
      foldM (λ acc r1, foldM (MinesweeperAI.inference_step fuel r1) acc
                             (MinesweeperAI.knowledge ai0)) (ai, ch) l1
      = Ok (ai', ch')
      ∧ stuck ai'
      ∧ MinesweeperAI.heap ai0 `prefix_of` MinesweeperAI.heap ai'
      ∧ (∀ r, r ∈ MinesweeperAI.knowledge ai0 → r ∈ MinesweeperAI.knowledge ai')
      ∧ (ch = true → ch' = true)
      ∧ ((∃ r1, r1 ∈ l1 ∧ MinesweeperAI.deref ai0 r1 = small) →
         (∃ r2, r2 ∈ MinesweeperAI.knowledge ai0
                ∧ MinesweeperAI.deref ai0 r2 = big) → ch' = true).
Proof.
  intros Hst0. revert ai ch.
  induction l1 as [|r1 l1 IH]; intros ai ch Hst Hpre Hk Hl1.
  - right. exists ai, ch. split_and!; try done.
    intros (r1 & Hr1 & _). by apply elem_of_nil in Hr1.
  - cbn [foldM].
    destruct (stuck_inner fuel ai0 r1 (MinesweeperAI.knowledge ai0) ai ch)
      as [->|(ai1 & ch1 & -> & Hst1 & Hpre1 & Hk1 & Hch1 & Hhit1)]; try done.
    { apply Hl1. by left. }
    { by left. }
    cbn [mbind result_bind].
    destruct (IH ai1 ch1) as [->|(ai2 & ch2 & -> & Hst2 & Hpre2 & Hk2 & Hch2
        & Hhit2)]; try done.
    + intros r Hr. apply Hl1. by right.
    + by left.
    + right. exists ai2, ch2. split_and!; try done; [auto|].
      intros (r & [->|Hr]%elem_of_cons & Hs) Hb.
      * apply Hch2, Hhit1; done.
      * apply Hhit2; [|done]. by exists r.
Qed.

Lemma stuck_inference_update fuel ai :
  stuck ai →
  (∃ r1, r1 ∈ MinesweeperAI.knowledge ai ∧ MinesweeperAI.deref ai r1 = small) →
  (∃ r2, r2 ∈ MinesweeperAI.knowledge ai ∧ MinesweeperAI.deref ai r2 = big) →
  MinesweeperAI.inference_update fuel ai = OutOfFuel.
Proof.
  revert ai. induction fuel as [|fuel IH]; intros ai Hst Hs Hb; [done|].
  cbn [MinesweeperAI.inference_update]. unfold MinesweeperAI.inference_pass.
  destruct (stuck_outer fuel ai (MinesweeperAI.knowledge ai) ai false)
    as [->|(ai1 & ch1 & -> & Hst1 & Hpre1 & Hk1 & _ & Hhit1)]; try done.
  cbn [mbind result_bind]. rewrite (Hhit1 Hs Hb).
  destruct Hs as (r1 & Hr1 & Hs), Hb as (r2 & Hr2 & Hb).
  apply IH; [done| |].
  - exists r1. split; [auto|]. by rewrite (prefix_deref ai).
  - exists r2. split; [auto|]. by rewrite (prefix_deref ai).
Qed.

(** C1 (the code does not do what the claim says): on an 8 x 8 board,
    after add_knowledge((0, 0), 1), the call add_knowledge((1, 1), 2) runs
    out of every amount of fuel: its inference_update loop sets [change] in
    every pass, since the sentence over {(0,1), (1,0)} stays a proper subset
    of the sentence over the seven neighbours of (1, 1). *)
Theorem add_knowledge_diverges fuel :
  MinesweeperAI.add_knowledge 2 (0, 0) 1 (MinesweeperAI.init 8 8) = Ok ai_corner
  ∧ MinesweeperAI.add_knowledge fuel (1, 1) 2 ai_corner = OutOfFuel.
Proof.
  split; [apply ai_corner_run|].
  rewrite add_knowledge_ingest, ingest_stuck.
  assert (stuck ai_stuck) as Hst.
  { intros r Hr. simpl in Hr.
    apply elem_of_cons in Hr as [->|Hr]; [exists small; auto|].
    apply list_elem_of_singleton in Hr as ->. exists big. auto. }
  destruct fuel as [|fuel]; [done|].
  rewrite stuck_trivial_update by done. cbn [mbind result_bind].
  apply stuck_inference_update; [done| |].
  - exists 0%nat. split; [simpl; set_solver|done].
  - exists 1%nat. split; [simpl; set_solver|done].
Qed.

(** * Further properties of the engine *)

(** ** No exception, and termination of trivial resolution *)

Lemma foldM_no_raise {A B : Type} (f : A → B → result A) (l : list B) acc e :
  (∀ a x e', f a x ≠ Raise e') → foldM f acc l ≠ Raise e.
Proof.
  intros Hf. revert acc. induction l as [|x l IH]; intros acc; [done|].
  cbn [foldM]. destruct (f acc x) as [a|e'|] eqn:Hfx; simpl; [apply IH| |done].
  by destruct (Hf acc x e').
Qed.

Lemma trivial_update_no_raise fuel ai e :
  MinesweeperAI.trivial_update fuel ai ≠ Raise e.
Proof.
  revert ai. induction fuel as [|fuel IH]; intros ai; [done|].
  destruct (trivial_pass_total ai) as (ai1 & ch & Hpass & _).
  simpl. rewrite Hpass. simpl. destruct ch; [apply IH|done].
Qed.

Lemma inference_step_no_raise fuel r1 acc r2 e :
  MinesweeperAI.inference_step fuel r1 acc r2 ≠ Raise e.
Proof.
  destruct acc as [ai ch]. unfold MinesweeperAI.inference_step.
  repeat case_decide; try done.
  destruct (MinesweeperAI.trivial_update fuel _) as [a|e'|] eqn:Ht; try done.
  by apply trivial_update_no_raise in Ht.
Qed.

Lemma inference_update_no_raise fuel ai e :
  MinesweeperAI.inference_update fuel ai ≠ Raise e.
Proof.
  revert ai. induction fuel as [|fuel IH]; intros ai; [done|].
  cbn [MinesweeperAI.inference_update].
  destruct (MinesweeperAI.inference_pass fuel ai) as [[ai1 ch]|e'|] eqn:Hp;
    simpl; [destruct ch; [apply IH|done]| |done].
  revert Hp. unfold MinesweeperAI.inference_pass. intros Hp. exfalso.
  revert Hp. apply foldM_no_raise. intros a r1 e''.
  apply foldM_no_raise. intros a' r2 e3. apply inference_step_no_raise.
Qed.

(** ** Ingesting an observation twice *)

Lemma add_knowledge_no_raise fuel cell count ai e :
  MinesweeperAI.add_knowledge fuel cell count ai ≠ Raise e.
Proof.
  rewrite add_knowledge_ingest.
  destruct (MinesweeperAI.trivial_update fuel _) as [a|e'|] eqn:Ht; simpl.
  - apply inference_update_no_raise.
  - by apply trivial_update_no_raise in Ht.
  - done.
Qed.

(** C4 (as the code behaves): add_knowledge on a cell that is already in
    moves_made is not rejected: it raises nothing; and when the call
    returns, moves_made is what it was and safes and mines have lost no
    cell. *)
Theorem add_knowledge_again fuel c n ai :
  c ∈ MinesweeperAI.moves_made ai →
  (∀ e, MinesweeperAI.add_knowledge fuel c n ai ≠ Raise e)
  ∧ ∀ ai', MinesweeperAI.add_knowledge fuel c n ai = Ok ai' →
      MinesweeperAI.moves_made ai' = MinesweeperAI.moves_made ai
      ∧ MinesweeperAI.safes ai ⊆ MinesweeperAI.safes ai'
      ∧ MinesweeperAI.mines ai ⊆ MinesweeperAI.mines ai'.
Proof.
  intros Hc. split; [intros e; apply add_knowledge_no_raise|].
  intros ai' Hrun. split.
  - revert Hrun.
    apply (P_add_knowledge
             (λ a, MinesweeperAI.moves_made a = MinesweeperAI.moves_made ai));
      simpl; try done.
    set_solver.
  - apply grows_add_knowledge in Hrun as (_ & _ & _ & ? & ?). done.
Qed.

Lemma add_knowledge_again_witness :
  (∀ e, MinesweeperAI.add_knowledge 2 (0, 0) 1 ai_corner ≠ Raise e)
  ∧ ∃ ai',
      MinesweeperAI.add_knowledge 2 (0, 0) 1 ai_corner = Ok ai'
      ∧ MinesweeperAI.moves_made ai' = MinesweeperAI.moves_made ai_corner
      ∧ MinesweeperAI.safes ai_corner ⊆ MinesweeperAI.safes ai'
      ∧ MinesweeperAI.mines ai_corner ⊆ MinesweeperAI.mines ai'.
Proof.
  assert ((0, 0) ∈ MinesweeperAI.moves_made ai_corner) as Hc
    by (vm_compute; set_solver).
  pose proof (add_knowledge_again 2 (0, 0) 1 ai_corner Hc) as [Hno Hret].
  split; [exact Hno|].
  eexists. split; [vm_compute; reflexivity|].
  apply Hret. vm_compute. reflexivity.
Defined.

(** C4 (as stated) fails: the second add_knowledge((0, 0), 1) returns and
    has stored the sentence once more. *)
Lemma add_knowledge_again_not_noop :
  (0, 0) ∈ MinesweeperAI.moves_made ai_corner
  ∧ ∃ ai', MinesweeperAI.add_knowledge 2 (0, 0) 1 ai_corner = Ok ai'
           ∧ view ai' ≠ view ai_corner.
Proof.
  split; [set_solver|]. eexists. split; [vm_compute; reflexivity|].
  intros Heq. apply (f_equal (λ v, length v.2)) in Heq.
  vm_compute in Heq. discriminate.
Qed.

(** ** Termination of trivial resolution, for every engine *)

(** No sentence object gains a cell in trivial resolution. *)
Lemma trivial_update_shrinks fuel ai ai' :
  MinesweeperAI.trivial_update fuel ai = Ok ai' →
  ∀ r, Sentence.cells (MinesweeperAI.deref ai' r)
       ⊆ Sentence.cells (MinesweeperAI.deref ai r).
Proof.
  apply (P_trivial_update
           (λ a, ∀ r, Sentence.cells (MinesweeperAI.deref a r)
                      ⊆ Sentence.cells (MinesweeperAI.deref ai r))); [..|done].
  - intros c a Ha r. rewrite mark_mine_as_set, deref_mark_mines.
    specialize (Ha r). case_decide; [|done]. simpl. set_solver.
  - intros c a Ha r. rewrite mark_safe_as_set, deref_mark_safes.
    specialize (Ha r). case_decide; [|done]. simpl. set_solver.
  - intros k a Ha r. apply Ha.
Qed.

(** X1: for every engine, whatever its sets and its knowledge base,
    trivial_update returns once it is given more fuel than stored sentences
    have cells; it raises nothing (list.remove always finds its argument),
    no sentence object gains a cell (each keeps a subset of the cells it
    had), and moves_made, mines and safes only grow. *)
Theorem trivial_update_terminates fuel ai :
  (weight ai < fuel)%nat →
  ∃ ai', MinesweeperAI.trivial_update fuel ai = Ok ai'
         ∧ (weight ai' ≤ weight ai)%nat
         ∧ (∀ r, Sentence.cells (MinesweeperAI.deref ai' r)
                 ⊆ Sentence.cells (MinesweeperAI.deref ai r))
         ∧ grows ai ai'.
Proof.
  intros Hfuel. destruct (trivial_update_total fuel ai Hfuel) as (ai' & Hrun & Hw).
  exists ai'. split_and!; [done|done|by eapply trivial_update_shrinks|].
  revert Hrun.
  apply (P_trivial_update (grows ai)); [..|apply grows_refl].
  - intros c' a Ha. eapply grows_trans; [done|]. repeat split; simpl; set_solver.
  - intros c' a Ha. eapply grows_trans; [done|]. repeat split; simpl; set_solver.
  - intros k a Ha. eapply grows_trans; [done|]. by repeat split.
Qed.

Lemma trivial_update_terminates_witness :
  ∃ ai', MinesweeperAI.trivial_update 5 ai_two_mines = Ok ai'
         ∧ (weight ai' ≤ weight ai_two_mines)%nat
         ∧ (∀ r, Sentence.cells (MinesweeperAI.deref ai' r)
                 ⊆ Sentence.cells (MinesweeperAI.deref ai_two_mines r))
         ∧ grows ai_two_mines ai'.
Proof. apply (trivial_update_terminates 5 ai_two_mines). vm_compute. lia. Defined.

(** X2: when trivial_update returns, every sentence left in the knowledge
    base has at least one cell, a count other than 0 and a count other than
    its number of cells. *)
Theorem trivial_update_leaves_open_sentences fuel ai ai' :
  MinesweeperAI.trivial_update fuel ai = Ok ai' →
  ∀ s, s ∈ MinesweeperAI.kb ai' →
    Sentence.cells s ≠ ∅ ∧ Sentence.count s ≠ 0
    ∧ Sentence.count s ≠ Sentence.len s.
Proof.
  intros Hrun s (r & -> & Hr)%list_elem_of_fmap.
  apply trivial_branch_Keep. by eapply trivial_update_exit.
Qed.

Lemma trivial_update_leaves_open_sentences_witness :
  Sentence.cells (Sentence.mk {[(0, 1); (1, 0)]} 1) ≠ ∅
  ∧ Sentence.count (Sentence.mk {[(0, 1); (1, 0)]} 1) ≠ 0
  ∧ Sentence.count (Sentence.mk {[(0, 1); (1, 0)]} 1)
    ≠ Sentence.len (Sentence.mk {[(0, 1); (1, 0)]} 1).
Proof.
  apply (trivial_update_leaves_open_sentences 1
           (MinesweeperAI.mark_safe (1, 1) ai_corner)
           (MinesweeperAI.mark_safe (1, 1) ai_corner)).
  - vm_compute. reflexivity.
  - vm_compute. left.
Defined.

(** X3: add_knowledge raises no exception, whatever the engine, the cell
    and the count: the only operation that can raise, list.remove in
    trivial_update, always finds the sentence it is to remove. *)
Theorem add_knowledge_no_exception fuel cell count ai e :
  MinesweeperAI.add_knowledge fuel cell count ai ≠ Raise e.
Proof.
  rewrite add_knowledge_ingest.
  destruct (MinesweeperAI.trivial_update fuel _) as [a|e'|] eqn:Ht; simpl.
  - apply inference_update_no_raise.
  - by apply trivial_update_no_raise in Ht.
  - done.
Qed.

(** ** Marking a set of cells at once *)

(** X4: the loops [for cell in cells: self.mark_mine(cell)] and
    [... self.mark_safe(cell)] do not depend on the order in which the set
    is enumerated: the cells join mines (resp. safes), every listed
    sentence loses them, and for mines its count drops by the number of
    cells it lost. *)
Theorem mark_all_closed_form (l : list Cell) ai :
  (MinesweeperAI.mines (mark_mine_list l ai)
   = list_to_set l ∪ MinesweeperAI.mines ai
   ∧ MinesweeperAI.safes (mark_mine_list l ai) = MinesweeperAI.safes ai
   ∧ MinesweeperAI.moves_made (mark_mine_list l ai)
     = MinesweeperAI.moves_made ai
   ∧ MinesweeperAI.kb (mark_mine_list l ai)
     = resolve_mines (list_to_set l) <$> MinesweeperAI.kb ai)
  ∧ (MinesweeperAI.safes (mark_safe_list l ai)
     = list_to_set l ∪ MinesweeperAI.safes ai
     ∧ MinesweeperAI.mines (mark_safe_list l ai) = MinesweeperAI.mines ai
     ∧ MinesweeperAI.moves_made (mark_safe_list l ai)
       = MinesweeperAI.moves_made ai
     ∧ MinesweeperAI.kb (mark_safe_list l ai)
       = resolve_safes (list_to_set l) <$> MinesweeperAI.kb ai).
Proof.
  split.
  - destruct (mark_mine_list_frame l ai) as (_ & _ & Hmv & Hm & Hs & Hk).
    split_and!; try done. unfold MinesweeperAI.kb. rewrite Hk, <- list_fmap_compose.
    apply list_fmap_ext. intros i r Hr. simpl. unfold MinesweeperAI.deref.
    rewrite mark_mine_list_heap, decide_True by by eapply list_elem_of_lookup_2.
    destruct (MinesweeperAI.heap ai !! r); simpl; [done|].
    unfold resolve_mines. simpl. f_equal; [set_solver|].
    replace (∅ ∩ list_to_set l) with (∅ : gset Cell) by set_solver.
    by rewrite size_empty.
  - destruct (mark_safe_list_frame l ai) as (_ & _ & Hmv & Hm & Hs & Hk).
    split_and!; try done. unfold MinesweeperAI.kb. rewrite Hk, <- list_fmap_compose.
    apply list_fmap_ext. intros i r Hr. simpl. unfold MinesweeperAI.deref.
    rewrite mark_safe_list_heap, decide_True by by eapply list_elem_of_lookup_2.
    destruct (MinesweeperAI.heap ai !! r); simpl; [done|].
    unfold resolve_safes. simpl. f_equal. set_solver.
Qed.

(** ** Sentences and the boards they are true of *)

(** X5: for a sentence that is true of a mine placement, known_mines
    returns only mines of that placement and known_safes returns no mine of
    it. *)
Theorem known_cells_sound board s :
  true_of board s →
  Sentence.known_mines s ⊆ board ∧ Sentence.known_safes s ## board.
Proof.
  intros Ht. unfold Sentence.known_mines, Sentence.known_safes. split.
  - case_decide; [|set_solver]. by apply true_of_all_mines.
  - case_decide; [|set_solver]. by apply true_of_all_safe.
Qed.

Lemma known_cells_sound_witness :
  Sentence.known_mines (Sentence.mk {[(0, 0); (0, 1)]} 2)
    ⊆ {[(0, 0); (0, 1); (5, 5)]}
  ∧ Sentence.known_safes (Sentence.mk {[(0, 0); (0, 1)]} 2)
      ## {[(0, 0); (0, 1); (5, 5)]}.
Proof.
  apply (known_cells_sound {[(0, 0); (0, 1); (5, 5)]}
           (Sentence.mk {[(0, 0); (0, 1)]} 2)).
  vm_compute. reflexivity.
Defined.

(** X6: Sentence.mark_mine on a cell that is a mine, and Sentence.mark_safe
    on a cell that is not, turn a sentence that is true of the placement
    into one that is true of it; and for two true sentences with
    S1.cells a subset of S2.cells, the sentence
    (S2.cells - S1.cells, S2.count - S1.count) of subset inference is
    true. *)
Theorem sentence_updates_keep_truth board s1 s2 c :
  true_of board s1 → true_of board s2 →
  (c ∈ board → true_of board (Sentence.mark_mine c s1))
  ∧ (c ∉ board → true_of board (Sentence.mark_safe c s1))
  ∧ (Sentence.cells s1 ⊆ Sentence.cells s2 →
     true_of board (MinesweeperAI.derive s1 s2)).
Proof.
  intros H1 H2. split_and!.
  - intros Hc. pose proof (foldl_Sentence_mark_mine [c] s1) as Heq.
    cbn [foldl] in Heq. rewrite Heq.
    apply true_of_resolve_mines; [|done]. set_solver.
  - intros Hc. pose proof (foldl_Sentence_mark_safe [c] s1) as Heq.
    cbn [foldl] in Heq. rewrite Heq.
    apply true_of_resolve_safes; [|done]. set_solver.
  - by apply true_of_derive.
Qed.

Lemma sentence_updates_keep_truth_witness :
  ((0, 0) ∈ ({[(0, 0); (0, 2)]} : gset Cell) →
   true_of {[(0, 0); (0, 2)]}
     (Sentence.mark_mine (0, 0) (Sentence.mk {[(0, 0); (0, 1)]} 1)))
  ∧ ((0, 0) ∉ ({[(0, 0); (0, 2)]} : gset Cell) →
     true_of {[(0, 0); (0, 2)]}
       (Sentence.mark_safe (0, 0) (Sentence.mk {[(0, 0); (0, 1)]} 1)))
  ∧ (Sentence.cells (Sentence.mk {[(0, 0); (0, 1)]} 1)
       ⊆ Sentence.cells (Sentence.mk {[(0, 0); (0, 1); (0, 2)]} 2) →
     true_of {[(0, 0); (0, 2)]}
       (MinesweeperAI.derive (Sentence.mk {[(0, 0); (0, 1)]} 1)
                             (Sentence.mk {[(0, 0); (0, 1); (0, 2)]} 2))).
Proof.
  apply (sentence_updates_keep_truth {[(0, 0); (0, 2)]}
           (Sentence.mk {[(0, 0); (0, 1)]} 1)
           (Sentence.mk {[(0, 0); (0, 1); (0, 2)]} 2) (0, 0));
    vm_compute; reflexivity.
Defined.

(** ** The random-move query *)

Lemma elem_of_all_cells ai c :
  c ∈ MinesweeperAI.all_cells ai ↔ on_board ai c.
Proof.
  unfold MinesweeperAI.all_cells, on_board, range. rewrite elem_of_list_to_set.
  rewrite list_elem_of_bind. split.
  - intros (i & Hc & Hi). apply list_elem_of_bind in Hc as (j & Hc & Hj).
    apply list_elem_of_singleton in Hc as ->.
    apply elem_of_seqZ in Hi, Hj. simpl. lia.
  - intros [Hi Hj]. exists c.1. split; [|apply elem_of_seqZ; lia].
    apply list_elem_of_bind. exists c.2. split; [|apply elem_of_seqZ; lia].
    destruct c. simpl. by apply list_elem_of_singleton.
Qed.

Lemma sample_first_ok : sample_ok sample_first.
Proof. intros [|c l] Hl; [done|]. simpl. by left. Qed.

(** X7: make_random_move leaves the engine as it is; a cell it returns is
    on the board, not in moves_made and not in mines; it returns None only
    when every cell of the board is in moves_made or in mines. *)
Theorem make_random_move_spec sample ai :
  sample_ok sample →
  (MinesweeperAI.make_random_move sample ai).2 = ai
  ∧ match (MinesweeperAI.make_random_move sample ai).1 with
    | Some c =>
        on_board ai c ∧ (c ∉ MinesweeperAI.moves_made ai)
        ∧ (c ∉ MinesweeperAI.mines ai)
    | None =>
        ∀ c, on_board ai c →
             c ∈ MinesweeperAI.moves_made ai ∨ c ∈ MinesweeperAI.mines ai
    end.
Proof.
  intros Hsample. unfold MinesweeperAI.make_random_move.
  set (cs := MinesweeperAI.all_cells ai ∖ MinesweeperAI.moves_made ai
             ∖ MinesweeperAI.mines ai).
  destruct (decide (size cs ≠ 0%nat)) as [Hsz|Hsz]; simpl; (split; [done|]).
  - assert (sample (elements cs) ∈ cs) as Hin.
    { apply elem_of_elements, Hsample. intros He.
      apply Hsz. unfold size, set_size. simpl. by rewrite He. }
    unfold cs in Hin. rewrite !elem_of_difference, elem_of_all_cells in Hin.
    naive_solver.
  - intros c Hc. apply dec_stable in Hsz. apply size_empty_inv in Hsz.
    apply elem_of_all_cells in Hc.
    destruct (decide (c ∈ MinesweeperAI.moves_made ai)); [by left|].
    destruct (decide (c ∈ MinesweeperAI.mines ai)); [by right|].
    exfalso. assert (c ∈ cs) by (unfold cs; set_solver). set_solver.
Qed.

Lemma make_random_move_spec_witness :
  (MinesweeperAI.make_random_move sample_first ai_corner).2 = ai_corner
  ∧ match (MinesweeperAI.make_random_move sample_first ai_corner).1 with
    | Some c =>
        on_board ai_corner c ∧ (c ∉ MinesweeperAI.moves_made ai_corner)
        ∧ (c ∉ MinesweeperAI.mines ai_corner)
    | None =>
        ∀ c, on_board ai_corner c →
             c ∈ MinesweeperAI.moves_made ai_corner
             ∨ c ∈ MinesweeperAI.mines ai_corner
    end.
Proof. apply (make_random_move_spec sample_first ai_corner sample_first_ok). Defined.

(** * The game *)

(** ** The 3 x 3 block around a cell *)

Lemma elem_of_neighbourhood cell c :
  c ∈ MinesweeperAI.neighbourhood cell
  ↔ (cell.1 - 1 ≤ c.1 ≤ cell.1 + 1) ∧ (cell.2 - 1 ≤ c.2 ≤ cell.2 + 1).
Proof.
  unfold MinesweeperAI.neighbourhood, range. rewrite list_elem_of_bind. split.
  - intros (i & Hc & Hi). apply list_elem_of_bind in Hc as (j & Hc & Hj).
    apply list_elem_of_singleton in Hc as ->.
    apply elem_of_seqZ in Hi, Hj. simpl. lia.
  - intros [Hi Hj]. exists c.1. split; [|apply elem_of_seqZ; lia].
    apply list_elem_of_bind. exists c.2. split; [|apply elem_of_seqZ; lia].
    destruct c. simpl. by apply list_elem_of_singleton.
Qed.

Lemma NoDup_neighbourhood cell : NoDup (MinesweeperAI.neighbourhood cell).
Proof.
  unfold MinesweeperAI.neighbourhood, range.
  apply NoDup_bind; [| |apply NoDup_seqZ].
  - intros i1 i2 c _ _ H1 H2.
    apply list_elem_of_bind in H1 as (j1 & H1 & _).
    apply list_elem_of_bind in H2 as (j2 & H2 & _).
    apply list_elem_of_singleton in H1, H2. congruence.
  - intros i _. apply NoDup_bind; [| |apply NoDup_seqZ].
    + intros j1 j2 c _ _ H1 H2. apply list_elem_of_singleton in H1, H2.
      congruence.
    + intros j _. apply NoDup_singleton.
Qed.

Lemma length_neighbourhood cell :
  length (MinesweeperAI.neighbourhood cell) = 9%nat.
Proof.
  unfold MinesweeperAI.neighbourhood, range.
  replace (cell.1 + 2 - (cell.1 - 1)) with 3 by lia.
  replace (cell.2 + 2 - (cell.2 - 1)) with 3 by lia.
  unfold seqZ. reflexivity.
Qed.

(** ** The field *)

Lemma py_index_nonneg {A : Type} (l : list A) (i : Z) :
  0 ≤ i → Minesweeper.py_index l i = l !! Z.to_nat i.
Proof. intros Hi. unfold Minesweeper.py_index. by rewrite decide_True. Qed.

Lemma py_set_index_nonneg {A : Type} (l : list A) (i : Z) (x : A) :
  0 ≤ i → i < Z.of_nat (length l) →
  Minesweeper.py_set_index l i x = Some (<[Z.to_nat i := x]> l).
Proof.
  intros Hi Hlt. unfold Minesweeper.py_set_index. by rewrite !decide_True.
Qed.

Lemma field_ok_row h w ms b (c : Cell) :
  field_ok h w ms b → (0 ≤ c.1 < h) → (0 ≤ c.2 < w) →
  ∃ row, b !! Z.to_nat c.1 = Some row
         ∧ length row = Z.to_nat w
         ∧ row !! Z.to_nat c.2 = Some (bool_decide (c ∈ ms)).
Proof.
  intros (Hlen & Hrows & _) Hi Hj.
  destruct (lookup_lt_is_Some_2 b (Z.to_nat c.1)) as [row Hrow]; [lia|].
  destruct (Hrows _ _ Hrow) as [Hw Hcells].
  destruct (lookup_lt_is_Some_2 row (Z.to_nat c.2)) as [x Hx]; [lia|].
  exists row. split_and!; try done. rewrite Hx. f_equal.
  rewrite (Hcells _ _ Hx), !Z2Nat.id by lia. by destruct c.
Qed.

Lemma field_ok_get h w ms b c :
  field_ok h w ms b → (0 ≤ c.1 < h) → (0 ≤ c.2 < w) →
  Minesweeper.board_get b c = Minesweeper.Done (bool_decide (c ∈ ms)).
Proof.
  intros Hok Hi Hj. destruct (field_ok_row h w ms b c) as (row & Hrow & _ & Hx);
    try done.
  unfold Minesweeper.board_get. rewrite !py_index_nonneg by lia.
  by rewrite Hrow, py_index_nonneg, Hx by lia.
Qed.

Lemma field_ok_empty h w : field_ok h w ∅ (Minesweeper.empty_board h w).
Proof.
  unfold Minesweeper.empty_board, range. split_and!.
  - rewrite length_fmap, length_seqZ. f_equal. lia.
  - intros i row Hrow. rewrite list_lookup_fmap in Hrow.
    destruct (seqZ 0 (h - 0) !! i); [|done]. injection Hrow as <-.
    split; [rewrite length_fmap, length_seqZ; f_equal; lia|].
    intros j x Hx. rewrite list_lookup_fmap in Hx.
    destruct (seqZ 0 (w - 0) !! j); [|done]. injection Hx as <-.
    by rewrite bool_decide_eq_false_2.
  - intros c Hc. by apply elem_of_empty in Hc.
Qed.

Lemma field_ok_set h w ms b c :
  field_ok h w ms b → (0 ≤ c.1 < h) → (0 ≤ c.2 < w) →
  ∃ b', Minesweeper.board_set b c = Minesweeper.Done b'
        ∧ field_ok h w ({[c]} ∪ ms) b'.
Proof.
  intros Hok Hi Hj.
  destruct (field_ok_row h w ms b c) as (row & Hrow & Hw & Hx); try done.
  destruct Hok as (Hlen & Hrows & Hms).
  unfold Minesweeper.board_set. rewrite py_index_nonneg, Hrow by lia.
  rewrite !py_set_index_nonneg by lia. eexists. split; [done|].
  split_and!.
  - by rewrite length_insert.
  - intros i row' Hrow'.
    destruct (decide (i = Z.to_nat c.1)) as [->|Hne].
    + rewrite list_lookup_insert_eq in Hrow' by lia. injection Hrow' as <-.
      split; [by rewrite length_insert|]. intros j x Hjx.
      destruct (decide (j = Z.to_nat c.2)) as [->|Hnej].
      * rewrite list_lookup_insert_eq in Hjx by lia. injection Hjx as <-.
        symmetry. apply bool_decide_eq_true_2. rewrite !Z2Nat.id by lia.
        destruct c. set_solver.
      * rewrite list_lookup_insert_ne in Hjx by done.
        destruct (Hrows _ _ Hrow) as [_ Hcells]. rewrite (Hcells _ _ Hjx).
        apply bool_decide_ext. rewrite Z2Nat.id by lia.
        assert ((c.1, Z.of_nat j) ≠ c) by (destruct c; simpl in *; intros [=]; lia).
        set_solver.
    + rewrite list_lookup_insert_ne in Hrow' by done.
      destruct (Hrows _ _ Hrow') as [Hw' Hcells]. split; [done|].
      intros j x Hjx. rewrite (Hcells _ _ Hjx). apply bool_decide_ext.
      assert ((Z.of_nat i, Z.of_nat j) ≠ c)
        by (destruct c; simpl in *; intros [=]; lia).
      set_solver.
  - intros c' [Hc'|Hc']%elem_of_union; [|by apply Hms].
    apply elem_of_singleton in Hc' as ->. done.
Qed.

Lemma field_ok_agrees g :
  field_ok (Minesweeper.height g) (Minesweeper.width g)
           (Minesweeper.mines g) (Minesweeper.board g) →
  agrees g.
Proof.
  intros Hok. split.
  - intros c [Hi Hj]. by eapply field_ok_get.
  - intros c Hc. destruct Hok as (_ & _ & Hms). by apply Hms.
Qed.

Lemma place_mines_spec draws h w n g :
  Minesweeper.height g = h → Minesweeper.width g = w →
  field_ok h w (Minesweeper.mines g) (Minesweeper.board g) →
  match Minesweeper.place_mines draws h w n g with
  | Minesweeper.Done g' =>
      Minesweeper.height g' = h ∧ Minesweeper.width g' = w
      ∧ Minesweeper.mines_found g' = Minesweeper.mines_found g
      ∧ Z.of_nat (size (Minesweeper.mines g')) = n
      ∧ Minesweeper.mines g ⊆ Minesweeper.mines g'
      ∧ field_ok h w (Minesweeper.mines g') (Minesweeper.board g')
  | Minesweeper.Fail e =>
      e = Minesweeper.OutOfDraws
      ∨ (e = Minesweeper.ValueError ∧ (h ≤ 0 ∨ w ≤ 0))
  end.
Proof.
  revert g. induction draws as [|d draws IH]; intros g Hh Hw Hok; simpl.
  - case_decide as Hn; [by left|done].
  - case_decide as Hn; [|done].
    unfold Minesweeper.randrange.
    destruct (decide (0 < h)) as [Hhpos|]; simpl; [|right; split; [done|lia]].
    destruct (decide (0 < w)) as [Hwpos|]; simpl; [|right; split; [done|lia]].
    pose proof (Z.mod_pos_bound d.1 h Hhpos) as Hi.
    pose proof (Z.mod_pos_bound d.2 w Hwpos) as Hj.
    rewrite (field_ok_get h w (Minesweeper.mines g)) by done. simpl.
    case_bool_decide as Hmine; [by apply IH|].
    destruct (field_ok_set h w (Minesweeper.mines g) (Minesweeper.board g)
                (d.1 `mod` h, d.2 `mod` w)) as (b' & -> & Hok'); try done.
    simpl. specialize (IH (Minesweeper.mk (Minesweeper.height g)
      (Minesweeper.width g) ({[(d.1 `mod` h, d.2 `mod` w)]} ∪ Minesweeper.mines g)
      b' (Minesweeper.mines_found g)) Hh Hw Hok').
    destruct (Minesweeper.place_mines _ _ _ _ _) as [g'|e]; [|done].
    simpl in IH. destruct IH as (? & ? & ? & ? & ? & ?).
    split_and!; try done. set_solver.
Qed.

(** X8: Minesweeper(height, width, mines) never fails on a list index;
    when it returns, the game has the given size, no mine found yet,
    exactly [mines] mines, all of them on the field, and the field holds
    True exactly at the mines.  It fails on randrange when the field has no
    row or no column, and otherwise only when the random numbers are used
    up. *)
Theorem Minesweeper_init_spec draws h w n :
  match Minesweeper.init draws h w n with
  | Minesweeper.Done g =>
      Minesweeper.height g = h ∧ Minesweeper.width g = w
      ∧ Minesweeper.mines_found g = ∅
      ∧ Z.of_nat (size (Minesweeper.mines g)) = n
      ∧ field_ok h w (Minesweeper.mines g) (Minesweeper.board g)
      ∧ agrees g
  | Minesweeper.Fail e =>
      e = Minesweeper.OutOfDraws
      ∨ (e = Minesweeper.ValueError ∧ (h ≤ 0 ∨ w ≤ 0))
  end.
Proof.
  unfold Minesweeper.init.
  pose proof (place_mines_spec draws h w n
                (Minesweeper.mk h w ∅ (Minesweeper.empty_board h w) ∅)
                eq_refl eq_refl (field_ok_empty h w)) as Hspec.
  destruct (Minesweeper.place_mines _ _ _ _ _) as [g|e]; [|done].
  destruct Hspec as (Hh & Hw & Hf & Hn & _ & Hok).
  split_and!; try done. apply field_ok_agrees. by rewrite Hh, Hw.
Qed.

(** ** Counting the mines around a cell *)

Lemma nearby_loop_spec g cell l n :
  agrees g → NoDup l →
  Minesweeper.nearby_loop g cell n l
  = Minesweeper.Done
      (n + Z.of_nat
             (size (list_to_set (filter (λ c, c ≠ cell ∧ on_field g c) l)
                    ∩ Minesweeper.mines g))).
Proof.
  intros [Hget Hms]. revert n.
  induction l as [|c l IH]; intros n Hnd.
  - cbn [Minesweeper.nearby_loop]. rewrite filter_nil.
    replace (list_to_set [] ∩ Minesweeper.mines g) with (∅ : gset Cell)
      by set_solver.
    rewrite size_empty. f_equal. lia.
  - apply NoDup_cons in Hnd as [Hc Hnd]. cbn [Minesweeper.nearby_loop].
    unfold Minesweeper.nearby_step.
    destruct (decide (c = cell)) as [->|Hne]; simpl.
    { rewrite IH by done. rewrite filter_cons_False by naive_solver. done. }
    destruct (decide ((0 ≤ c.1 < Minesweeper.height g)
                      ∧ (0 ≤ c.2 < Minesweeper.width g))) as [Hon|Hoff]; simpl.
    + rewrite Hget by done. simpl. rewrite IH by done.
      rewrite filter_cons_True by done. rewrite list_to_set_cons. f_equal.
      set (S := list_to_set (filter (λ c0, c0 ≠ cell ∧ on_field g c0) l)
             : gset Cell).
      assert (c ∉ S) as HcS.
      { unfold S. rewrite elem_of_list_to_set, list_elem_of_filter. naive_solver. }
      case_bool_decide as Hmine.
      * replace (({[c]} ∪ S) ∩ Minesweeper.mines g)
          with ({[c]} ∪ S ∩ Minesweeper.mines g) by set_solver.
        rewrite (size_union (C:=gset Cell) {[c]}) by set_solver.
        rewrite size_singleton. lia.
      * replace (({[c]} ∪ S) ∩ Minesweeper.mines g)
          with (S ∩ Minesweeper.mines g) by set_solver.
        done.
    + rewrite IH by done. rewrite filter_cons_False; [done|].
      unfold on_field. naive_solver.
Qed.


Lemma game_corner_init :
  Minesweeper.init [(0, 0)] 3 3 1 = Minesweeper.Done game_corner.
Proof. vm_compute. reflexivity. Qed.

Lemma game_corner_agrees : agrees game_corner.
Proof.
  pose proof (place_mines_spec [(0, 0)] 3 3 1
                (Minesweeper.mk 3 3 ∅ (Minesweeper.empty_board 3 3) ∅)
                eq_refl eq_refl (field_ok_empty 3 3)) as Hspec.
  fold (Minesweeper.init [(0, 0)] 3 3 1) in Hspec.
  rewrite game_corner_init in Hspec. apply field_ok_agrees, Hspec.
Qed.


(** * Soundness of the engine *)

Lemma true_of_default board : true_of board (Sentence.mk ∅ 0).
Proof.
  unfold true_of. simpl.
  replace (∅ ∩ board) with (∅ : gset Cell) by set_solver. by rewrite size_empty.
Qed.

Lemma sound_mark_mines board cs ai :
  sound board ai → cs ⊆ board → sound board (MinesweeperAI.mark_mines cs ai).
Proof.
  intros (Ht & Hm & Hs & Hmv) Hcs. unfold sound.
  destruct (mark_mines_frame cs ai) as (_ & _ & -> & -> & -> & _).
  split_and!; [|set_solver|done|done].
  intros r. rewrite deref_mark_mines. case_decide; [|done].
  by apply true_of_resolve_mines.
Qed.

Lemma sound_mark_safes board cs ai :
  sound board ai → cs ## board → sound board (MinesweeperAI.mark_safes cs ai).
Proof.
  intros (Ht & Hm & Hs & Hmv) Hcs. unfold sound.
  destruct (mark_safes_frame cs ai) as (_ & _ & -> & -> & -> & _).
  split_and!; [|done|set_solver|done].
  intros r. rewrite deref_mark_safes. case_decide; [|done].
  by apply true_of_resolve_safes.
Qed.

Lemma sound_append board s ai :
  sound board ai → true_of board s → sound board (MinesweeperAI.append s ai).
Proof.
  intros (Ht & Hm & Hs & Hmv) Hts. split_and!; try done.
  intros r. unfold MinesweeperAI.deref. simpl.
  destruct ((MinesweeperAI.heap ai ++ [s]) !! r) as [s'|] eqn:Hr; simpl;
    [|apply true_of_default].
  apply lookup_app_Some in Hr as [Hr|[_ Hr]].
  - specialize (Ht r). unfold MinesweeperAI.deref in Ht. by rewrite Hr in Ht.
  - apply list_lookup_singleton_Some in Hr as [_ <-]. done.
Qed.

Lemma sound_classify board s ai :
  sound board ai → true_of board s →
  sound board (MinesweeperAI.classify s ai).
Proof.
  intros Hsound Hts. unfold MinesweeperAI.classify. repeat case_decide.
  - apply sound_mark_safes; [done|]. by apply true_of_all_safe.
  - apply sound_mark_mines; [done|]. by apply true_of_all_mines.
  - by apply sound_append.
Qed.

Lemma sound_trivial_update board fuel ai ai' :
  sound board ai → MinesweeperAI.trivial_update fuel ai = Ok ai' →
  sound board ai'.
Proof.
  apply (J_trivial_update board (sound board)).
  - intros a r (Ht & _) _. apply Ht.
  - intros cs a. apply sound_mark_mines.
  - intros cs a. apply sound_mark_safes.
  - intros a x k Ha _ _. exact Ha.
Qed.

Lemma sound_inference_step board fuel r1 acc r2 acc' :
  sound board acc.1 →
  MinesweeperAI.inference_step fuel r1 acc r2 = Ok acc' →
  sound board acc'.1.
Proof.
  destruct acc as [ai ch]. simpl. intros Hsound Hstep.
  repeat case_decide; try by injection Hstep as <-.
  apply bind_Ok_inv in Hstep as (ai1 & Htriv & Hret).
  injection Hret as <-. simpl.
  eapply sound_trivial_update; [|done]. apply sound_classify; [done|].
  destruct Hsound as (Ht & _). by apply true_of_derive.
Qed.

Lemma sound_inference_update board fuel ai ai' :
  sound board ai → MinesweeperAI.inference_update fuel ai = Ok ai' →
  sound board ai'.
Proof.
  revert ai. induction fuel as [|fuel IH]; intros ai Hsound Hrun; [done|].
  simpl in Hrun. apply bind_Ok_inv in Hrun as ([ai1 ch] & Hpass & Hrest).
  assert (sound board ai1) as Hsound1.
  { revert Hpass. unfold MinesweeperAI.inference_pass.
    apply (foldM_invariant (λ acc, sound board acc.1)); [|done].
    intros acc r1 acc1 _.
    apply (foldM_invariant (λ acc, sound board acc.1)).
    intros ????. apply sound_inference_step. }
  destruct ch; [by eapply IH | by injection Hrest as <-].
Qed.

(** The count that the scan of the neighbours leaves is the number of
    mines among the cells it stores, when the count it starts with is the
    number of mines among the neighbours on the board. *)
Lemma scan_neighbours_true board ai l X n :
  NoDup l →
  MinesweeperAI.mines ai ⊆ board → MinesweeperAI.safes ai ## board →
  MinesweeperAI.moves_made ai ## board →
  X ## list_to_set l →
  n - Z.of_nat (size (X ∩ board))
  = Z.of_nat (size (list_to_set (filter (on_board ai) l) ∩ board)) →
  (foldl (MinesweeperAI.scan_neighbour ai) (X, n) l).2
  = Z.of_nat (size ((foldl (MinesweeperAI.scan_neighbour ai) (X, n) l).1
                    ∩ board)).
Proof.
  intros Hnd Hm Hs Hmv. revert X n Hnd.
  induction l as [|c l IH]; intros X n Hnd HX Hn.
  - rewrite filter_nil in Hn.
    replace (list_to_set [] ∩ board) with (∅ : gset Cell) in Hn by set_solver.
    rewrite size_empty in Hn. simpl. lia.
  - apply NoDup_cons in Hnd as [Hc Hnd]. cbn [foldl].
    set (S := list_to_set (filter (on_board ai) l) : gset Cell) in *.
    assert (c ∉ S) as HcS.
    { unfold S. rewrite elem_of_list_to_set, list_elem_of_filter. naive_solver. }
    assert (c ∉ X) as HcX by set_solver.
    assert (X ## list_to_set l) as HX' by set_solver.
    unfold MinesweeperAI.scan_neighbour at 2 4.
    destruct (decide (c.1 < 0 ∨ c.2 < 0)) as [Hneg|Hpos].
    { apply IH; [done..|]. rewrite Hn, filter_cons_False; [done|].
      unfold on_board. lia. }
    destruct (decide (c.1 >= MinesweeperAI.height ai
                      ∨ c.2 >= MinesweeperAI.width ai)) as [Hbig|Hin].
    { apply IH; [done..|]. rewrite Hn, filter_cons_False; [done|].
      unfold on_board. lia. }
    assert (on_board ai c) as Hon by (unfold on_board; lia).
    rewrite filter_cons_True, list_to_set_cons in Hn by done. fold S in Hn.
    destruct (decide (c ∈ MinesweeperAI.moves_made ai)) as [Hmoved|Hnew].
    { apply IH; [done..|]. rewrite Hn. do 2 f_equal. set_solver. }
    destruct (decide (c ∈ MinesweeperAI.mines ai)) as [Hmine|Hnomine].
    { apply IH; [done..|].
      replace (({[c]} ∪ S) ∩ board) with ({[c]} ∪ S ∩ board) in Hn
        by set_solver.
      rewrite (size_union (C:=gset Cell) {[c]}), size_singleton in Hn
        by set_solver.
      lia. }
    destruct (decide (c ∈ MinesweeperAI.safes ai)) as [Hsafe|Hnosafe].
    { apply IH; [done..|]. rewrite Hn. do 2 f_equal. set_solver. }
    apply IH; [done|set_solver|].
    destruct (decide (c ∈ board)) as [Hb|Hb].
    + replace (({[c]} ∪ S) ∩ board) with ({[c]} ∪ S ∩ board) in Hn
        by set_solver.
      replace (({[c]} ∪ X) ∩ board) with ({[c]} ∪ X ∩ board) by set_solver.
      rewrite (size_union (C:=gset Cell) {[c]}), size_singleton in Hn
        by set_solver.
      rewrite (size_union (C:=gset Cell) {[c]}), size_singleton by set_solver.
      lia.
    + replace (({[c]} ∪ S) ∩ board) with (S ∩ board) in Hn by set_solver.
      replace (({[c]} ∪ X) ∩ board) with (X ∩ board) by set_solver.
      done.
Qed.

Lemma is_mine_false g cell :
  agrees g → Minesweeper.is_mine g cell = Minesweeper.Done false →
  cell ∉ Minesweeper.mines g.
Proof.
  intros [Hget Hms] His Hin. unfold Minesweeper.is_mine in His.
  rewrite (Hget cell (Hms cell Hin)) in His.
  by rewrite bool_decide_eq_true_2 in His.
Qed.

Lemma sound_ingest g cell count ai :
  agrees g →
  MinesweeperAI.height ai = Minesweeper.height g →
  MinesweeperAI.width ai = Minesweeper.width g →
  sound (Minesweeper.mines g) ai →
  cell ∉ Minesweeper.mines g →
  Minesweeper.nearby_mines g cell = Minesweeper.Done count →
  sound (Minesweeper.mines g) (ingest cell count ai).
Proof.
  intros Hag Hh Hw (Ht & Hm & Hs & Hmv) Hcell Hcount. unfold ingest.
  set (ai1 := MinesweeperAI.mark_safe cell (MinesweeperAI.add_move cell ai)).
  assert (sound (Minesweeper.mines g) ai1) as Hsound1.
  { unfold ai1. rewrite mark_safe_as_set. apply sound_mark_safes; [|set_solver].
    split_and!; try done. simpl. set_solver. }
  apply sound_classify; [done|]. unfold true_of.
  cbn [Sentence.cells Sentence.count].
  destruct Hsound1 as (_ & Hm1 & Hs1 & Hmv1).
  apply (scan_neighbours_true (Minesweeper.mines g) ai1
           (MinesweeperAI.neighbourhood cell) ∅ count
           (NoDup_neighbourhood cell) Hm1 Hs1 Hmv1); [set_solver|].
  unfold Minesweeper.nearby_mines in Hcount.
  rewrite nearby_loop_spec in Hcount by (done || apply NoDup_neighbourhood).
  injection Hcount as <-.
  replace (∅ ∩ Minesweeper.mines g) with (∅ : gset Cell) by set_solver.
  rewrite size_empty. rewrite Z.add_0_l, Z.sub_0_r. do 2 f_equal.
  apply set_eq. intros c.
  rewrite !elem_of_intersection, !elem_of_list_to_set, !list_elem_of_filter.
  unfold on_board, on_field, ai1. simpl.
  destruct (mark_safe_list_frame [cell] (MinesweeperAI.add_move cell ai))
    as (Hh1 & Hw1 & _).
  unfold mark_safe_list in Hh1, Hw1. simpl in Hh1, Hw1. rewrite Hh, Hw.
  split; [naive_solver|]. intros [[Hon Hnb] Hmine].
  destruct Hon as [[??] [??]]. split_and!; try done. congruence.
Qed.


(** X10: one honest observation keeps the engine sound.  If the field and
    the mine set of the game agree, the engine has the size of the game,
    everything it holds is true of the mines of the game, the cell is no
    mine according to is_mine and count is what nearby_mines returns for
    it, then after add_knowledge(cell, count) has returned, every cell in
    mines is a mine of the game, no cell in safes is, and every sentence of
    the knowledge base is true of the game. *)
Theorem add_knowledge_sound g fuel cell count ai ai' :
  agrees g →
  MinesweeperAI.height ai = Minesweeper.height g →
  MinesweeperAI.width ai = Minesweeper.width g →
  sound (Minesweeper.mines g) ai →
  Minesweeper.is_mine g cell = Minesweeper.Done false →
  Minesweeper.nearby_mines g cell = Minesweeper.Done count →
  MinesweeperAI.add_knowledge fuel cell count ai = Ok ai' →
  sound (Minesweeper.mines g) ai' ∧ kb_true (Minesweeper.mines g) ai'.
Proof.
  intros Hag Hh Hw Hsound Hcell Hcount Hrun.
  assert (sound (Minesweeper.mines g) ai') as Hsound'.
  { rewrite add_knowledge_ingest in Hrun.
    apply bind_Ok_inv in Hrun as (ai1 & Htriv & Hinf).
    eapply sound_inference_update; [|done].
    eapply sound_trivial_update; [|done].
    apply sound_ingest; try done. by apply is_mine_false. }
  split; [done|]. apply kb_true_deref. intros r _. apply Hsound'.
Qed.

Lemma sound_init board h w : sound board (MinesweeperAI.init h w).
Proof.
  split_and!; simpl; try set_solver. intros r. unfold MinesweeperAI.deref.
  simpl. apply true_of_default.
Qed.

Lemma ai_centre_run :
  MinesweeperAI.add_knowledge 2 (1, 1) 1 (MinesweeperAI.init 3 3) = Ok ai_centre.
Proof. vm_compute. reflexivity. Qed.

Lemma add_knowledge_sound_witness :
  sound (Minesweeper.mines game_corner) ai_centre
  ∧ kb_true (Minesweeper.mines game_corner) ai_centre.
Proof.
  apply (add_knowledge_sound game_corner 2 (1, 1) 1 (MinesweeperAI.init 3 3)
           ai_centre game_corner_agrees eq_refl eq_refl (sound_init _ 3 3)).
  - vm_compute. reflexivity.
  - vm_compute. reflexivity.
  - apply ai_centre_run.
Defined.

Lemma honest_sound g ai :
  agrees g → honest g ai →
  MinesweeperAI.height ai = Minesweeper.height g
  ∧ MinesweeperAI.width ai = Minesweeper.width g
  ∧ sound (Minesweeper.mines g) ai.
Proof.
  intros Hag. induction 1 as [|fuel cell count ai ai' _ IH Hcell Hcount Hrun].
  - split_and!; [done..|]. apply sound_init.
  - destruct IH as (Hh & Hw & Hsound).
    apply grows_add_knowledge in Hrun as Hgrow.
    destruct Hgrow as (Hh' & Hw' & _).
    rewrite add_knowledge_ingest in Hrun.
    apply bind_Ok_inv in Hrun as (ai1 & Htriv & Hinf).
    split_and!; [congruence..|].
    eapply sound_inference_update; [|done].
    eapply sound_trivial_update; [|done].
    apply sound_ingest; try done. by apply is_mine_false.
Qed.

(** X11: in honest play, where every add_knowledge(cell, count) on an
    engine of the size of the game is for a cell that is_mine reports as no
    mine, with the count nearby_mines returns, the engine never holds a
    wrong conclusion: every cell of mines is a mine of the game, no cell of
    safes is, and make_safe_move never returns a mine. *)
Theorem honest_play_sound g pop ai :
  agrees g → pop_ok pop → honest g ai →
  MinesweeperAI.mines ai ⊆ Minesweeper.mines g
  ∧ MinesweeperAI.safes ai ## Minesweeper.mines g
  ∧ kb_true (Minesweeper.mines g) ai
  ∧ ∀ c, (MinesweeperAI.make_safe_move pop ai).1 = Some c →
         c ∉ Minesweeper.mines g.
Proof.
  intros Hag Hpop Hhonest.
  destruct (honest_sound g ai Hag Hhonest) as (_ & _ & Ht & Hm & Hs & Hmv).
  split_and!; try done.
  - apply kb_true_deref. intros r _. apply Ht.
  - unfold MinesweeperAI.make_safe_move.
    destruct (decide (size _ = 0%nat)) as [Hsz|Hsz]; simpl; [done|].
    intros c [= <-].
    assert (pop (MinesweeperAI.safes ai ∖ MinesweeperAI.moves_made ai)
            ∈ MinesweeperAI.safes ai ∖ MinesweeperAI.moves_made ai) as Hin.
    { apply Hpop. intros He. rewrite He, size_empty in Hsz. done. }
    set_solver.
Qed.

Lemma honest_play_sound_witness :
  MinesweeperAI.mines ai_centre ⊆ Minesweeper.mines game_corner
  ∧ MinesweeperAI.safes ai_centre ## Minesweeper.mines game_corner
  ∧ kb_true (Minesweeper.mines game_corner) ai_centre
  ∧ ∀ c, (MinesweeperAI.make_safe_move pop_first ai_centre).1 = Some c →
         c ∉ Minesweeper.mines game_corner.
Proof.
  apply (honest_play_sound game_corner pop_first ai_centre
           game_corner_agrees pop_first_ok).
  apply (honest_add_knowledge game_corner 2 (1, 1) 1 (MinesweeperAI.init 3 3)
           ai_centre (honest_init game_corner)).
  - vm_compute. reflexivity.
  - vm_compute. reflexivity.
  - apply ai_centre_run.
Defined.

Lemma grows_mark_mine c ai : grows ai (MinesweeperAI.mark_mine c ai).
Proof. repeat split; simpl; set_solver. Qed.

Lemma grows_mark_safe c ai : grows ai (MinesweeperAI.mark_safe c ai).
Proof. repeat split; simpl; set_solver. Qed.

Lemma grows_classify s ai : grows ai (MinesweeperAI.classify s ai).
Proof.
  apply (P_classify (grows ai)); [..|apply grows_refl].
  - intros c' a Ha. eapply grows_trans; [done|apply grows_mark_mine].
  - intros c' a Ha. eapply grows_trans; [done|apply grows_mark_safe].
  - intros s' a Ha. eapply grows_trans; [done|]. by repeat split.
Qed.

Lemma grows_trivial_update fuel ai ai' :
  MinesweeperAI.trivial_update fuel ai = Ok ai' → grows ai ai'.
Proof.
  apply (P_trivial_update (grows ai)); [..|apply grows_refl].
  - intros c' a Ha. eapply grows_trans; [done|apply grows_mark_mine].
  - intros c' a Ha. eapply grows_trans; [done|apply grows_mark_safe].
  - intros k a Ha. eapply grows_trans; [done|]. by repeat split.
Qed.

Lemma grows_inference_update fuel ai ai' :
  MinesweeperAI.inference_update fuel ai = Ok ai' → grows ai ai'.
Proof.
  apply (P_inference_update (grows ai)); [..|apply grows_refl].
  - intros c' a Ha. eapply grows_trans; [done|apply grows_mark_mine].
  - intros c' a Ha. eapply grows_trans; [done|apply grows_mark_safe].
  - intros s' a Ha. eapply grows_trans; [done|]. by repeat split.
  - intros k a Ha. eapply grows_trans; [done|]. by repeat split.
Qed.

(** X12: when add_knowledge(cell, count) returns, the cell is in
    moves_made and in safes, whatever the engine and the count were. *)
Theorem add_knowledge_records_cell fuel cell count ai ai' :
  MinesweeperAI.add_knowledge fuel cell count ai = Ok ai' →
  cell ∈ MinesweeperAI.moves_made ai' ∧ cell ∈ MinesweeperAI.safes ai'.
Proof.
  intros Hrun. rewrite add_knowledge_ingest in Hrun.
  apply bind_Ok_inv in Hrun as (ai1 & Htriv & Hinf).
  apply grows_trivial_update in Htriv as (_ & _ & Hmv1 & _ & Hs1).
  apply grows_inference_update in Hinf as (_ & _ & Hmv2 & _ & Hs2).
  destruct (grows_classify
              (Sentence.mk
                 (foldl (MinesweeperAI.scan_neighbour
                           (MinesweeperAI.mark_safe cell
                              (MinesweeperAI.add_move cell ai)))
                        (∅, count) (MinesweeperAI.neighbourhood cell)).1
                 (foldl (MinesweeperAI.scan_neighbour
                           (MinesweeperAI.mark_safe cell
                              (MinesweeperAI.add_move cell ai)))
                        (∅, count) (MinesweeperAI.neighbourhood cell)).2)
              (MinesweeperAI.mark_safe cell (MinesweeperAI.add_move cell ai)))
    as (_ & _ & Hmv0 & _ & Hs0).
  fold (ingest cell count ai) in Hmv0, Hs0.
  cbn [MinesweeperAI.moves_made MinesweeperAI.safes MinesweeperAI.mark_safe
       MinesweeperAI.add_move] in Hmv0, Hs0.
  set_solver.
Qed.

Lemma add_knowledge_records_cell_witness :
  (1, 1) ∈ MinesweeperAI.moves_made ai_centre
  ∧ (1, 1) ∈ MinesweeperAI.safes ai_centre.
Proof.
  apply (add_knowledge_records_cell 2 (1, 1) 1 (MinesweeperAI.init 3 3)).
  apply ai_centre_run.
Defined.

(** ** The sentence that add_knowledge builds *)

Lemma scan_neighbour_closed ai X n c :
  MinesweeperAI.scan_neighbour ai (X, n) c
  = (if decide (to_store ai c) then {[c]} ∪ X else X,
     if decide (known_mine ai c) then n - 1 else n).
Proof.
  unfold MinesweeperAI.scan_neighbour, to_store, known_mine, on_board.
  destruct (decide (c.1 < 0 ∨ c.2 < 0)).
  { rewrite !decide_False by lia. done. }
  destruct (decide (c.1 >= MinesweeperAI.height ai
                    ∨ c.2 >= MinesweeperAI.width ai)).
  { rewrite !decide_False by lia. done. }
  destruct (decide (c ∈ MinesweeperAI.moves_made ai)).
  { rewrite !decide_False by naive_solver. done. }
  destruct (decide (c ∈ MinesweeperAI.mines ai)).
  { rewrite decide_False by naive_solver.
    rewrite decide_True by (split_and!; (done || lia)). done. }
  destruct (decide (c ∈ MinesweeperAI.safes ai)).
  { rewrite !decide_False by naive_solver. done. }
  rewrite decide_True by (split_and!; (done || lia)).
  rewrite decide_False by naive_solver. done.
Qed.

Lemma scan_neighbours_closed ai l X n :
  foldl (MinesweeperAI.scan_neighbour ai) (X, n) l
  = (list_to_set (filter (to_store ai) l) ∪ X,
     n - Z.of_nat (length (filter (known_mine ai) l))).
Proof.
  revert X n. induction l as [|c l IH]; intros X n.
  - simpl. f_equal; [set_solver|lia].
  - cbn [foldl]. rewrite scan_neighbour_closed, IH, !filter_cons.
    destruct (decide (to_store ai c)), (decide (known_mine ai c));
      f_equal; simpl; (set_solver || lia).
Qed.

(** Reads the fields of an engine built by the setters. *)
Ltac ai_fields :=
  cbn [MinesweeperAI.mark_safe MinesweeperAI.mark_mine MinesweeperAI.add_move
       MinesweeperAI.append MinesweeperAI.set_knowledge MinesweeperAI.init
       MinesweeperAI.height MinesweeperAI.width MinesweeperAI.moves_made
       MinesweeperAI.mines MinesweeperAI.safes MinesweeperAI.knowledge].

Lemma to_store_after_move ai cell c :
  to_store (MinesweeperAI.mark_safe cell (MinesweeperAI.add_move cell ai)) c
  ↔ on_board ai c ∧ c ≠ cell ∧ (c ∉ MinesweeperAI.moves_made ai)
    ∧ (c ∉ MinesweeperAI.mines ai) ∧ (c ∉ MinesweeperAI.safes ai).
Proof.
  unfold to_store, on_board. ai_fields.
  rewrite !elem_of_union, !elem_of_singleton. naive_solver.
Qed.

Lemma known_mine_after_move ai cell c :
  known_mine (MinesweeperAI.mark_safe cell (MinesweeperAI.add_move cell ai)) c
  ↔ on_board ai c ∧ c ≠ cell ∧ (c ∉ MinesweeperAI.moves_made ai)
    ∧ c ∈ MinesweeperAI.mines ai.
Proof.
  unfold known_mine, on_board. ai_fields.
  rewrite !elem_of_union, !elem_of_singleton. naive_solver.
Qed.

(** X13: the sentence that add_knowledge(cell, count) classifies, on any
    engine: its cells are the cells around [cell] that are on the board,
    are not [cell] and are in none of moves_made, mines and safes; its
    count is [count] less the number of cells around [cell] on the board
    that are in mines and not in moves_made; it has at most 8 cells. *)
Theorem add_knowledge_new_sentence fuel cell count ai :
  ∃ (new : Sentence.t) (known : gset Cell),
    MinesweeperAI.add_knowledge fuel cell count ai
    = MinesweeperAI.trivial_update fuel
        (MinesweeperAI.classify new
           (MinesweeperAI.mark_safe cell (MinesweeperAI.add_move cell ai)))
      ≫= MinesweeperAI.inference_update fuel
    ∧ (∀ c, c ∈ Sentence.cells new ↔
            c ∈ MinesweeperAI.neighbourhood cell ∧ on_board ai c ∧ c ≠ cell
            ∧ (c ∉ MinesweeperAI.moves_made ai)
            ∧ (c ∉ MinesweeperAI.mines ai) ∧ (c ∉ MinesweeperAI.safes ai))
    ∧ (∀ c, c ∈ known ↔
            c ∈ MinesweeperAI.neighbourhood cell ∧ on_board ai c ∧ c ≠ cell
            ∧ (c ∉ MinesweeperAI.moves_made ai) ∧ c ∈ MinesweeperAI.mines ai)
    ∧ Sentence.count new = count - Z.of_nat (size known)
    ∧ (size (Sentence.cells new) ≤ 8)%nat.
Proof.
  set (ai1 := MinesweeperAI.mark_safe cell (MinesweeperAI.add_move cell ai)).
  exists (Sentence.mk
            (list_to_set (filter (to_store ai1) (MinesweeperAI.neighbourhood cell)))
            (count - Z.of_nat (length (filter (known_mine ai1)
                                         (MinesweeperAI.neighbourhood cell))))),
    (list_to_set (filter (known_mine ai1) (MinesweeperAI.neighbourhood cell))).
  assert (∀ c, c ∈ (list_to_set (filter (to_store ai1)
                      (MinesweeperAI.neighbourhood cell)) : gset Cell) ↔
            c ∈ MinesweeperAI.neighbourhood cell ∧ on_board ai c ∧ c ≠ cell
            ∧ (c ∉ MinesweeperAI.moves_made ai)
            ∧ (c ∉ MinesweeperAI.mines ai) ∧ (c ∉ MinesweeperAI.safes ai))
    as Hcells.
  { intros c. rewrite elem_of_list_to_set, list_elem_of_filter.
    unfold ai1. rewrite to_store_after_move. clear ai1. naive_solver. }
  split_and!.
  - rewrite add_knowledge_ingest. unfold ingest. fold ai1.
    rewrite scan_neighbours_closed. cbn [fst snd].
    by rewrite union_empty_r_L.
  - exact Hcells.
  - clear Hcells. intros c. rewrite elem_of_list_to_set, list_elem_of_filter.
    unfold ai1. rewrite known_mine_after_move. clear ai1. naive_solver.
  - cbn [Sentence.count]. rewrite size_list_to_set; [done|].
    apply NoDup_filter, NoDup_neighbourhood.
  - cbn [Sentence.cells].
    assert ((list_to_set (filter (to_store ai1)
               (MinesweeperAI.neighbourhood cell)) : gset Cell)
            ⊆ list_to_set (MinesweeperAI.neighbourhood cell) ∖ {[cell]}) as Hsub.
    { intros c Hc. apply Hcells in Hc as (Hn & _ & Hne & _).
      apply elem_of_difference. split; [by apply elem_of_list_to_set|].
      by rewrite elem_of_singleton. }
    apply subseteq_size in Hsub.
    rewrite (size_difference (C:=gset Cell)
               (list_to_set (MinesweeperAI.neighbourhood cell))) in Hsub.
    + rewrite size_singleton in Hsub.
      rewrite (size_list_to_set (C:=gset Cell)
                 (MinesweeperAI.neighbourhood cell)) in Hsub
        by apply NoDup_neighbourhood.
      rewrite length_neighbourhood in Hsub. lia.
    + intros c ->%elem_of_singleton. apply elem_of_list_to_set.
      apply elem_of_neighbourhood. lia.
Qed.

(** X14: an observation of 0 next to no known mine reveals the
    neighbours: if no cell around [cell] is in mines, then after
    add_knowledge(cell, 0) has returned every cell around [cell] that is on
    the board is in safes or was already in moves_made. *)
Theorem add_knowledge_zero fuel cell ai ai' :
  (∀ c, c ∈ MinesweeperAI.neighbourhood cell → c ∉ MinesweeperAI.mines ai) →
  MinesweeperAI.add_knowledge fuel cell 0 ai = Ok ai' →
  ∀ c, c ∈ MinesweeperAI.neighbourhood cell → on_board ai c →
       c ∈ MinesweeperAI.safes ai' ∨ c ∈ MinesweeperAI.moves_made ai.
Proof.
  intros Hnomine Hrun c Hc Hon.
  rewrite add_knowledge_ingest in Hrun.
  apply bind_Ok_inv in Hrun as (ai1 & Htriv & Hinf).
  apply grows_trivial_update in Htriv as (_ & _ & _ & _ & Hs1).
  apply grows_inference_update in Hinf as (_ & _ & _ & _ & Hs2).
  destruct (decide (c ∈ MinesweeperAI.moves_made ai)) as [|Hnew]; [by right|].
  left. apply Hs2, Hs1. unfold ingest.
  set (ai0 := MinesweeperAI.mark_safe cell (MinesweeperAI.add_move cell ai)).
  rewrite scan_neighbours_closed. cbn [fst snd].
  assert (filter (known_mine ai0) (MinesweeperAI.neighbourhood cell) = []) as ->.
  { destruct (filter (known_mine ai0) (MinesweeperAI.neighbourhood cell))
      as [|c' l'] eqn:Hf; [done|exfalso].
    assert (c' ∈ filter (known_mine ai0) (MinesweeperAI.neighbourhood cell))
      as Hin by (rewrite Hf; left).
    apply list_elem_of_filter in Hin as [Hk Hc'].
    apply known_mine_after_move in Hk. apply (Hnomine c' Hc'). naive_solver. }
  rewrite classify_safe by done. cbn [Sentence.cells].
  destruct (mark_safes_frame
              (list_to_set (filter (to_store ai0)
                              (MinesweeperAI.neighbourhood cell)) ∪ ∅) ai0)
    as (_ & _ & _ & _ & -> & _).
  destruct (decide (c = cell)) as [->|Hne]; [unfold ai0; ai_fields; set_solver|].
  destruct (decide (c ∈ MinesweeperAI.safes ai));
    [unfold ai0; ai_fields; set_solver|].
  apply elem_of_union_l, elem_of_union_l.
  rewrite elem_of_list_to_set, list_elem_of_filter. split; [|done].
  apply to_store_after_move. split_and!; try done. by apply Hnomine.
Qed.

Lemma add_knowledge_zero_witness :
  (0, 1) ∈ MinesweeperAI.safes
             (MinesweeperAI.mk 3 3 {[(0, 0)]} ∅
                {[(0, 0); (0, 1); (1, 0); (1, 1)]} [] [])
  ∨ (0, 1) ∈ MinesweeperAI.moves_made (MinesweeperAI.init 3 3).
Proof.
  apply (add_knowledge_zero 2 (0, 0) (MinesweeperAI.init 3 3)
           (MinesweeperAI.mk 3 3 {[(0, 0)]} ∅
              {[(0, 0); (0, 1); (1, 0); (1, 1)]} [] [])).
  - intros c _. ai_fields. set_solver.
  - vm_compute. reflexivity.
  - apply elem_of_neighbourhood. simpl. lia.
  - unfold on_board. simpl. lia.
Defined.

(** ** Reading the field *)

Lemma py_index_spec {A : Type} (l : list A) (i : Z) :
  Minesweeper.py_index l i
  = if decide (- Z.of_nat (length l) ≤ i < Z.of_nat (length l))
    then l !! Z.to_nat (i `mod` Z.of_nat (length l))
    else None.
Proof.
  unfold Minesweeper.py_index.
  destruct (decide (0 ≤ i)) as [Hi|Hi].
  - destruct (decide (- Z.of_nat (length l) ≤ i < Z.of_nat (length l)))
      as [Hr|Hr].
    + by rewrite Z.mod_small by lia.
    + apply lookup_ge_None. lia.
  - destruct (decide (- Z.of_nat (length l) ≤ i)) as [Hl|Hl].
    + rewrite decide_True by lia. do 2 f_equal.
      apply (Z.mod_unique_pos i _ (-1)); lia.
    + by rewrite decide_False by lia.
Qed.

(** X15: is_mine on a game whose field is well formed (as after
    __init__): for a row index in [-height, height) and a column index in
    [-width, width) it tells whether the cell, with a negative index
    counted from the end as Python does, is a mine; for any other index
    it fails with IndexError. *)
Theorem is_mine_spec g c :
  field_ok (Minesweeper.height g) (Minesweeper.width g)
           (Minesweeper.mines g) (Minesweeper.board g) →
  Minesweeper.is_mine g c
  = if decide ((- Minesweeper.height g ≤ c.1 < Minesweeper.height g)
               ∧ (- Minesweeper.width g ≤ c.2 < Minesweeper.width g))
    then Minesweeper.Done
           (bool_decide ((c.1 `mod` Minesweeper.height g,
                          c.2 `mod` Minesweeper.width g)
                         ∈ Minesweeper.mines g))
    else Minesweeper.Fail Minesweeper.IndexError.
Proof.
  intros Hok. pose proof Hok as (Hlen & Hrows & _).
  unfold Minesweeper.is_mine, Minesweeper.board_get.
  rewrite py_index_spec, Hlen.
  destruct (decide (- Minesweeper.height g ≤ c.1 < Minesweeper.height g))
    as [Hi|Hi].
  - rewrite decide_True by lia. rewrite !Z2Nat.id by lia.
    pose proof (Z.mod_pos_bound c.1 (Minesweeper.height g)) as Hmi.
    destruct (decide (- Minesweeper.width g ≤ c.2 < Minesweeper.width g))
      as [Hj|Hj].
    + pose proof (Z.mod_pos_bound c.2 (Minesweeper.width g)) as Hmj.
      destruct (field_ok_row _ _ _ _
                  (c.1 `mod` Minesweeper.height g,
                   c.2 `mod` Minesweeper.width g) Hok)
        as (row & Hrow & Hw & Hx); [simpl; lia..|].
      simpl in Hrow, Hx. rewrite Hrow, py_index_spec, Hw.
      rewrite decide_True by lia. rewrite !Z2Nat.id by lia. rewrite Hx.
      by rewrite decide_True.
    + rewrite (decide_False (P:=_ ∧ _)) by naive_solver.
      destruct (lookup_lt_is_Some_2 (Minesweeper.board g)
                  (Z.to_nat (c.1 `mod` Minesweeper.height g))) as [row Hrow];
        [lia|].
      rewrite Hrow, py_index_spec. destruct (Hrows _ _ Hrow) as [-> _].
      by rewrite decide_False by lia.
  - rewrite decide_False by lia.
    by rewrite (decide_False (P:=_ ∧ _)) by naive_solver.
Qed.

Lemma game_corner_field_ok :
  field_ok (Minesweeper.height game_corner) (Minesweeper.width game_corner)
           (Minesweeper.mines game_corner) (Minesweeper.board game_corner).
Proof.
  pose proof (place_mines_spec [(0, 0)] 3 3 1
                (Minesweeper.mk 3 3 ∅ (Minesweeper.empty_board 3 3) ∅)
                eq_refl eq_refl (field_ok_empty 3 3)) as Hspec.
  fold (Minesweeper.init [(0, 0)] 3 3 1) in Hspec.
  rewrite game_corner_init in Hspec. apply Hspec.
Qed.

Lemma is_mine_spec_witness :
  Minesweeper.is_mine game_corner (-3, 0)
  = if decide ((- Minesweeper.height game_corner ≤ (-3, 0).1
                < Minesweeper.height game_corner)
               ∧ (- Minesweeper.width game_corner ≤ (-3, 0).2
                  < Minesweeper.width game_corner))
    then Minesweeper.Done
           (bool_decide (((-3, 0).1 `mod` Minesweeper.height game_corner,
                          (-3, 0).2 `mod` Minesweeper.width game_corner)
                         ∈ Minesweeper.mines game_corner))
    else Minesweeper.Fail Minesweeper.IndexError.
Proof. apply (is_mine_spec game_corner (-3, 0) game_corner_field_ok). Defined.

(** ** When subset inference returns *)

(** X16: inference_update returns only with a knowledge base in which no
    two sentences that differ have their cells in subset relation; and on
    such a knowledge base it returns after one pass and leaves the engine
    as it is. *)
Theorem inference_update_exit fuel ai :
  (∀ ai', MinesweeperAI.inference_update fuel ai = Ok ai' → no_subset_pair ai')
  ∧ (no_subset_pair ai → MinesweeperAI.inference_update (S fuel) ai = Ok ai).
Proof.
  split.
  - revert ai. induction fuel as [|fuel IH]; intros ai ai' Hrun; [done|].
    cbn [MinesweeperAI.inference_update] in Hrun.
    apply bind_Ok_inv in Hrun as ([ai1 ch] & Hpass & Hrest).
    destruct ch; [by eapply IH|]. injection Hrest as <-.
    unfold MinesweeperAI.inference_pass in Hpass.
    apply inference_outer_quiet in Hpass as [-> Hcond].
    intros r1 r2 Hr1 Hr2. by apply Hcond.
  - intros Hcond. cbn [MinesweeperAI.inference_update].
    unfold MinesweeperAI.inference_pass. rewrite inference_outer_skip; [done|].
    intros r1 r2 Hr1 Hr2. by apply Hcond.
Qed.

Lemma inference_update_exit_witness :
  no_subset_pair (MinesweeperAI.mark_mines {[(0, 2)]} ai_subset)
  ∧ MinesweeperAI.inference_update 1
      (MinesweeperAI.mark_mines {[(0, 2)]} ai_subset)
    = Ok (MinesweeperAI.mark_mines {[(0, 2)]} ai_subset).
Proof.
  assert (no_subset_pair (MinesweeperAI.mark_mines {[(0, 2)]} ai_subset)) as H.
  { apply (proj1 (inference_update_exit 2 ai_subset)). vm_compute. reflexivity. }
  split; [exact H|].
  apply (proj2 (inference_update_exit 0
                  (MinesweeperAI.mark_mines {[(0, 2)]} ai_subset)) H).
Defined.

(** ** Invariants kept when the marked cells come from sentences *)

Section from_sentences.
Import MinesweeperAI.

Variable I : t → Prop.
Variable Q : gset Cell → Prop.
Hypothesis Q_mono : ∀ X Y : gset Cell, Y ⊆ X → Q X → Q Y.
Hypothesis I_cells : ∀ ai r, I ai → Q (Sentence.cells (deref ai r)).
Hypothesis I_mark_mines : ∀ cs ai, I ai → Q cs → I (mark_mines cs ai).
Hypothesis I_mark_safes : ∀ cs ai, I ai → Q cs → I (mark_safes cs ai).
Hypothesis I_append : ∀ s ai, I ai → Q (Sentence.cells s) → I (append s ai).
Hypothesis I_remove : ∀ k ai, I ai → I (set_knowledge k ai).

Lemma Q_classify s ai : I ai → Q (Sentence.cells s) → I (classify s ai).
Proof. intros HI Hs. unfold classify. repeat case_decide; auto. Qed.

Lemma Q_trivial_step acc r acc' :
  I acc.1 → trivial_step acc r = Ok acc' → I acc'.1.
Proof.
  destruct acc as [ai ch]. simpl. intros HI Hstep.
  pose proof (I_cells ai r HI) as Hq.
  destruct (trivial_branch (deref ai r)) eqn:Hbr.
  - destruct (list_remove _ _ _) as [k|] eqn:Hrm; [|done].
    injection Hstep as <-. simpl. by apply I_remove.
  - injection Hstep as <-. by apply I_mark_mines.
  - injection Hstep as <-. by apply I_mark_safes.
  - by injection Hstep as <-.
Qed.

Lemma Q_trivial_update fuel ai ai' :
  I ai → trivial_update fuel ai = Ok ai' → I ai'.
Proof.
  revert ai. induction fuel as [|fuel IH]; intros ai HI Hrun; [done|].
  simpl in Hrun. apply bind_Ok_inv in Hrun as ([ai1 ch] & Hpass & Hrest).
  assert (I ai1) as HI1.
  { revert Hpass. unfold trivial_pass.
    apply (foldM_invariant (λ acc, I acc.1)); [|done].
    intros ????. apply Q_trivial_step. }
  destruct ch; [by eapply IH | by injection Hrest as <-].
Qed.

Lemma Q_inference_step fuel r1 acc r2 acc' :
  I acc.1 → inference_step fuel r1 acc r2 = Ok acc' → I acc'.1.
Proof.
  destruct acc as [ai ch]. simpl. intros HI Hstep.
  pose proof (I_cells ai r2 HI) as Hq.
  repeat case_decide; try by injection Hstep as <-.
  apply bind_Ok_inv in Hstep as (ai1 & Htriv & Hret).
  injection Hret as <-. simpl.
  eapply Q_trivial_update; [|done]. apply Q_classify; [done|].
  simpl. eapply Q_mono; [|done]. set_solver.
Qed.

Lemma Q_inference_update fuel ai ai' :
  I ai → inference_update fuel ai = Ok ai' → I ai'.
Proof.
  revert ai. induction fuel as [|fuel IH]; intros ai HI Hrun; [done|].
  simpl in Hrun. apply bind_Ok_inv in Hrun as ([ai1 ch] & Hpass & Hrest).
  assert (I ai1) as HI1.
  { revert Hpass. unfold inference_pass.
    apply (foldM_invariant (λ acc, I acc.1)); [|done].
    intros acc r1 acc1 _.
    apply (foldM_invariant (λ acc, I acc.1)).
    intros ????. apply Q_inference_step. }
  destruct ch; [by eapply IH | by injection Hrest as <-].
Qed.

End from_sentences.

(** ** The engine stays on its board *)

Lemma within_mark_mines B cs ai :
  within B ai → cs ⊆ B → within B (MinesweeperAI.mark_mines cs ai).
Proof.
  intros (Hc & Hm & Hs) Hcs. unfold within.
  destruct (mark_mines_frame cs ai) as (_ & _ & -> & -> & -> & _).
  split_and!; [|set_solver|done].
  intros r. rewrite deref_mark_mines. specialize (Hc r).
  case_decide; [|done]. simpl. set_solver.
Qed.

Lemma within_mark_safes B cs ai :
  within B ai → cs ⊆ B → within B (MinesweeperAI.mark_safes cs ai).
Proof.
  intros (Hc & Hm & Hs) Hcs. unfold within.
  destruct (mark_safes_frame cs ai) as (_ & _ & -> & -> & -> & _).
  split_and!; [|done|set_solver].
  intros r. rewrite deref_mark_safes. specialize (Hc r).
  case_decide; [|done]. simpl. set_solver.
Qed.

Lemma within_append B s ai :
  within B ai → Sentence.cells s ⊆ B → within B (MinesweeperAI.append s ai).
Proof.
  intros (Hc & Hm & Hs) Hcs. split_and!; try done.
  intros r. unfold MinesweeperAI.deref. simpl.
  destruct ((MinesweeperAI.heap ai ++ [s]) !! r) as [s'|] eqn:Hr; simpl;
    [|set_solver].
  apply lookup_app_Some in Hr as [Hr|[_ Hr]].
  - specialize (Hc r). unfold MinesweeperAI.deref in Hc. by rewrite Hr in Hc.
  - apply list_lookup_singleton_Some in Hr as [_ <-]. done.
Qed.

Lemma within_move B cell ai :
  within B ai →
  within B (MinesweeperAI.mark_safe cell (MinesweeperAI.add_move cell ai)).
Proof.
  intros (Hc & Hm & Hs).
  rewrite mark_safe_as_set.
  assert (∀ r, Sentence.cells
                 (MinesweeperAI.deref (MinesweeperAI.add_move cell ai) r) ⊆ B)
    as Hc' by exact Hc.
  unfold within.
  destruct (mark_safes_frame {[cell]} (MinesweeperAI.add_move cell ai))
    as (_ & _ & -> & -> & -> & _).
  ai_fields. split_and!; [|done|set_solver].
  intros r. rewrite deref_mark_safes. specialize (Hc' r).
  case_decide; [|done]. simpl. set_solver.
Qed.

Lemma within_add_knowledge h w fuel cell count ai ai' :
  MinesweeperAI.height ai = h → MinesweeperAI.width ai = w →
  within (MinesweeperAI.all_cells (MinesweeperAI.init h w)) ai →
  MinesweeperAI.add_knowledge fuel cell count ai = Ok ai' →
  MinesweeperAI.height ai' = h ∧ MinesweeperAI.width ai' = w
  ∧ within (MinesweeperAI.all_cells (MinesweeperAI.init h w)) ai'.
Proof.
  intros Hh Hw Hin. unfold MinesweeperAI.add_knowledge.
  rewrite scan_neighbours_closed.
  set (B := MinesweeperAI.all_cells (MinesweeperAI.init h w)) in *.
  set (inv := λ a, MinesweeperAI.height a = h ∧ MinesweeperAI.width a = w
                   ∧ within B a).
  assert (∀ cs a, inv a → cs ⊆ B → inv (MinesweeperAI.mark_mines cs a)) as Hmm.
  { intros cs a (? & ? & ?) ?.
    destruct (mark_mines_frame cs a) as (Eh & Ew & _).
    split_and!; [congruence|congruence|by apply within_mark_mines]. }
  assert (∀ cs a, inv a → cs ⊆ B → inv (MinesweeperAI.mark_safes cs a)) as Hms.
  { intros cs a (? & ? & ?) ?.
    destruct (mark_safes_frame cs a) as (Eh & Ew & _).
    split_and!; [congruence|congruence|by apply within_mark_safes]. }
  assert (∀ s a, inv a → Sentence.cells s ⊆ B →
                 inv (MinesweeperAI.append s a)) as Hap.
  { intros s a (? & ? & ?) ?. split_and!; [done|done|by apply within_append]. }
  assert (∀ X Y : gset Cell, Y ⊆ X → X ⊆ B → Y ⊆ B) as Hmono.
  { intros X Y HY HX. set_solver. }
  assert (∀ a r, inv a → Sentence.cells (MinesweeperAI.deref a r) ⊆ B) as Hcl.
  { intros a r (_ & _ & Hc & _). apply Hc. }
  assert (∀ k a, inv a → inv (MinesweeperAI.set_knowledge k a)) as Hrm.
  { intros k a (? & ? & ?). split_and!; done. }
  intros Hrun. apply bind_Ok_inv in Hrun as (ai1 & Htriv & Hinf).
  change (inv ai').
  apply (Q_inference_update inv (λ X, X ⊆ B) Hmono Hcl Hmm Hms Hap Hrm
           _ _ _) in Hinf; [done|].
  apply (Q_trivial_update inv (λ X, X ⊆ B) Hcl Hmm Hms Hrm _ _ _) in Htriv;
    [done|].
  apply (Q_classify inv (λ X, X ⊆ B) Hmm Hms Hap).
  - split_and!; [by ai_fields|by ai_fields|by apply within_move].
  - cbn [Sentence.cells]. rewrite union_empty_r_L.
    intros c (Hc & _)%elem_of_list_to_set%list_elem_of_filter.
    apply elem_of_all_cells. destruct Hc as (Hon & _).
    unfold on_board in *. revert Hon. ai_fields. lia.
Qed.

Lemma played_within ai :
  played ai →
  within (MinesweeperAI.all_cells ai) ai.
Proof.
  intros Hp.
  assert (∃ h w, MinesweeperAI.height ai = h ∧ MinesweeperAI.width ai = w
                 ∧ within (MinesweeperAI.all_cells (MinesweeperAI.init h w)) ai)
    as (h & w & <- & <- & Hin).
  { induction Hp as [h w|fuel cell count ai ai' _ IH Hrun].
    - exists h, w. split_and!; done.
    - destruct IH as (h & w & Hh & Hw & Hin). exists h, w.
      by eapply within_add_knowledge. }
  exact Hin.
Qed.

(** X19: in an engine driven by add_knowledge alone from a new engine,
    every cell of mines, every cell of a sentence of the knowledge base and
    every cell of safes that is not a move made lies on the board; so
    make_safe_move only returns cells of the board that have not been
    played. *)
Theorem played_on_board pop ai :
  pop_ok pop → played ai →
  (∀ c, c ∈ MinesweeperAI.mines ai → on_board ai c)
  ∧ (∀ s c, s ∈ MinesweeperAI.kb ai → c ∈ Sentence.cells s → on_board ai c)
  ∧ (∀ c, c ∈ MinesweeperAI.safes ai → c ∉ MinesweeperAI.moves_made ai →
          on_board ai c)
  ∧ ∀ c, (MinesweeperAI.make_safe_move pop ai).1 = Some c →
         on_board ai c ∧ c ∉ MinesweeperAI.moves_made ai.
Proof.
  intros Hpop Hp. destruct (played_within ai Hp) as (Hc & Hm & Hs).
  assert (∀ c, c ∈ MinesweeperAI.safes ai → c ∉ MinesweeperAI.moves_made ai →
               on_board ai c) as Hsafe.
  { intros c Hc1 Hc2. apply elem_of_all_cells. set_solver. }
  split_and!; [| |done|].
  - intros c Hcm. apply elem_of_all_cells. by apply Hm.
  - intros s c (r & -> & _)%list_elem_of_fmap Hcs.
    apply elem_of_all_cells. by apply (Hc r).
  - unfold MinesweeperAI.make_safe_move.
    destruct (decide (size _ = 0%nat)) as [Hsz|Hsz]; simpl; [done|].
    intros c [= <-].
    assert (pop (MinesweeperAI.safes ai ∖ MinesweeperAI.moves_made ai)
            ∈ MinesweeperAI.safes ai ∖ MinesweeperAI.moves_made ai) as Hin.
    { apply Hpop. intros He. rewrite He, size_empty in Hsz. done. }
    apply elem_of_difference in Hin as [Hin1 Hin2]. split; [|done].
    by apply Hsafe.
Qed.

Lemma played_on_board_witness :
  (∀ c, c ∈ MinesweeperAI.mines ai_corner → on_board ai_corner c)
  ∧ (∀ s c, s ∈ MinesweeperAI.kb ai_corner → c ∈ Sentence.cells s →
            on_board ai_corner c)
  ∧ (∀ c, c ∈ MinesweeperAI.safes ai_corner →
          c ∉ MinesweeperAI.moves_made ai_corner → on_board ai_corner c)
  ∧ ∀ c, (MinesweeperAI.make_safe_move pop_first ai_corner).1 = Some c →
         on_board ai_corner c ∧ c ∉ MinesweeperAI.moves_made ai_corner.
Proof.
  apply (played_on_board pop_first ai_corner pop_first_ok
           (played_add_knowledge 2 (0, 0) 1 (MinesweeperAI.init 8 8) ai_corner
              (played_init 8 8) ai_corner_run)).
Defined.

(** ** The knowledge base when add_knowledge returns *)

Lemma inference_step_open fuel r1 acc r2 acc' :
  (∀ r, r ∈ MinesweeperAI.knowledge acc.1 →
        MinesweeperAI.trivial_branch (MinesweeperAI.deref acc.1 r)
        = MinesweeperAI.Keep) →
  MinesweeperAI.inference_step fuel r1 acc r2 = Ok acc' →
  ∀ r, r ∈ MinesweeperAI.knowledge acc'.1 →
       MinesweeperAI.trivial_branch (MinesweeperAI.deref acc'.1 r)
       = MinesweeperAI.Keep.
Proof.
  destruct acc as [ai ch]. simpl. intros Hopen Hstep.
  repeat case_decide; try by injection Hstep as <-.
  apply bind_Ok_inv in Hstep as (ai1 & Htriv & Hret).
  injection Hret as <-. simpl. by eapply trivial_update_exit.
Qed.

Lemma inference_update_open fuel ai ai' :
  (∀ r, r ∈ MinesweeperAI.knowledge ai →
        MinesweeperAI.trivial_branch (MinesweeperAI.deref ai r)
        = MinesweeperAI.Keep) →
  MinesweeperAI.inference_update fuel ai = Ok ai' →
  ∀ r, r ∈ MinesweeperAI.knowledge ai' →
       MinesweeperAI.trivial_branch (MinesweeperAI.deref ai' r)
       = MinesweeperAI.Keep.
Proof.
  revert ai. induction fuel as [|fuel IH]; intros ai Hopen Hrun; [done|].
  cbn [MinesweeperAI.inference_update] in Hrun.
  apply bind_Ok_inv in Hrun as ([ai1 ch] & Hpass & Hrest).
  assert (∀ r, r ∈ MinesweeperAI.knowledge ai1 →
               MinesweeperAI.trivial_branch (MinesweeperAI.deref ai1 r)
               = MinesweeperAI.Keep) as Hopen1.
  { revert Hpass. unfold MinesweeperAI.inference_pass.
    apply (foldM_invariant
             (λ acc, ∀ r, r ∈ MinesweeperAI.knowledge acc.1 →
                MinesweeperAI.trivial_branch (MinesweeperAI.deref acc.1 r)
                = MinesweeperAI.Keep)); [|done].
    intros acc r1 acc1 _.
    apply (foldM_invariant
             (λ acc, ∀ r, r ∈ MinesweeperAI.knowledge acc.1 →
                MinesweeperAI.trivial_branch (MinesweeperAI.deref acc.1 r)
                = MinesweeperAI.Keep)).
    intros a r2 a' _. apply inference_step_open. }
  destruct ch; [by eapply IH | by injection Hrest as <-].
Qed.

Lemma add_knowledge_open fuel cell count ai ai' :
  MinesweeperAI.add_knowledge fuel cell count ai = Ok ai' →
  ∀ r, r ∈ MinesweeperAI.knowledge ai' →
       MinesweeperAI.trivial_branch (MinesweeperAI.deref ai' r)
       = MinesweeperAI.Keep.
Proof.
  rewrite add_knowledge_ingest. intros Hrun.
  apply bind_Ok_inv in Hrun as (ai1 & Htriv & Hinf).
  eapply inference_update_open; [|done]. by eapply trivial_update_exit.
Qed.

(** X20: when add_knowledge returns, every sentence of the knowledge base
    has at least one cell, a count other than 0 and a count other than its
    number of cells, and no two sentences that differ have their cells in
    subset relation: nothing is left that either loop would act on. *)
Theorem add_knowledge_exit fuel cell count ai ai' :
  MinesweeperAI.add_knowledge fuel cell count ai = Ok ai' →
  no_subset_pair ai'
  ∧ ∀ s, s ∈ MinesweeperAI.kb ai' →
      Sentence.cells s ≠ ∅ ∧ Sentence.count s ≠ 0
      ∧ Sentence.count s ≠ Sentence.len s.
Proof.
  intros Hrun. split.
  - rewrite add_knowledge_ingest in Hrun.
    apply bind_Ok_inv in Hrun as (ai1 & _ & Hinf).
    by eapply inference_update_no_subset.
  - intros s (r & -> & Hr)%list_elem_of_fmap.
    apply trivial_branch_Keep. by eapply add_knowledge_open.
Qed.

Lemma add_knowledge_exit_witness :
  no_subset_pair ai_corner
  ∧ ∀ s, s ∈ MinesweeperAI.kb ai_corner →
      Sentence.cells s ≠ ∅ ∧ Sentence.count s ≠ 0
      ∧ Sentence.count s ≠ Sentence.len s.
Proof.
  apply (add_knowledge_exit 2 (0, 0) 1 (MinesweeperAI.init 8 8) ai_corner
           ai_corner_run).
Defined.

Lemma honest_open g ai :
  honest g ai →
  ∀ r, r ∈ MinesweeperAI.knowledge ai →
       MinesweeperAI.trivial_branch (MinesweeperAI.deref ai r)
       = MinesweeperAI.Keep.
Proof.
  destruct 1 as [|fuel cell count ai ai' _ _ _ Hrun].
  - intros r Hr. by apply elem_of_nil in Hr.
  - by eapply add_knowledge_open.
Qed.

(** X21: in honest play every sentence of the knowledge base says
    something that is not yet settled: its count is at least 1 and less
    than its number of cells, so it has at least two cells. *)
Theorem honest_counts_in_range g ai :
  agrees g → honest g ai →
  ∀ s, s ∈ MinesweeperAI.kb ai →
    0 < Sentence.count s < Sentence.len s ∧ 2 ≤ Sentence.len s.
Proof.
  intros Hag Hhonest s (r & -> & Hr)%list_elem_of_fmap.
  destruct (honest_sound g ai Hag Hhonest) as (_ & _ & Ht & _).
  specialize (Ht r). unfold true_of in Ht.
  apply (honest_open g ai Hhonest), trivial_branch_Keep in Hr
    as (_ & Hn0 & Hnl).
  unfold Sentence.len in *.
  assert (size (Sentence.cells (MinesweeperAI.deref ai r)
                ∩ Minesweeper.mines g)
          ≤ size (Sentence.cells (MinesweeperAI.deref ai r)))%nat as Hle.
  { apply subseteq_size. set_solver. }
  lia.
Qed.

Lemma honest_counts_in_range_witness :
  0 < Sentence.count (MinesweeperAI.deref ai_centre 0)
    < Sentence.len (MinesweeperAI.deref ai_centre 0)
  ∧ 2 ≤ Sentence.len (MinesweeperAI.deref ai_centre 0).
Proof.
  apply (honest_counts_in_range game_corner ai_centre game_corner_agrees).
  - apply (honest_add_knowledge game_corner 2 (1, 1) 1 (MinesweeperAI.init 3 3)
             ai_centre (honest_init game_corner)).
    + vm_compute. reflexivity.
    + vm_compute. reflexivity.
    + apply ai_centre_run.
  - vm_compute. left.
Defined.

(** ** How many mines a field can take *)

Lemma length_grid (l1 l2 : list Z) :
  length (i ← l1; j ← l2; [(i, j)]) = (length l1 * length l2)%nat.
Proof.
  induction l1 as [|i l1 IH]; [done|].
  rewrite bind_cons, length_app, IH. simpl. f_equal. clear IH.
  induction l2 as [|j l2 IH2]; [done|].
  rewrite bind_cons, length_app, IH2. done.
Qed.

Lemma NoDup_grid (l1 l2 : list Z) :
  NoDup l1 → NoDup l2 → NoDup (i ← l1; j ← l2; [(i, j)]).
Proof.
  intros H1 H2. apply NoDup_bind; [| |done].
  - intros i1 i2 c _ _ Hc1 Hc2.
    apply list_elem_of_bind in Hc1 as (j1 & ->%list_elem_of_singleton & _).
    apply list_elem_of_bind in Hc2 as (j2 & [= -> _]%list_elem_of_singleton & _).
    done.
  - intros i _. apply NoDup_bind; [| |done].
    + intros j1 j2 c _ _ ->%list_elem_of_singleton
        [= ->]%list_elem_of_singleton. done.
    + intros j _. apply NoDup_singleton.
Qed.

(** The board of an engine has [height * width] cells. *)
Lemma size_all_cells ai :
  size (MinesweeperAI.all_cells ai)
  = (Z.to_nat (MinesweeperAI.height ai) * Z.to_nat (MinesweeperAI.width ai))%nat.
Proof.
  unfold MinesweeperAI.all_cells, range.
  rewrite size_list_to_set by (apply NoDup_grid; apply NoDup_seqZ).
  rewrite length_grid, !length_seqZ. f_equal; f_equal; lia.
Qed.

Lemma field_ok_size h w ms b :
  0 < h → 0 < w → field_ok h w ms b → Z.of_nat (size ms) ≤ h * w.
Proof.
  intros Hh Hw (_ & _ & Hms).
  assert (ms ⊆ MinesweeperAI.all_cells (MinesweeperAI.init h w)) as Hsub.
  { intros c Hc. apply elem_of_all_cells. by apply Hms. }
  apply subseteq_size in Hsub. rewrite size_all_cells in Hsub.
  revert Hsub. ai_fields. nia.
Qed.

(** A field that is not full has a cell without a mine. *)
Lemma field_ok_free h w ms b :
  0 < h → 0 < w → field_ok h w ms b → Z.of_nat (size ms) < h * w →
  ∃ c, (0 ≤ c.1 < h) ∧ (0 ≤ c.2 < w) ∧ c ∉ ms.
Proof.
  intros Hh Hw (_ & _ & Hms) Hlt.
  set (B := MinesweeperAI.all_cells (MinesweeperAI.init h w)).
  assert (ms ⊆ B) as Hsub.
  { intros c Hc. apply elem_of_all_cells. by apply Hms. }
  destruct (size_pos_elem_of (B ∖ ms)) as [c Hc].
  { rewrite (size_difference (C:=gset Cell) B) by done.
    unfold B. rewrite size_all_cells. ai_fields. nia. }
  apply elem_of_difference in Hc as [Hc Hnot].
  apply elem_of_all_cells in Hc. exists c. split_and!; try done; apply Hc.
Qed.

(** Some supply of random numbers lets the loop place the mines that are
    still to be placed. *)
Lemma place_mines_returns (k : nat) h w n g :
  0 < h → 0 < w →
  Minesweeper.height g = h → Minesweeper.width g = w →
  field_ok h w (Minesweeper.mines g) (Minesweeper.board g) →
  n ≤ h * w → Z.of_nat (size (Minesweeper.mines g)) + Z.of_nat k = n →
  ∃ draws g', Minesweeper.place_mines draws h w n g = Minesweeper.Done g'.
Proof.
  intros Hhpos Hwpos. revert g.
  induction k as [|k IH]; intros g Hh Hw Hok Hn Hk.
  - exists [], g. simpl. by rewrite decide_False by lia.
  - destruct (field_ok_free h w _ _ Hhpos Hwpos Hok) as (c & Hi & Hj & Hc);
      [lia|].
    destruct (field_ok_set h w _ _ c Hok Hi Hj) as (b' & Hset & Hok').
    destruct (IH (Minesweeper.mk (Minesweeper.height g) (Minesweeper.width g)
                    ({[c]} ∪ Minesweeper.mines g) b'
                    (Minesweeper.mines_found g)))
      as (draws & g' & Hrun); try done.
    { cbn [Minesweeper.mines].
      rewrite (size_union (C:=gset Cell) {[c]}) by set_solver.
      rewrite size_singleton. lia. }
    exists (c :: draws), g'. cbn [Minesweeper.place_mines].
    rewrite decide_True by lia. unfold Minesweeper.randrange.
    rewrite !decide_True by lia. cbn [Minesweeper.bind].
    rewrite !Z.mod_small by lia.
    replace (c.1, c.2) with c by (by destruct c).
    rewrite (field_ok_get h w (Minesweeper.mines g)) by done.
    cbn [Minesweeper.bind]. rewrite bool_decide_eq_false_2 by done.
    rewrite Hset. cbn [Minesweeper.bind]. exact Hrun.
Qed.

(** X22: on a field with at least one row and one column,
    Minesweeper(height, width, mines) can return exactly when
    0 <= mines <= height * width: then some supply of random numbers makes
    it return; otherwise the loop that adds the mines never exits, whatever
    numbers are drawn (no supply, however long, is enough). *)
Theorem Minesweeper_init_returns h w n :
  0 < h → 0 < w →
  (0 ≤ n ≤ h * w →
   ∃ draws g, Minesweeper.init draws h w n = Minesweeper.Done g)
  ∧ (¬ (0 ≤ n ≤ h * w) →
     ∀ draws, Minesweeper.init draws h w n
              = Minesweeper.Fail Minesweeper.OutOfDraws).
Proof.
  intros Hh Hw. split.
  - intros Hn. unfold Minesweeper.init.
    apply (place_mines_returns (Z.to_nat n)); try done.
    + apply field_ok_empty.
    + lia.
    + cbn [Minesweeper.mines]. rewrite size_empty. lia.
  - intros Hn draws. unfold Minesweeper.init.
    pose proof (place_mines_spec draws h w n
                  (Minesweeper.mk h w ∅ (Minesweeper.empty_board h w) ∅)
                  eq_refl eq_refl (field_ok_empty h w)) as Hspec.
    destruct (Minesweeper.place_mines _ _ _ _ _) as [g|e].
    + destruct Hspec as (_ & _ & _ & Hsz & _ & Hok).
      apply field_ok_size in Hok; [|done..]. lia.
    + destruct Hspec as [->|[_ ?]]; [done|lia].
Qed.

Lemma Minesweeper_init_returns_witness :
  (∃ draws g, Minesweeper.init draws 3 3 1 = Minesweeper.Done g)
  ∧ (∀ draws, Minesweeper.init draws 3 3 10
              = Minesweeper.Fail Minesweeper.OutOfDraws).
Proof.
  split.
  - apply (proj1 (Minesweeper_init_returns 3 3 1 ltac:(lia) ltac:(lia))). lia.
  - apply (proj2 (Minesweeper_init_returns 3 3 10 ltac:(lia) ltac:(lia))). lia.
Defined.

(** X23: a new game is won at once exactly when it has no mines. *)
Theorem new_game_won draws h w n g :
  Minesweeper.init draws h w n = Minesweeper.Done g →
  Minesweeper.won g = true ↔ n = 0.
Proof.
  intros Hinit. unfold Minesweeper.init in Hinit.
  pose proof (place_mines_spec draws h w n
                (Minesweeper.mk h w ∅ (Minesweeper.empty_board h w) ∅)
                eq_refl eq_refl (field_ok_empty h w)) as Hspec.
  rewrite Hinit in Hspec. destruct Hspec as (_ & _ & Hf & Hsz & _).
  cbn [Minesweeper.mines_found] in Hf.
  unfold Minesweeper.won. rewrite Hf, bool_decide_eq_true. split.
  - intros He. rewrite <- He, size_empty in Hsz. lia.
  - intros ->. symmetry. apply leibniz_equiv, size_empty_inv. lia.
Qed.

Lemma new_game_won_witness :
  Minesweeper.won game_corner = true ↔ 1 = 0.
Proof. apply (new_game_won [(0, 0)] 3 3 1 game_corner game_corner_init). Defined.

(** ** The store of sentence objects *)

Lemma store_wf_init h w : store_wf (MinesweeperAI.init h w).
Proof.
  split; [apply NoDup_nil_2|]. intros r Hr. by apply elem_of_nil in Hr.
Qed.

Lemma store_wf_mark_mines cs ai :
  store_wf ai → store_wf (MinesweeperAI.mark_mines cs ai).
Proof.
  intros [Hnd Hin]. unfold store_wf.
  destruct (mark_mines_frame cs ai) as (_ & _ & _ & _ & _ & ->).
  split; [done|]. intros r Hr. rewrite mark_mines_heap, decide_True by done.
  destruct (Hin r Hr) as [s ->]. by eexists.
Qed.

Lemma store_wf_mark_safes cs ai :
  store_wf ai → store_wf (MinesweeperAI.mark_safes cs ai).
Proof.
  intros [Hnd Hin]. unfold store_wf.
  destruct (mark_safes_frame cs ai) as (_ & _ & _ & _ & _ & ->).
  split; [done|]. intros r Hr. rewrite mark_safes_heap, decide_True by done.
  destruct (Hin r Hr) as [s ->]. by eexists.
Qed.

Lemma store_wf_mark_mine c ai :
  store_wf ai → store_wf (MinesweeperAI.mark_mine c ai).
Proof.
  intros [Hnd Hin]. unfold store_wf. rewrite mark_mine_as_list.
  destruct (mark_mine_list_frame [c] ai) as (_ & _ & _ & _ & _ & ->).
  split; [done|]. intros r Hr. rewrite mark_mine_list_heap, decide_True by done.
  destruct (Hin r Hr) as [s ->]. by eexists.
Qed.

Lemma store_wf_mark_safe c ai :
  store_wf ai → store_wf (MinesweeperAI.mark_safe c ai).
Proof.
  intros [Hnd Hin]. unfold store_wf. rewrite mark_safe_as_list.
  destruct (mark_safe_list_frame [c] ai) as (_ & _ & _ & _ & _ & ->).
  split; [done|]. intros r Hr. rewrite mark_safe_list_heap, decide_True by done.
  destruct (Hin r Hr) as [s ->]. by eexists.
Qed.

(** A sentence that is appended is a new object. *)
Lemma store_wf_append s ai :
  store_wf ai → store_wf (MinesweeperAI.append s ai).
Proof.
  intros [Hnd Hin]. split; simpl.
  - apply NoDup_app. split_and!; [done| |apply NoDup_singleton].
    intros r Hr ->%list_elem_of_singleton.
    destruct (Hin _ Hr) as [s' Hs']. apply lookup_lt_Some in Hs'. lia.
  - intros r [Hr| ->%list_elem_of_singleton]%elem_of_app.
    + destruct (Hin r Hr) as [s' Hs']. exists s'.
      by apply lookup_app_l_Some.
    + exists s. by rewrite lookup_app_r, Nat.sub_diag.
Qed.

Lemma store_wf_remove ai x k :
  store_wf ai →
  MinesweeperAI.list_remove (MinesweeperAI.heap ai) x (MinesweeperAI.knowledge ai)
  = Some k →
  store_wf (MinesweeperAI.set_knowledge k ai).
Proof.
  intros [Hnd Hin] Hrm.
  apply list_remove_Some in Hrm as (pre & r0 & post & Hk & -> & _ & _).
  rewrite Hk in Hnd, Hin. split; simpl.
  - apply NoDup_app in Hnd as (Hpre & Hdis & Hpost).
    apply NoDup_cons in Hpost as [_ Hpost].
    apply NoDup_app. split_and!; [done| |done].
    intros r Hr Hr'. apply (Hdis r Hr). by right.
  - intros r Hr. apply Hin. set_solver.
Qed.

Lemma store_wf_add_knowledge fuel cell count ai ai' :
  store_ok ai → store_wf ai →
  MinesweeperAI.add_knowledge fuel cell count ai = Ok ai' → store_wf ai'.
Proof.
  intros Hok Hwf Hrun.
  apply (I_add_knowledge (λ a, store_ok a ∧ store_wf a)) in Hrun; [apply Hrun|..].
  - by intros a [? _].
  - intros cs a [? ?] ?. split;
      [by apply store_ok_mark_mines | by apply store_wf_mark_mines].
  - intros cs a [? ?] ?. split;
      [by apply store_ok_mark_safes | by apply store_wf_mark_safes].
  - intros s a [? ?] ?. split;
      [by apply store_ok_append | by apply store_wf_append].
  - intros a x k [? ?] ? ?. split;
      [by eapply store_ok_remove | by eapply store_wf_remove].
  - split; [by apply store_ok_mark_safe | by apply store_wf_mark_safe].
Qed.

(** X17: in every engine obtained from a new one by calls of the public
    operations, self.knowledge never holds the same Sentence object twice
    (two objects that are == may both be listed), and every entry is an
    object the engine has created. *)
Theorem knowledge_objects_distinct pop sample ai :
  reachable pop sample ai →
  NoDup (MinesweeperAI.knowledge ai)
  ∧ ∀ r, r ∈ MinesweeperAI.knowledge ai →
         is_Some (MinesweeperAI.heap ai !! r).
Proof.
  intros Hreach. change (store_wf ai).
  induction Hreach as [h w|ai ai' Hreach IH Hcall]; [apply store_wf_init|].
  pose proof (reachable_store_ok _ _ _ Hreach) as Hok.
  destruct Hcall as [c ai|c ai|fuel c n ai ai' Hrun|ai|ai].
  - by apply store_wf_mark_mine.
  - by apply store_wf_mark_safe.
  - by eapply store_wf_add_knowledge.
  - unfold MinesweeperAI.make_safe_move. by case_decide.
  - unfold MinesweeperAI.make_random_move. by case_decide.
Qed.

Lemma knowledge_objects_distinct_witness :
  NoDup (MinesweeperAI.knowledge ai_corner)
  ∧ ∀ r, r ∈ MinesweeperAI.knowledge ai_corner →
         is_Some (MinesweeperAI.heap ai_corner !! r).
Proof.
  apply (knowledge_objects_distinct pop_first sample_first ai_corner
           (reachable_call _ _ _ _ (reachable_init _ _ 8 8)
              (call_add_knowledge _ _ 2%nat (0, 0) 1 _ _ ai_corner_run))).
Defined.

(** ** Trivial resolution, in general *)

Lemma listed_true_mark_mines board cs ai :
  cs ⊆ board →
  (∀ r, r ∈ MinesweeperAI.knowledge ai →
        true_of board (MinesweeperAI.deref ai r)) →
  ∀ r, r ∈ MinesweeperAI.knowledge (MinesweeperAI.mark_mines cs ai) →
       true_of board (MinesweeperAI.deref (MinesweeperAI.mark_mines cs ai) r).
Proof.
  intros Hcs Ht r.
  destruct (mark_mines_frame cs ai) as (_ & _ & _ & _ & _ & ->).
  intros Hr. rewrite deref_mark_mines, decide_True by done.
  apply true_of_resolve_mines; auto.
Qed.

Lemma listed_true_mark_safes board cs ai :
  cs ## board →
  (∀ r, r ∈ MinesweeperAI.knowledge ai →
        true_of board (MinesweeperAI.deref ai r)) →
  ∀ r, r ∈ MinesweeperAI.knowledge (MinesweeperAI.mark_safes cs ai) →
       true_of board (MinesweeperAI.deref (MinesweeperAI.mark_safes cs ai) r).
Proof.
  intros Hcs Ht r.
  destruct (mark_safes_frame cs ai) as (_ & _ & _ & _ & _ & ->).
  intros Hr. rewrite deref_mark_safes, decide_True by done.
  apply true_of_resolve_safes; auto.
Qed.

Lemma kb_true_trivial_update board fuel ai ai' :
  kb_true board ai → MinesweeperAI.trivial_update fuel ai = Ok ai' →
  kb_true board ai'.
Proof.
  rewrite !kb_true_deref. intros Ht.
  apply (J_trivial_update board
           (λ a, ∀ r, r ∈ MinesweeperAI.knowledge a →
                      true_of board (MinesweeperAI.deref a r))); [| | | |done].
  - intros a r Ha. apply Ha.
  - intros cs a Ha Hcs. by apply listed_true_mark_mines.
  - intros cs a Ha Hcs. by apply listed_true_mark_safes.
  - intros a x k Ha _ Hrm r Hr. simpl in Hr.
    apply list_remove_Some in Hrm as (pre & r0 & post & Hk & -> & _ & _).
    change (true_of board (MinesweeperAI.deref a r)). apply Ha.
    rewrite Hk. set_solver.
Qed.

(** X18: on a knowledge base whose sentences are all true of one mine
    placement, trivial_update returns (given fuel above the number of
    stored cells), the knowledge base is still true of the placement, and
    every sentence that was listed with count == len(cells) has all its
    cells in mines, every sentence that was listed with count == 0 has all
    its cells in safes, and neither is listed any more. *)
Theorem trivial_update_resolves_all board ai fuel :
  kb_true board ai → (weight ai < fuel)%nat →
  ∃ ai', MinesweeperAI.trivial_update fuel ai = Ok ai'
    ∧ kb_true board ai'
    ∧ ∀ r, r ∈ MinesweeperAI.knowledge ai →
        (Sentence.count (MinesweeperAI.deref ai r)
         = Sentence.len (MinesweeperAI.deref ai r) →
         Sentence.cells (MinesweeperAI.deref ai r) ⊆ MinesweeperAI.mines ai'
         ∧ (r ∉ MinesweeperAI.knowledge ai'))
        ∧ (Sentence.count (MinesweeperAI.deref ai r) = 0 →
           Sentence.cells (MinesweeperAI.deref ai r) ⊆ MinesweeperAI.safes ai'
           ∧ (r ∉ MinesweeperAI.knowledge ai')).
Proof.
  intros Htrue Hfuel.
  destruct (trivial_update_total fuel ai Hfuel) as (ai' & Hrun & _).
  exists ai'. split_and!; [done|by eapply kb_true_trivial_update|].
  intros r Hr. split; intros Hc.
  - destruct (trivial_update_resolves_mines board ai r fuel)
      as (ai2 & Hrun2 & Hsub & Hout & _); try done.
    rewrite Hrun in Hrun2. by injection Hrun2 as <-.
  - destruct (trivial_update_resolves_safes board ai r fuel)
      as (ai2 & Hrun2 & Hsub & Hout & _); try done.
    rewrite Hrun in Hrun2. by injection Hrun2 as <-.
Qed.

Lemma trivial_update_resolves_all_witness :
  ∃ ai', MinesweeperAI.trivial_update 5 ai_two_mines = Ok ai'
    ∧ kb_true {[(0, 0); (0, 1)]} ai'
    ∧ ∀ r, r ∈ MinesweeperAI.knowledge ai_two_mines →
        (Sentence.count (MinesweeperAI.deref ai_two_mines r)
         = Sentence.len (MinesweeperAI.deref ai_two_mines r) →
         Sentence.cells (MinesweeperAI.deref ai_two_mines r)
           ⊆ MinesweeperAI.mines ai'
         ∧ (r ∉ MinesweeperAI.knowledge ai'))
        ∧ (Sentence.count (MinesweeperAI.deref ai_two_mines r) = 0 →
           Sentence.cells (MinesweeperAI.deref ai_two_mines r)
             ⊆ MinesweeperAI.safes ai'
           ∧ (r ∉ MinesweeperAI.knowledge ai')).
Proof.
  apply (trivial_update_resolves_all {[(0, 0); (0, 1)]} ai_two_mines 5
           ai_two_mines_true).
  vm_compute. lia.
Defined.
